(** * The source-panel solver of [scripts/5_plots.py]

    A shallow embedding of the class [PanelMethodAirfoil]: [create_panels]
    (geometry resampling and panel construction), [solve_flow] (influence
    matrix, linear solve, surface pressure) and [compute_flow_field] (velocity
    and pressure on a grid), followed by the properties the specification
    states about them.  The functions around them are embedded too:
    [read_airfoil_dat], [load_xfoil_polar], and what the plotting methods of
    [AirfoilComparator] compute before they draw.

    Numbers.  The program computes in IEEE doubles through numpy.  Here a
    double is a finite real or a non-finite value ([NP.float := option R],
    [None] standing for NaN and the two infinities alike): arithmetic on
    finite values is exact real arithmetic (no rounding, no overflow, no
    signed zero), the operations that numpy evaluates to a non-finite value
    on finite arguments (division by zero, logarithm of a non-positive
    number, square root of a negative number) give [None], and [None] is
    carried through every later operation.  What numpy computes from a
    non-finite value is not followed further.  The range of doubles enters
    at one place, [in_range]: it states where the last two lines of
    [compute_flow_field] overflow, which decides whether the field is
    finite (C8).

    Libraries.  [scipy.interpolate.interp1d] and [scipy.linalg.solve] are
    not code of the repository: both are parameters of the embedding
    (Section variables).  [ref_interp1d] and [ref_linalg_solve] are
    instances of the two interfaces in exact arithmetic, used to run the
    embedding on concrete inputs ([ref_interp1d] on four points, where it is
    scipy's cubic).  Python's [str] methods and [float], the sorting of a
    pandas frame, and the two drawing calls of
    [plot_geometry_comparison_grid] are parameters in the same way; the rest
    of matplotlib and the file system are not modelled: a file is the list of
    its lines. *)

From Stdlib Require Import Reals Lra Lia String Bool Arith List.
Import ListNotations.
From Stdlib Require Import Ascii Sorted Permutation.

(** ** Python outcomes: a call returns a value or raises *)

Module Py.

(** The exceptions that can occur in the embedded code, and the four error
    types the specification names (sec. 7), so that statements about them
    can be written down. *)
Inductive exn : Type :=
| IndexError | KeyError | TypeError | ValueError | LinAlgError
| GeometryError | DegeneratePanelError | SingularSystemError
| NumericInstabilityError.

Inductive outcome (A : Type) : Type :=
| Returned (a : A)
| Raised (e : exn).
Arguments Returned {A} a.
Arguments Raised {A} e.

Definition bind {A B : Type} (m : outcome A) (k : A -> outcome B) : outcome B :=
  match m with
  | Returned a => k a
  | Raised e => Raised e
  end.

Fixpoint mapM {A B : Type} (f : A -> outcome B) (l : list A) : outcome (list B) :=
  match l with
  | [] => Returned []
  | a :: l' =>
      bind (f a) (fun b => bind (mapM f l') (fun bs => Returned (b :: bs)))
  end.

(** [l[i]] for [i >= 0]. *)
Definition getitem {A : Type} (l : list A) (i : nat) : outcome A :=
  match nth_error l i with
  | Some a => Returned a
  | None => Raised IndexError
  end.

(** [l[-1]]. *)
Definition getlast {A : Type} (l : list A) : outcome A :=
  match l with
  | [] => Raised IndexError
  | a :: l' => Returned (last l' a)
  end.

(** A loop over [l] that updates a state and may raise. *)
Fixpoint foldM {S A : Type} (body : S -> A -> outcome S) (l : list A) (s : S)
  : outcome S :=
  match l with
  | [] => Returned s
  | a :: l' => bind (body s a) (fun s' => foldM body l' s')
  end.

(** [for i, a in enumerate(l)]: the pairs the loop runs over. *)
Definition enumerate {A : Type} (l : list A) : list (nat * A) :=
  combine (seq 0 (length l)) l.

End Py.
Import Py.

Notation "x <- m ;; k" := (Py.bind m (fun x => k))
  (at level 61, m at next level, right associativity).
Notation "' pat <- m ;; k" := (Py.bind m (fun x => match x with pat => k end))
  (at level 61, pat pattern, m at next level, right associativity).

(** ** numpy: doubles, element-wise functions, arrays *)

Module NP.

Definition float : Type := option R.

Definition fin (r : R) : float := Some r.

Definition isfinite (a : float) : bool :=
  match a with Some _ => true | None => false end.

Definition lift1 (f : R -> R) (a : float) : float :=
  match a with Some x => Some (f x) | None => None end.

Definition lift2 (f : R -> R -> R) (a b : float) : float :=
  match a, b with
  | Some x, Some y => Some (f x y)
  | _, _ => None
  end.

Definition fadd : float -> float -> float := lift2 Rplus.
Definition fsub : float -> float -> float := lift2 Rminus.
Definition fmul : float -> float -> float := lift2 Rmult.
Definition fneg : float -> float := lift1 Ropp.

(** [a / b]: non-finite when the divisor is zero (numpy: nan or inf, with a
    warning that the script silences). *)
Definition fdiv (a b : float) : float :=
  match a, b with
  | Some x, Some y => if Req_dec_T y 0 then None else Some (x / y)%R
  | _, _ => None
  end.

(** [a**2]. *)
Definition fsq (a : float) : float := fmul a a.

(** [np.log]: -inf at 0 and nan below. *)
Definition flog (a : float) : float :=
  match a with
  | Some x => if Rlt_dec 0 x then Some (ln x) else None
  | None => None
  end.

(** [np.sqrt]: nan below 0. *)
Definition fsqrt (a : float) : float :=
  match a with
  | Some x => if Rle_dec 0 x then Some (sqrt x) else None
  | None => None
  end.

Definition fcos : float -> float := lift1 cos.
Definition fsin : float -> float := lift1 sin.

(** [np.arctan2(y, x)] on finite arguments, by quadrant. *)
Definition arctan2 (y x : R) : R :=
  if Rlt_dec 0 x then atan (y / x)
  else if Rlt_dec x 0 then
         if Rle_dec 0 y then atan (y / x) + PI else atan (y / x) - PI
  else if Rlt_dec 0 y then PI / 2
  else if Rlt_dec y 0 then - (PI / 2)
  else 0.

Definition farctan2 : float -> float -> float := lift2 arctan2.

(** [np.isclose(a, b)] with the default [rtol=1e-05], [atol=1e-08]. *)
Definition isclose (a b : R) : bool :=
  if Rle_dec (Rabs (a - b)) (1e-8 + 1e-5 * Rabs b) then true else false.

(** [np.radians]. *)
Definition radians (deg : R) : R := (deg * (PI / 180))%R.

(** [np.diff] of a one-dimensional array. *)
Fixpoint diff (l : list R) : list R :=
  match l with
  | a :: (b :: _) as t => (b - a)%R :: diff t
  | _ => []
  end.

Fixpoint cumsum_from (acc : R) (l : list R) : list R :=
  match l with
  | [] => []
  | a :: l' => (acc + a)%R :: cumsum_from (acc + a)%R l'
  end.

(** [np.cumsum]. *)
Definition cumsum (l : list R) : list R := cumsum_from 0%R l.

(** An element-wise binary operation on two one-dimensional arrays, with
    numpy's broadcasting: equal lengths, or one of the two of length 1. *)
Definition zip_with (f : R -> R -> R) (a b : list R) : outcome (list R) :=
  if Nat.eqb (length a) (length b) then
    Returned (map (fun ab => f (fst ab) (snd ab)) (combine a b))
  else match a, b with
       | [a0], _ => Returned (map (fun v => f a0 v) b)
       | _, [b0] => Returned (map (fun v => f v b0) a)
       | _, _ => Raised ValueError
       end.

(** [np.linspace(start, stop, num)] (endpoint included): [num] samples,
    the last one set to [stop]. *)
Definition linspace (start stop : R) (num : nat) : list R :=
  match num with
  | O => []
  | S O => [start]
  | S d =>
      map (fun k => (start + INR k * ((stop - start) / INR d))%R) (seq 0 d)
      ++ [stop]
  end.

(** [np.meshgrid(x, y)]: [X[i][j] = x[j]], [Y[i][j] = y[i]]. *)
Definition meshgrid (x y : list R) : list (list R) * list (list R) :=
  (map (fun _ => x) y, map (fun yi => map (fun _ => yi) x) y).

(** [np.zeros(n)] and [np.zeros((n, m))]. *)
Definition zeros (n : nat) : list float := repeat (fin 0) n.
Definition zeros2 (n m : nat) : list (list float) := repeat (zeros m) n.

(** [v[i] = a], for [i] in range. *)
Fixpoint set_nth {A : Type} (l : list A) (i : nat) (a : A) : list A :=
  match l, i with
  | [], _ => []
  | _ :: l', O => a :: l'
  | b :: l', S i' => b :: set_nth l' i' a
  end.

(** [M[i, j] = a]. *)
Definition mat_set (M : list (list float)) (i j : nat) (a : float)
  : list (list float) :=
  set_nth M i (set_nth (nth i M []) j a).

(** [M[i, j]], when in range. *)
Definition mat_get (M : list (list float)) (i j : nat) : option float :=
  match nth_error M i with
  | Some row => nth_error row j
  | None => None
  end.

End NP.
Import NP.

Declare Scope float_scope.
Delimit Scope float_scope with fl.
Bind Scope float_scope with float.
Infix "+" := fadd : float_scope.
Infix "-" := fsub : float_scope.
Infix "*" := fmul : float_scope.
Infix "/" := fdiv : float_scope.
Notation "- x" := (fneg x) : float_scope.

(** ** Panels *)

(** The dictionary [create_panels] builds for each panel (keys [x1], [y1],
    [x2], [y2], [xc], [yc], [length], [theta], [beta]); the field
    [plength] is the key [length]. *)
Record Panel : Type := mkPanel {
  x1 : float; y1 : float; x2 : float; y2 : float;
  xc : float; yc : float;
  plength : float; theta : float; beta : float
}.

(** Lines 53-59: the dictionary of the panel from [(x1, y1)] to
    [(x2, y2)]. *)
Definition panel_between (x1 y1 x2 y2 : float) : Panel :=
  let length := fsqrt (fsq (x2 - x1) + fsq (y2 - y1))%fl in
  let theta := farctan2 (y2 - y1)%fl (x2 - x1)%fl in
  {| x1 := x1; y1 := y1; x2 := x2; y2 := y2;
     xc := ((x1 + x2) / fin 2)%fl; yc := ((y1 + y2) / fin 2)%fl;
     plength := length; theta := theta;
     beta := (theta + fin (PI / 2))%fl |}.

(** ** [solve_flow]: the linear system *)

(** Lines 76-81: the entry [A[i, j]] for [i <> j]. *)
Definition influence (p_i p_j : Panel) : float :=
  let X := ((xc p_i - x1 p_j) * fcos (theta p_j)
            + (yc p_i - y1 p_j) * fsin (theta p_j))%fl in
  let Y := (- (xc p_i - x1 p_j) * fsin (theta p_j)
            + (yc p_i - y1 p_j) * fcos (theta p_j))%fl in
  let r1_sq := (fsq X + fsq Y)%fl in
  let r2_sq := (fsq (X - plength p_j) + fsq Y)%fl in
  let phi1 := farctan2 Y X in
  let phi2 := farctan2 Y (X - plength p_j)%fl in
  let vn := (((X - plength p_j) * flog (r2_sq + fin 1e-12)
              - X * flog (r1_sq + fin 1e-12)
              + fin 2 * Y * (phi2 - phi1))
             / (fin 4 * fin PI))%fl in
  (vn / plength p_j)%fl.

(** Lines 65 and 71-81: [A] starts as zeros and the double loop assigns
    every entry. *)
Definition assemble_A (panels : list Panel) : list (list float) :=
  let n := length panels in
  fold_left
    (fun A ip =>
       fold_left
         (fun A jp =>
            if Nat.eqb (fst ip) (fst jp)
            then mat_set A (fst ip) (fst jp) (fin 0.5)
            else mat_set A (fst ip) (fst jp) (influence (snd ip) (snd jp)))
         (enumerate panels) A)
    (enumerate panels) (zeros2 n n).

(** Lines 66 and 68-69: the right-hand side [b]. *)
Definition rhs (panels : list Panel) (alpha V_inf : float) : list float :=
  fold_left
    (fun b ip =>
       set_nth b (fst ip)
         (- V_inf * (fcos alpha * fcos (beta (snd ip))
                     + fsin alpha * fsin (beta (snd ip))))%fl)
    (enumerate panels) (zeros (length panels)).

(** Lines 86-90: the loop that fills [V_t] and [Cp]; [sigma[i]] raises
    [IndexError] when [sigma] is shorter than the panel list. *)
Definition surface_step (sigma : list float) (alpha V_inf : float)
    (st : list float * list float) (ip : nat * Panel)
  : outcome (list float * list float) :=
  let '(V_t, Cp) := st in
  let '(i, p) := ip in
  let vt_inf := (V_inf * (fcos alpha * - fsin (beta p)
                          + fsin alpha * fcos (beta p)))%fl in
  s_i <- getitem sigma i ;;
  let V_t := set_nth V_t i (vt_inf + s_i / fin 2)%fl in
  vt_i <- getitem V_t i ;;
  let Cp := set_nth Cp i (fin 1 - fsq (vt_i / V_inf))%fl in
  Returned (V_t, Cp).

Definition surface (panels : list Panel) (sigma : list float)
    (alpha V_inf : float) : outcome (list float * list float) :=
  let n := length panels in
  foldM (surface_step sigma alpha V_inf) (enumerate panels) (zeros n, zeros n).

(** ** Python dictionaries with string keys *)

Inductive value : Type :=
| VVec (v : list float)
| VMat (m : list (list float))
| VPanels (ps : list Panel).

Definition dict : Type := list (string * value).

Fixpoint dict_get (d : dict) (k : string) : option value :=
  match d with
  | [] => None
  | (k', v) :: d' => if String.eqb k k' then Some v else dict_get d' k
  end.

Definition dict_keys (d : dict) : list string := map fst d.

(** [d[k]] where the program goes on to use the value as a list of panels,
    and as an array of numbers. *)
Definition get_panels (d : dict) (k : string) : outcome (list Panel) :=
  match dict_get d k with
  | Some (VPanels ps) => Returned ps
  | Some _ => Raised TypeError
  | None => Raised KeyError
  end.

Definition get_vec (d : dict) (k : string) : outcome (list float) :=
  match dict_get d k with
  | Some (VVec v) => Returned v
  | Some _ => Raised TypeError
  | None => Raised KeyError
  end.

(** ** [compute_flow_field]: one panel's contribution at one point *)

(** Lines 107-116 at the grid point [(x, y)], for the panel [p] with
    strength [s]: the pair [(u_loc, v_loc)]. *)
Definition induced (p : Panel) (s : float) (x y : float) : float * float :=
  let dx := (x - x1 p)%fl in
  let dy := (y - y1 p)%fl in
  let X_loc := (dx * fcos (theta p) + dy * fsin (theta p))%fl in
  let Y_loc := (- dx * fsin (theta p) + dy * fcos (theta p))%fl in
  let r1_sq := (fsq X_loc + fsq Y_loc)%fl in
  let r2_sq := (fsq (X_loc - plength p) + fsq Y_loc)%fl in
  let theta1 := farctan2 Y_loc X_loc in
  let theta2 := farctan2 Y_loc (X_loc - plength p)%fl in
  let J := (fin 0.5 * flog ((r2_sq + fin 1e-10) / (r1_sq + fin 1e-10)))%fl in
  let I := (theta2 - theta1)%fl in
  ((J * fcos (theta p) - I * fsin (theta p)) * s / (fin 2 * fin PI),
   (J * fsin (theta p) + I * fcos (theta p)) * s / (fin 2 * fin PI))%fl.

(** Element-wise operations on two-dimensional arrays of one shape. *)
Definition grid_map {A B : Type} (f : A -> B) (G : list (list A))
  : list (list B) :=
  map (map f) G.

Definition grid_zip {A B C : Type} (f : A -> B -> C)
    (G : list (list A)) (H : list (list B)) : list (list C) :=
  map (fun rs => map (fun ab => f (fst ab) (snd ab)) (combine (fst rs) (snd rs)))
      (combine G H).

(** Lines 106-117: one turn of the loop over the panels, [U += u_loc;
    V += v_loc] on the whole grid. *)
Definition field_step (sigma : list float) (X Y : list (list float))
    (st : list (list float) * list (list float)) (kp : nat * Panel)
  : outcome (list (list float) * list (list float)) :=
  let '(U, V) := st in
  let '(k, p) := kp in
  s <- getitem sigma k ;;
  let u_loc := grid_zip (fun x y => fst (induced p s x y)) X Y in
  let v_loc := grid_zip (fun x y => snd (induced p s x y)) X Y in
  Returned (grid_zip fadd U u_loc, grid_zip fadd V v_loc).

Definition compute_flow_field (result : dict) (alpha_deg : R) (res : nat)
  : outcome dict :=
  let alpha := fin (radians alpha_deg) in
  panels <- get_panels result "panels" ;;
  sigma <- get_vec result "sigma" ;;
  let x := linspace (-0.5) 1.5 res in
  let y := linspace (-0.6) 0.6 res in
  let X := grid_map fin (fst (meshgrid x y)) in
  let Y := grid_map fin (snd (meshgrid x y)) in
  let U := grid_map (fun _ => fin 1 * fcos alpha)%fl X in
  let V := grid_map (fun _ => fin 1 * fsin alpha)%fl Y in
  UV <- foldM (field_step sigma X Y) (enumerate panels) (U, V) ;;
  let U := fst UV in
  let V := snd UV in
  let V_mag := grid_zip (fun u v => fsqrt (fsq u + fsq v)%fl) U V in
  let Cp_field := grid_map (fun m => fin 1 - fsq m)%fl V_mag in
  Returned [("X", VMat X); ("Y", VMat Y); ("U", VMat U); ("V", VMat V);
            ("V_mag", VMat V_mag); ("Cp", VMat Cp_field)]%string.

(** ** The two functions that call scipy *)

Section Solver.

(** [interp1d(t, v, kind='cubic')]: raises, or returns the interpolant,
    which raises or returns a double at each parameter it is called on. *)
Variable interp1d : list float -> list R -> outcome (R -> outcome float).

(** [linalg.solve(A, b)]. *)
Variable linalg_solve : list (list float) -> list float -> outcome (list float).

(** Lines 36-38: the closing point is appended unless the two ends are
    already close. *)
Definition close_contour (x y : list R) : outcome (list R * list R) :=
  x0 <- getitem x 0 ;;
  xl <- getlast x ;;
  closed <- (if isclose x0 xl
             then y0 <- getitem y 0 ;; yl <- getlast y ;; Returned (isclose y0 yl)
             else Returned false) ;;
  if (closed : bool) then Returned (x, y)
  else y0 <- getitem y 0 ;; Returned (x ++ [x0], y ++ [y0]).

(** Lines 40-42: cumulative chord length, divided by its last value.
    [np.sqrt] is taken of sums of two squares, so that its result is the
    real square root; the division gives non-finite parameters when the
    contour has length zero. *)
Definition arc_parameter (x y : list R) : outcome (list float) :=
  s <- zip_with Rplus (map (fun d => d * d)%R (diff x))
                      (map (fun d => d * d)%R (diff y)) ;;
  let dist := map sqrt s in
  let t_original := 0%R :: cumsum dist in
  let total := last t_original 0%R in
  Returned (map (fun t => fin t / fin total)%fl t_original).

(** Line 47. *)
Definition cosine_spacing (num_panels : nat) : list R :=
  map (fun u => 0.5 * (1 - cos u))%R (linspace 0 PI (num_panels + 1)).

(** Lines 36-48: the resampled points [x_p], [y_p]. *)
Definition resample (num_panels : nat) (x y : list R)
  : outcome (list float * list float) :=
  xy <- close_contour x y ;;
  let x := fst xy in
  let y := snd xy in
  t_original <- arc_parameter x y ;;
  fx <- interp1d t_original x ;;
  fy <- interp1d t_original y ;;
  let t_new := cosine_spacing num_panels in
  x_p <- mapM fx t_new ;;
  y_p <- mapM fy t_new ;;
  Returned (x_p, y_p).

(** Lines 52-59: the panel between the points [i] and [i+1]. *)
Definition make_panel (x_p y_p : list float) (i : nat) : outcome Panel :=
  x1 <- getitem x_p i ;;
  y1 <- getitem y_p i ;;
  x2 <- getitem x_p (i + 1) ;;
  y2 <- getitem y_p (i + 1) ;;
  Returned (panel_between x1 y1 x2 y2).

(** Lines 50-60. *)
Definition build_panels (num_panels : nat) (x_p y_p : list float)
  : outcome (list Panel) :=
  mapM (make_panel x_p y_p) (seq 0 num_panels).

Definition create_panels (num_panels : nat) (x y : list R)
  : outcome (list Panel) :=
  xy_p <- resample num_panels x y ;;
  build_panels num_panels (fst xy_p) (snd xy_p).

(** [solve_flow]: [None] is Python's [None], returned when the solver
    raises anything at all (the bare [except] of line 84). *)
Definition solve_flow (panels : list Panel) (alpha_deg V_inf : R)
  : outcome (option dict) :=
  let alpha := fin (radians alpha_deg) in
  let A := assemble_A panels in
  let b := rhs panels alpha (fin V_inf) in
  match linalg_solve A b with
  | Raised _ => Returned None
  | Returned sigma =>
      st <- surface panels sigma alpha (fin V_inf) ;;
      Returned (Some [("sigma", VVec sigma); ("Cp", VVec (snd st));
                      ("panels", VPanels panels)]%string)
  end.

End Solver.

(** ** Exact instances of the two library interfaces *)

Fixpoint all_finite (l : list float) : option (list R) :=
  match l with
  | [] => Some []
  | Some r :: l' =>
      match all_finite l' with Some rs => Some (r :: rs) | None => None end
  | None :: _ => None
  end.

Fixpoint increasing (l : list R) : bool :=
  match l with
  | a :: (b :: _) as t => if Rlt_dec a b then increasing t else false
  | _ => true
  end.

(** The Lagrange basis polynomial of the node [ti] against the nodes
    [others], at [t]. *)
Fixpoint lag_prod (ti : R) (others : list R) (t : R) : R :=
  match others with
  | [] => 1
  | tj :: r => (t - tj) / (ti - tj) * lag_prod ti r t
  end.

Fixpoint lag_sum (before ts vs : list R) (t : R) : R :=
  match ts, vs with
  | ti :: ts', v :: vs' =>
      v * lag_prod ti (before ++ ts') t + lag_sum (before ++ [ti]) ts' vs' t
  | _, _ => 0
  end.

(** The polynomial of least degree through the points [(ts, vs)]. *)
Definition lagrange (ts vs : list R) (t : R) : R := lag_sum [] ts vs t.

(** An interpolant in exact arithmetic: the polynomial through the data.
    On four points, the not-a-knot cubic that scipy fits is this polynomial,
    and the instance is run on four points only.  On more than four points
    it is the polynomial of degree [n - 1], which still passes through the
    data but is not scipy's piecewise cubic between them: nothing below
    evaluates it there.  As scipy does, it raises [ValueError] on non-finite
    or repeated abscissae, on arrays of different lengths, on fewer than
    four points, and when called outside the range of the data.  scipy sorts
    the abscissae first; [create_panels] passes them in non-decreasing order,
    and this instance refuses any other order. *)
Definition ref_interp1d (ts : list float) (vs : list R)
  : outcome (R -> outcome float) :=
  match all_finite ts with
  | None => Raised ValueError
  | Some ts' =>
      if negb (Nat.eqb (length ts') (length vs)) then Raised ValueError
      else if Nat.ltb (length ts') 4 then Raised ValueError
      else if negb (increasing ts') then Raised ValueError
      else Returned (fun t =>
             if Rle_dec (hd 0%R ts') t then
               if Rle_dec t (last ts' 0%R) then Returned (fin (lagrange ts' vs t))
               else Raised ValueError
             else Raised ValueError)
  end.

(** Gaussian elimination on the rows [a_1 .. a_n | b] of an augmented
    matrix, in exact arithmetic: [None] when no pivot is found. *)
Fixpoint pick_pivot (rows : list (list R))
  : option (list R * list (list R)) :=
  match rows with
  | [] => None
  | r :: rs =>
      if Req_dec_T (hd 0%R r) 0 then
        match pick_pivot rs with
        | Some (p, rest) => Some (p, r :: rest)
        | None => None
        end
      else Some (r, rs)
  end.

Fixpoint dot (u v : list R) : R :=
  match u, v with
  | a :: u', b :: v' => (a * b + dot u' v')%R
  | _, _ => 0%R
  end.

Fixpoint gauss (n : nat) (rows : list (list R)) : option (list R) :=
  match n with
  | O => Some []
  | S n' =>
      match pick_pivot rows with
      | None => None
      | Some (p, rest) =>
          let p' := map (fun v => v / hd 0 p)%R (tl p) in
          let rest' :=
            map (fun r => map (fun rv => fst rv - hd 0 r * snd rv)%R
                              (combine (tl r) p')) rest in
          match gauss n' rest' with
          | None => None
          | Some xs => Some ((last p' 0 - dot (removelast p') xs)%R :: xs)
          end
      end
  end.

Fixpoint all_finite_rows (A : list (list float)) : option (list (list R)) :=
  match A with
  | [] => Some []
  | row :: A' =>
      match all_finite row, all_finite_rows A' with
      | Some r, Some rs => Some (r :: rs)
      | _, _ => None
      end
  end.

(** A dense solver in exact arithmetic.  As [scipy.linalg.solve] does, it
    raises [ValueError] on non-finite entries ([check_finite]) and on
    shapes that do not fit, and [LinAlgError] on a singular matrix. *)
Definition ref_linalg_solve (A : list (list float)) (b : list float)
  : outcome (list float) :=
  match all_finite_rows A, all_finite b with
  | Some A', Some b' =>
      if negb (Nat.eqb (length A') (length b')
               && forallb (fun r => Nat.eqb (length r) (length b')) A')
      then Raised ValueError
      else match gauss (length b')
                   (map (fun rb => fst rb ++ [snd rb]) (combine A' b')) with
           | Some xs => Returned (map fin xs)
           | None => Raised LinAlgError
           end
  | _, _ => Raised ValueError
  end.

(** ** [read_airfoil_dat] *)

Section ReadAirfoilDat.

(** Python's [str]: the characters, the tests [c.isalpha()] and
    [c.isspace()], and [float(s)], whose [ValueError] is [None]. *)
Variable char : Type.
Variable isalpha : char -> bool.
Variable isspace : char -> bool.
Variable float_of_str : list char -> option float.

(** [s.lstrip()] and [s.strip()]. *)
Fixpoint lstrip (s : list char) : list char :=
  match s with
  | c :: s' => if isspace c then lstrip s' else s
  | [] => []
  end.

Definition strip (s : list char) : list char :=
  rev (lstrip (rev (lstrip s))).

(** [s.split()]: the maximal runs of characters that are not white space;
    [word] holds the run being read, last character first. *)
Fixpoint split_from (word s : list char) : list (list char) :=
  match s with
  | [] => match word with [] => [] | _ => [rev word] end
  | c :: s' =>
      if isspace c then
        match word with
        | [] => split_from [] s'
        | _ => rev word :: split_from [] s'
        end
      else split_from (c :: word) s'
  end.

Definition split (s : list char) : list (list char) := split_from [] s.

(** Lines 24-31: one turn of the loop over the lines, on the lists [x] and
    [y].  [x.append] has run when [float(parts[1])] raises. *)
Definition read_line (xy : list float * list float) (line : list char)
  : list float * list float :=
  let line := strip line in
  match line with
  | [] => xy
  | _ =>
      if existsb isalpha line then xy
      else match split line with
           | p0 :: p1 :: _ =>
               match float_of_str p0 with
               | None => xy
               | Some a =>
                   match float_of_str p1 with
                   | None => (fst xy ++ [a], snd xy)
                   | Some b => (fst xy ++ [a], snd xy ++ [b])
                   end
               end
           | _ => xy
           end
  end.

(** [file] is what [readlines] returns, [None] when [open] or [readlines]
    raises (the outer [except] of line 33). *)
Definition read_airfoil_dat (file : option (list (list char)))
  : list float * list float :=
  match file with
  | Some lines => fold_left read_line lines ([], [])
  | None => ([], [])
  end.

(** A line that holds two coordinates: no letter, and two first fields
    that [float] reads as [a] and [b]. *)
Definition coordinate_line (line : list char) (a b : float) : Prop :=
  existsb isalpha (strip line) = false
  /\ exists (p0 p1 : list char) (rest : list (list char)),
       split (strip line) = p0 :: p1 :: rest
       /\ float_of_str p0 = Some a /\ float_of_str p1 = Some b.

(** A line without letter whose first field [float] reads as [a], and
    whose second field it refuses. *)
Definition abscissa_only_line (line : list char) (a : float) : Prop :=
  existsb isalpha (strip line) = false
  /\ exists (p0 p1 : list char) (rest : list (list char)),
       split (strip line) = p0 :: p1 :: rest
       /\ float_of_str p0 = Some a /\ float_of_str p1 = None.

End ReadAirfoilDat.

Arguments lstrip {char} isspace s.
Arguments strip {char} isspace s.
Arguments split_from {char} isspace word s.
Arguments split {char} isspace s.
Arguments read_line {char} isalpha isspace float_of_str xy line.
Arguments read_airfoil_dat {char} isalpha isspace float_of_str file.
Arguments coordinate_line {char} isalpha isspace float_of_str line a b.
Arguments abscissa_only_line {char} isalpha isspace float_of_str line a.

(** ** [load_xfoil_polar] *)

(** One row of the polar: the dictionary of lines 139-143. *)
Record PolarRow : Type := mkPolarRow {
  p_alpha : float; p_CL : float; p_CD : float; p_CM : float; p_LD : float
}.

Section LoadXfoilPolar.

Variable char : Type.
Variable isspace : char -> bool.

(** [c == '-'], and [float(s)] as above. *)
Variable is_hyphen : char -> bool.
Variable float_of_str : list char -> option float.

(** [pd.DataFrame(data).sort_values('alpha')], on the list of rows. *)
Variable sort_values : list PolarRow -> list PolarRow.

(** ["---" in line]. *)
Fixpoint contains_rule (s : list char) : bool :=
  match s with
  | a :: (b :: c :: _) as t =>
      (is_hyphen a && is_hyphen b && is_hyphen c) || contains_rule t
  | _ => false
  end.

(** Line 142: [CL / CD if CD != 0 else 0]. *)
Definition lift_to_drag (CL CD : float) : float :=
  match CD with
  | Some cd => if Req_dec_T cd 0 then fin 0 else (CL / CD)%fl
  | None => (CL / CD)%fl
  end.

(** Lines 137-144: the row of the fields [p], [None] when there are fewer
    than five fields or when [float] refuses the first, second, third or
    fifth of them. *)
Definition polar_row (p : list (list char)) : option PolarRow :=
  match p with
  | p0 :: p1 :: p2 :: _ :: p4 :: _ =>
      match float_of_str p0, float_of_str p1, float_of_str p2,
            float_of_str p4 with
      | Some a, Some CL, Some CD, Some CM =>
          Some {| p_alpha := a; p_CL := CL; p_CD := CD; p_CM := CM;
                  p_LD := lift_to_drag CL CD |}
      | _, _, _, _ => None
      end
  | _ => None
  end.

(** Lines 133-144: one turn of the loop, on the flag [parsing] and the
    list [data]. *)
Definition polar_line (st : bool * list PolarRow) (line : list char)
  : bool * list PolarRow :=
  if contains_rule line then (true, snd st)
  else if fst st then
    match strip isspace line with
    | [] => st
    | _ => match polar_row (split isspace line) with
           | Some r => (fst st, snd st ++ [r])
           | None => st
           end
    end
  else st.

(** [file] is what [readlines] returns, [None] when the file does not
    exist or cannot be read; the result [None] is Python's [None]. *)
Definition load_xfoil_polar (file : option (list (list char)))
  : option (list PolarRow) :=
  match file with
  | None => None
  | Some lines =>
      match snd (fold_left polar_line lines (false, [])) with
      | [] => None
      | data => Some (sort_values data)
      end
  end.

End LoadXfoilPolar.

Arguments contains_rule {char} is_hyphen s.
Arguments polar_row {char} float_of_str p.
Arguments polar_line {char} isspace is_hyphen float_of_str st line.
Arguments load_xfoil_polar {char} isspace is_hyphen float_of_str sort_values file.

(** An instance on ASCII text, used to run [read_airfoil_dat] on concrete
    lines: the letters and the white space of ASCII, and the numerals
    [d+], [d+.d+] with an optional minus sign ([float] accepts more;
    whatever else it accepts, this instance refuses). *)
Definition ascii_isalpha (c : ascii) : bool :=
  let n := nat_of_ascii c in
  ((65 <=? n) && (n <=? 90) || (97 <=? n) && (n <=? 122))%nat.

Definition ascii_isspace (c : ascii) : bool :=
  let n := nat_of_ascii c in
  ((n =? 32) || (9 <=? n) && (n <=? 13) || (28 <=? n) && (n <=? 31))%nat.

Definition digit_value (c : ascii) : option nat :=
  let n := nat_of_ascii c in
  if ((48 <=? n) && (n <=? 57))%nat then Some (n - 48)%nat else None.

Fixpoint digits_value (acc : nat) (s : list ascii) : option nat :=
  match s with
  | [] => Some acc
  | c :: s' =>
      match digit_value c with
      | Some d => digits_value (10 * acc + d) s'
      | None => None
      end
  end.

(** The characters before the first point, and those after it. *)
Fixpoint until_point (s : list ascii) : list ascii * option (list ascii) :=
  match s with
  | [] => ([], None)
  | c :: s' =>
      if Ascii.eqb c "." then ([], Some s')
      else (c :: fst (until_point s'), snd (until_point s'))
  end.

Definition unsigned_decimal (s : list ascii) : option R :=
  match until_point s with
  | ([], _) => None
  | (i, None) => option_map INR (digits_value 0 i)
  | (_, Some []) => None
  | (i, Some f) =>
      match digits_value 0 i, digits_value 0 f with
      | Some a, Some b => Some (INR a + INR b / 10 ^ length f)%R
      | _, _ => None
      end
  end.

Definition ascii_is_hyphen (c : ascii) : bool := Ascii.eqb c "-".

Definition ascii_float (s : list ascii) : option float :=
  match s with
  | "-"%char :: s' => option_map (fun r => fin (- r)) (unsigned_decimal s')
  | _ => option_map fin (unsigned_decimal s)
  end.

(** ** [AirfoilComparator]: what the plotting methods compute *)

(** Lines 264-265: the outline [xp], [yp] that is drawn over the field. *)
Definition outline (panels : list Panel) : outcome (list float * list float) :=
  px <- getlast panels ;;
  let xp := map x1 panels ++ [x2 px] in
  py <- getlast panels ;;
  let yp := map y1 panels ++ [y2 py] in
  Returned (xp, yp).

(** [self.loaded_geometries]: a dictionary from names to the coordinate
    arrays of [read_airfoil_dat], here with finite coordinates. *)
Definition geometries : Type := list (string * (list R * list R)).

Fixpoint geometry_get (g : geometries) (name : string)
  : option (list R * list R) :=
  match g with
  | [] => None
  | (k, xy) :: g' => if String.eqb name k then Some xy else geometry_get g' name
  end.

(** [axes_flat]: the eight axes of the 4 x 2 figure (lines 177-179 and
    250-252). *)
Definition axes_flat : list unit := repeat tt (4 * 2).

Section GeometryGrid.

(** [ax.fill(x, y, ...)] and [ax.plot(x, y, ...)] (lines 186-187):
    matplotlib draws, or raises. *)
Variable ax_fill : list R -> list R -> outcome unit.
Variable ax_plot : list R -> list R -> outcome unit.

(** Lines 182-187: the loop of [plot_geometry_comparison_grid], with the
    coordinates that are drawn on each axis.  An airfoil without geometry
    is passed over before its axis is looked up; for the others the axis is
    looked up first, then the outline is filled and drawn.  The calls that
    follow in the body (title, aspect, grid, ticks, lines 188-193) take no
    data of the airfoil. *)
Definition plot_geometry_comparison_grid (airfoils : list string)
    (loaded : geometries) : outcome (list (option (list R * list R))) :=
  mapM (fun iname =>
          match geometry_get loaded (snd iname) with
          | None => Returned None
          | Some xy =>
              _ <- getitem axes_flat (fst iname) ;;
              _ <- ax_fill (fst xy) (snd xy) ;;
              _ <- ax_plot (fst xy) (snd xy) ;;
              Returned (Some xy)
          end)
       (enumerate airfoils).

End GeometryGrid.

(** What matplotlib does with the two coordinate arrays of a line or of a
    polygon: it raises [ValueError] when their lengths differ, and draws
    otherwise. *)
Definition ref_draw (x y : list R) : outcome unit :=
  if Nat.eqb (length x) (length y) then Returned tt else Raised ValueError.

Section Comparator.

Variable interp1d : list float -> list R -> outcome (R -> outcome float).
Variable linalg_solve : list (list float) -> list float -> outcome (list float).

(** [self.solver.num_panels]; line 160 sets it to 160. *)
Variable num_panels : nat.

(** Lines 234-238, for one geometry: the abscissae and the ordinates of the
    curve that is plotted, [None] when nothing is plotted.  [solve_flow]
    runs with its default speed 1. *)
Definition cp_curve (x y : list R) (alpha : R)
  : outcome (option (list float * list float)) :=
  panels <- create_panels interp1d num_panels x y ;;
  res <- solve_flow linalg_solve panels alpha 1 ;;
  match res with
  | Some r =>
      Cp <- get_vec r "Cp" ;;
      Returned (Some (map xc panels, Cp))
  | None => Returned None
  end.

(** Lines 233-238: the loop of [plot_overlapped_cp]. *)
Definition plot_overlapped_cp (loaded : geometries) (alpha : R)
  : outcome (list (string * option (list float * list float))) :=
  mapM (fun g => c <- cp_curve (fst (snd g)) (snd (snd g)) alpha ;;
                 Returned (fst g, c))
       loaded.

(** Lines 259-265, for one geometry: the field and the outline. *)
Definition field_data (x y : list R) (alpha : R)
  : outcome (option (dict * (list float * list float))) :=
  panels <- create_panels interp1d num_panels x y ;;
  res <- solve_flow linalg_solve panels alpha 1 ;;
  match res with
  | Some r =>
      ff <- compute_flow_field r alpha 60 ;;
      xyp <- outline panels ;;
      Returned (Some (ff, xyp))
  | None => Returned None
  end.

(** Lines 255-265: the loop of [plot_field_grid]. *)
Definition plot_field_grid (airfoils : list string) (loaded : geometries)
    (alpha : R)
  : outcome (list (option (dict * (list float * list float)))) :=
  mapM (fun iname =>
          match geometry_get loaded (snd iname) with
          | None => Returned None
          | Some xy =>
              _ <- getitem axes_flat (fst iname) ;;
              field_data (fst xy) (snd xy) alpha
          end)
       (enumerate airfoils).

End Comparator.

(** ** Definitions used to state the properties *)

Local Open Scope R_scope.

(** *** The influence matrix *)

(** The value the double loop assigns to [A[i, j]]; [ip] and [jp] are the
    pairs [(i, p_i)] and [(j, p_j)] of [enumerate(panels)]. *)
Definition entry (ip jp : nat * Panel) : float :=
  if Nat.eqb (fst ip) (fst jp) then fin 0.5
  else influence (snd ip) (snd jp).

(** The closed form of C2 on doubles, following the words of the claim:
    logarithm and arctangent terms in the local frame of panel [j], at the
    point [(x, y)]. *)
Definition source_integral (p_j : Panel) (x y : float) : float :=
  let X := ((x - x1 p_j) * fcos (theta p_j) + (y - y1 p_j) * fsin (theta p_j))%fl in
  let Y := (- (x - x1 p_j) * fsin (theta p_j) + (y - y1 p_j) * fcos (theta p_j))%fl in
  (((X - plength p_j) * flog (fsq (X - plength p_j) + fsq Y + fin 1e-12)
    - X * flog (fsq X + fsq Y + fin 1e-12)
    + fin 2 * Y * (farctan2 Y (X - plength p_j) - farctan2 Y X))
   / (fin 4 * fin PI))%fl.

(** The same closed form in real numbers: panel [j] is given by its first
    endpoint [(xa, ya)], its inclination [th] and its length [L]. *)
Definition source_integral_R (xa ya th L x y : R) : R :=
  let X := (x - xa) * cos th + (y - ya) * sin th in
  let Y := - (x - xa) * sin th + (y - ya) * cos th in
  ((X - L) * ln ((X - L) * (X - L) + Y * Y + 1e-12)
   - X * ln (X * X + Y * Y + 1e-12)
   + 2 * Y * (arctan2 Y (X - L) - arctan2 Y X)) / (4 * PI).

(** C2 in symbols, for the projection: some kernel [K], a vector that
    depends on panel [j] and on the midpoint of panel [i], has [A[i][j]] as
    its component along the normal [(cos beta_i, sin beta_i)] of panel
    [i]. *)
Definition normal_projection_claim : Prop :=
  exists K : Panel -> float -> float -> R * R,
    forall (panels : list Panel) (i j : nat) (p_i p_j : Panel) (b : R),
      nth_error panels i = Some p_i -> nth_error panels j = Some p_j ->
      i <> j -> beta p_i = Some b ->
      mat_get (assemble_A panels) i j
      = Some (fin (fst (K p_j (xc p_i) (yc p_i)) * cos b
                   + snd (K p_j (xc p_i) (yc p_i)) * sin b)).

(** *** Surface velocity and pressure *)

(** Line 88: the freestream component along panel [p]. *)
Definition vt_inf (alpha V_inf : float) (p : Panel) : float :=
  (V_inf * (fcos alpha * - fsin (beta p) + fsin alpha * fcos (beta p)))%fl.

(** Lines 89 and 90, for the strength [s] of panel [p]. *)
Definition V_t_of (alpha V_inf : float) (p : Panel) (s : float) : float :=
  (vt_inf alpha V_inf p + s / fin 2)%fl.

Definition Cp_of (alpha V_inf : float) (p : Panel) (s : float) : float :=
  (fin 1 - fsq (V_t_of alpha V_inf p s / V_inf))%fl.

(** *** The velocity field *)

(** Lines 103-104: the freestream of [compute_flow_field]. *)
Definition freestream (alpha : float) : float * float :=
  (fin 1 * fcos alpha, fin 1 * fsin alpha)%fl.

(** The velocity at the point [(x, y)]: [init] plus what the panels [kps]
    (pairs of an index and a panel) induce, panel [k] with the strength
    [sigma[k]]. *)
Definition velocity_at (sigma : list float) (init : float * float)
    (kps : list (nat * Panel)) (x y : float) : float * float :=
  fold_left
    (fun uv kp =>
       let w := induced (snd kp) (nth (fst kp) sigma None) x y in
       (fst uv + fst w, snd uv + snd w)%fl)
    kps init.

(** [induced] in real numbers, for a panel given by [(xa, ya)], [th] and
    [L], with strength [s]. *)
Definition induced_R (xa ya th L s x y : R) : R * R :=
  let X := (x - xa) * cos th + (y - ya) * sin th in
  let Y := - (x - xa) * sin th + (y - ya) * cos th in
  let J := 0.5 * ln (((X - L) * (X - L) + Y * Y + 1e-10)
                     / (X * X + Y * Y + 1e-10)) in
  let I := arctan2 Y (X - L) - arctan2 Y X in
  ((J * cos th - I * sin th) * s / (2 * PI),
   (J * sin th + I * cos th) * s / (2 * PI)).

(** Line 110: the two squared distances [(r1_sq, r2_sq)] of the point
    [(x, y)] to the ends of the panel [p], as [induced] computes them. *)
Definition squared_distances (p : Panel) (x y : float) : float * float :=
  let dx := (x - x1 p)%fl in
  let dy := (y - y1 p)%fl in
  let X_loc := (dx * fcos (theta p) + dy * fsin (theta p))%fl in
  let Y_loc := (- dx * fsin (theta p) + dy * fcos (theta p))%fl in
  ((fsq X_loc + fsq Y_loc)%fl, (fsq (X_loc - plength p) + fsq Y_loc)%fl).

(** Line 112: the argument of [np.log]. *)
Definition log_argument (p : Panel) (x y : float) : float :=
  let r1_sq := fst (squared_distances p x y) in
  let r2_sq := snd (squared_distances p x y) in
  ((r2_sq + fin 1e-10) / (r1_sq + fin 1e-10))%fl.

(** Lines 99-101: the grid of [compute_flow_field]. *)
Definition grid_X (res : nat) : list (list float) :=
  grid_map fin (fst (meshgrid (linspace (-0.5) 1.5 res) (linspace (-0.6) 0.6 res))).

Definition grid_Y (res : nat) : list (list float) :=
  grid_map fin (snd (meshgrid (linspace (-0.5) 1.5 res) (linspace (-0.6) 0.6 res))).

(** Every number of a panel, of a grid, is finite. *)
Definition panel_finite (p : Panel) : bool :=
  isfinite (x1 p) && isfinite (y1 p) && isfinite (x2 p) && isfinite (y2 p)
  && isfinite (xc p) && isfinite (yc p)
  && isfinite (plength p) && isfinite (theta p) && isfinite (beta p).


(** *** The range of doubles *)





(** C7 in symbols, for the pressure: the returned [Cp] is
    [1 - (V_mag / V_inf)^2] for the speed [V_inf] the state was solved
    with. *)
Definition field_Cp_claim : Prop :=
  forall (linalg_solve : list (list float) -> list float -> outcome (list float))
         (panels : list Panel) (alpha_deg V_inf : R) (res : nat)
         (state out : dict) (Vm Cp : list (list float)),
    solve_flow linalg_solve panels alpha_deg V_inf = Returned (Some state) ->
    compute_flow_field state alpha_deg res = Returned out ->
    dict_get out "V_mag" = Some (VMat Vm) ->
    dict_get out "Cp" = Some (VMat Cp) ->
    Cp = grid_map (fun m => fin 1 - fsq (m / fin V_inf))%fl Vm.

(** *** Resampling *)

(** What the specification asks of the interpolant: it takes the data
    values at the data parameters. *)
Definition value_preserving
    (interp1d : list float -> list R -> outcome (R -> outcome float)) : Prop :=
  forall (ts : list float) (vs : list R) (f : R -> outcome float),
    interp1d ts vs = Returned f ->
    forall (i : nat) (t v : R),
      nth_error ts i = Some (Some t) -> nth_error vs i = Some v ->
      f t = Returned (fin v).

(** The exceptions of Python, numpy and scipy, as opposed to the error
    types of the specification. *)
Definition library_exn (e : exn) : bool :=
  match e with
  | IndexError | KeyError | TypeError | ValueError | LinAlgError => true
  | _ => false
  end.

(** The interpolant is library code: building it or calling it raises
    library exceptions only. *)
Definition raises_library_only
    (interp1d : list float -> list R -> outcome (R -> outcome float)) : Prop :=
  (forall ts vs e, interp1d ts vs = Raised e -> library_exn e = true)
  /\ (forall ts vs f t e,
         interp1d ts vs = Returned f -> f t = Raised e -> library_exn e = true).

(** Line 41: the cumulative chord lengths [t_original], before the
    division of line 42, for [x] and [y] of one length. *)
Definition chord_lengths (x y : list R) : list R :=
  0 :: cumsum (map sqrt (map (fun ab => fst ab + snd ab)
                             (combine (map (fun d => d * d) (diff x))
                                      (map (fun d => d * d) (diff y))))).

(** *** Concrete inputs *)

(** A panel along the x axis, from (0, 0) to (1, 0). *)
Definition panel_flat : Panel :=
  {| x1 := fin 0; y1 := fin 0; x2 := fin 1; y2 := fin 0;
     xc := fin 0.5; yc := fin 0;
     plength := fin 1; theta := fin 0; beta := fin (PI / 2) |}.

(** Two panels with the midpoint (2, 0), on the axis of [panel_flat]:
    from (2, -1) up to (2, 1), and the same segment run downwards, with
    the opposite normal. *)
Definition panel_up : Panel :=
  {| x1 := fin 2; y1 := fin (-1); x2 := fin 2; y2 := fin 1;
     xc := fin 2; yc := fin 0;
     plength := fin 2; theta := fin (PI / 2); beta := fin PI |}.

Definition panel_down : Panel :=
  {| x1 := fin 2; y1 := fin 1; x2 := fin 2; y2 := fin (-1);
     xc := fin 2; yc := fin 0;
     plength := fin 2; theta := fin (- (PI / 2)); beta := fin 0 |}.

(** The entry that [panel_flat] contributes at the point (2, 0). *)
Definition flat_from_ahead : R :=
  (ln (1 + 1e-12) - 2 * ln (4 + 1e-12)) / (4 * PI).

(** Degenerate geometry: a panel of length zero at (3, 0). *)
Definition panel_point : Panel :=
  {| x1 := fin 3; y1 := fin 0; x2 := fin 3; y2 := fin 0;
     xc := fin 3; yc := fin 0;
     plength := fin 0; theta := fin 0; beta := fin (PI / 2) |}.

(** The state [solve_flow] returns for the single panel [panel_flat] at zero
    angle of attack, whatever the freestream speed. *)
Definition flat_state : dict :=
  [("sigma", VVec [fin 0]); ("Cp", VVec [fin 0]);
   ("panels", VPanels [panel_flat])]%string.

(** The field [compute_flow_field] returns for [flat_state] at zero angle
    with [res = 1]. *)
Definition flat_field : dict :=
  [("X", VMat [[fin (-0.5)]]); ("Y", VMat [[fin (-0.6)]]);
   ("U", VMat [[fin 1]]); ("V", VMat [[fin 0]]);
   ("V_mag", VMat [[fin 1]]); ("Cp", VMat [[fin 0]])]%string.

(** A panel whose midpoint is the grid point of [res = 1], and a state
    that holds it. *)
Definition panel_on_grid : Panel :=
  {| x1 := fin (-1); y1 := fin (-0.6); x2 := fin 0; y2 := fin (-0.6);
     xc := fin (-0.5); yc := fin (-0.6);
     plength := fin 1; theta := fin 0; beta := fin (PI / 2) |}.

Definition grid_state : dict :=
  [("sigma", VVec [fin 1]); ("Cp", VVec [fin 0]);
   ("panels", VPanels [panel_on_grid])]%string.




(** A right triangle with sides 3, 4 and 5, given open: [create_panels]
    appends the closing point.  [tri_ts] are its arc-length parameters. *)
Definition tri_x : list R := [4; 4; 0].
Definition tri_y : list R := [0; 3; 0].
Definition tri_ts : list R := [0; 1 / 4; 2 / 3; 1].

(** The same triangle given closed, with the last abscissa off by 1e-5:
    within the tolerance of [np.isclose], so that nothing is appended. *)
Definition near_x : list R := [4; 4; 0; 4.00001].
Definition near_y : list R := [0; 3; 0; 0].
Definition near_ts : list R := [0; 3 / 12.00001; 8 / 12.00001; 1].

(** The point that the reference interpolant gives for [near_x], [near_y]
    at the parameter 0.5. *)
Definition near_mid_x : R := lagrange near_ts near_x 0.5.
Definition near_mid_y : R := lagrange near_ts near_y 0.5.

(** The panel [create_panels] builds between the two ends of the closed
    triangle. *)
Definition panel_te : Panel :=
  {| x1 := fin 4; y1 := fin 0; x2 := fin 4; y2 := fin 0;
     xc := fin 4; yc := fin 0;
     plength := fin 0; theta := fin 0; beta := fin (PI / 2) |}.

(** * Properties *)

(** Reduction of the arithmetic on doubles whose arguments are finite. *)
Ltac float_cbn :=
  cbn [fadd fsub fmul fneg fsq fcos fsin farctan2 lift1 lift2 fin fst snd].

(** ** Arrays and the loops that fill them *)

Lemma enumerate_length {A : Type} (l : list A) :
  length (enumerate l) = length l.
Proof.
  unfold enumerate. rewrite length_combine, length_seq. apply Nat.min_id.
Qed.

Lemma nth_error_combine_seq {A : Type} (l : list A) (k i : nat) :
  nth_error (combine (seq k (length l)) l) i =
  match nth_error l i with Some a => Some (k + i, a)%nat | None => None end.
Proof.
  revert k i. induction l as [|a l IH]; intros k [|i]; simpl; auto.
  - now rewrite Nat.add_0_r.
  - rewrite IH. destruct (nth_error l i); auto. now rewrite Nat.add_succ_r.
Qed.

Lemma nth_error_enumerate {A : Type} (l : list A) (i : nat) :
  nth_error (enumerate l) i =
  match nth_error l i with Some a => Some (i, a) | None => None end.
Proof. unfold enumerate. now rewrite nth_error_combine_seq. Qed.

Lemma set_nth_length {A : Type} (l : list A) (i : nat) (a : A) :
  length (set_nth l i a) = length l.
Proof.
  revert i. induction l as [|b l IH]; intros [|i]; simpl; auto.
Qed.

Lemma set_nth_app {A : Type} (done : list A) (r : A) (rest : list A) (a : A) :
  set_nth (done ++ r :: rest) (length done) a = done ++ a :: rest.
Proof. induction done as [|d done IH]; simpl; auto. now rewrite IH. Qed.

Lemma set_nth_twice {A : Type} (l : list A) (i : nat) (a b : A) :
  set_nth (set_nth l i a) i b = set_nth l i b.
Proof.
  revert i. induction l as [|c l IH]; intros [|i]; simpl; auto.
  now rewrite IH.
Qed.

Lemma nth_set_nth {A : Type} (l : list A) (i : nat) (a d : A) :
  (i < length l)%nat -> nth i (set_nth l i a) d = a.
Proof.
  revert i. induction l as [|c l IH]; intros [|i] H; simpl in *; try lia; auto.
  apply IH. lia.
Qed.

Lemma set_nth_nth {A : Type} (l : list A) (i : nat) (d : A) :
  (i < length l)%nat -> set_nth l i (nth i l d) = l.
Proof.
  revert i. induction l as [|c l IH]; intros [|i] H; simpl in *; try lia; auto.
  rewrite IH; auto. lia.
Qed.

(** A loop [for i, a in enumerate(l): v[i] = f(i, a)] over an array of the
    length of [l] leaves [v[i] = f(i, l[i])] everywhere. *)
Lemma fill_loop_from {A B : Type} (f : nat * A -> B) (l : list A) :
  forall (k : nat) (done rest : list B),
    length done = k -> length rest = length l ->
    fold_left (fun v ia => set_nth v (fst ia) (f ia))
              (combine (seq k (length l)) l) (done ++ rest)
    = done ++ map f (combine (seq k (length l)) l).
Proof.
  induction l as [|a l IH]; intros k done rest Hd Hr; simpl in *.
  - destruct rest; [reflexivity | discriminate].
  - destruct rest as [|r rest]; [discriminate|]. subst k.
    rewrite set_nth_app.
    change (done ++ f (length done, a) :: rest)
      with (done ++ [f (length done, a)] ++ rest).
    rewrite app_assoc, IH.
    + now rewrite <- app_assoc.
    + rewrite length_app. simpl. lia.
    + now injection Hr.
Qed.

Lemma fill_loop {A B : Type} (f : nat * A -> B) (l : list A) (v : list B) :
  length v = length l ->
  fold_left (fun v ia => set_nth v (fst ia) (f ia)) (enumerate l) v
  = map f (enumerate l).
Proof. intro H. exact (fill_loop_from f l 0 [] v eq_refl H). Qed.

Lemma fold_left_ext {A B : Type} (f g : A -> B -> A) (l : list B) (a : A) :
  (forall s b, f s b = g s b) -> fold_left f l a = fold_left g l a.
Proof.
  intro H. revert a. induction l as [|b l IH]; intro a; simpl; auto.
  now rewrite H, IH.
Qed.

(** The loop over [j] for a fixed row [i] is a loop on that row. *)
Lemma row_loop (g : nat * Panel -> float) (i : nat) (js : list (nat * Panel)) :
  forall M : list (list float),
    (i < length M)%nat ->
    fold_left (fun M jp => mat_set M i (fst jp) (g jp)) js M
    = set_nth M i
        (fold_left (fun row jp => set_nth row (fst jp) (g jp)) js (nth i M [])).
Proof.
  induction js as [|jp js IH]; intros M Hi; simpl.
  - now rewrite set_nth_nth.
  - rewrite IH by (unfold mat_set; now rewrite set_nth_length).
    unfold mat_set. rewrite set_nth_twice, nth_set_nth by assumption.
    reflexivity.
Qed.

Lemma inner_loop (panels : list Panel) (i : nat) (p_i : Panel)
    (M : list (list float)) :
  (i < length M)%nat -> length (nth i M []) = length panels ->
  fold_left
    (fun A jp =>
       if Nat.eqb i (fst jp)
       then mat_set A i (fst jp) (fin 0.5)
       else mat_set A i (fst jp) (influence p_i (snd jp)))
    (enumerate panels) M
  = set_nth M i (map (entry (i, p_i)) (enumerate panels)).
Proof.
  intros Hi Hrow.
  rewrite (fold_left_ext _
             (fun M jp => mat_set M i (fst jp) (entry (i, p_i) jp))).
  - rewrite row_loop by assumption. now rewrite fill_loop.
  - intros A jp. unfold entry. cbn [fst snd].
    destruct (Nat.eqb i (fst jp)); reflexivity.
Qed.

Lemma rows_loop_from (panels : list Panel) (l : list Panel) :
  forall (k : nat) (done rest : list (list float)),
    length done = k -> length rest = length l ->
    Forall (fun r => length r = length panels) rest ->
    fold_left
      (fun A ip =>
         fold_left
           (fun A jp =>
              if Nat.eqb (fst ip) (fst jp)
              then mat_set A (fst ip) (fst jp) (fin 0.5)
              else mat_set A (fst ip) (fst jp) (influence (snd ip) (snd jp)))
           (enumerate panels) A)
      (combine (seq k (length l)) l) (done ++ rest)
    = done ++ map (fun ip => map (entry ip) (enumerate panels))
                  (combine (seq k (length l)) l).
Proof.
  induction l as [|a l IH]; intros k done rest Hd Hr Hrows; simpl in *.
  - destruct rest; [reflexivity | discriminate].
  - destruct rest as [|r rest]; [discriminate|]. subst k.
    inversion Hrows as [|? ? Hlen Hrest]; subst.
    rewrite inner_loop.
    + rewrite set_nth_app.
      change (done ++ ?x :: rest) with (done ++ [x] ++ rest).
      rewrite app_assoc, IH.
      * now rewrite <- app_assoc.
      * rewrite length_app. simpl. lia.
      * now injection Hr.
      * assumption.
    + rewrite length_app. simpl. lia.
    + now rewrite nth_middle.
Qed.

Lemma assemble_A_entries (panels : list Panel) :
  assemble_A panels
  = map (fun ip => map (entry ip) (enumerate panels)) (enumerate panels).
Proof.
  unfold assemble_A.
  apply (rows_loop_from panels panels 0 [] (zeros2 (length panels) (length panels))).
  - reflexivity.
  - unfold zeros2. now rewrite repeat_length.
  - unfold zeros2, zeros. apply Forall_forall. intros r Hr.
    apply repeat_spec in Hr. subst r. now rewrite repeat_length.
Qed.

Lemma mat_get_assemble_A (panels : list Panel) (i j : nat) (p_i p_j : Panel) :
  nth_error panels i = Some p_i -> nth_error panels j = Some p_j ->
  mat_get (assemble_A panels) i j = Some (entry (i, p_i) (j, p_j)).
Proof.
  intros Hi Hj. rewrite assemble_A_entries. unfold mat_get.
  rewrite nth_error_map, nth_error_enumerate, Hi. simpl.
  now rewrite nth_error_map, nth_error_enumerate, Hj.
Qed.

(** ** Arithmetic on finite doubles *)

Lemma flog_pos (x : R) : 0 < x -> flog (Some x) = Some (ln x).
Proof. intro H. unfold flog. destruct (Rlt_dec 0 x); [reflexivity | contradiction]. Qed.

Lemma fdiv_nonzero (x y : R) : y <> 0 -> fdiv (Some x) (Some y) = Some (x / y).
Proof. intro H. unfold fdiv. destruct (Req_dec_T y 0); [contradiction | reflexivity]. Qed.

Lemma fdiv_zero (x : R) : fdiv (Some x) (Some 0) = None.
Proof. unfold fdiv. destruct (Req_dec_T 0 0); [reflexivity | contradiction]. Qed.

Lemma sq_eps_pos (a b e : R) : 0 < e -> 0 < a * a + b * b + e.
Proof. intro H. nra. Qed.

Lemma four_pi_nonzero : 4 * PI <> 0.
Proof. pose proof PI_RGT_0. lra. Qed.

(** ** The influence coefficient *)

Lemma source_integral_finite (p_j : Panel) (xa ya th L x y : R) :
  x1 p_j = Some xa -> y1 p_j = Some ya -> theta p_j = Some th ->
  plength p_j = Some L ->
  source_integral p_j (Some x) (Some y) = Some (source_integral_R xa ya th L x y).
Proof.
  intros Hx Hy Ht HL. unfold source_integral, source_integral_R.
  rewrite Hx, Hy, Ht, HL. float_cbn.
  rewrite !flog_pos by (apply sq_eps_pos; lra).
  float_cbn.
  rewrite fdiv_nonzero by apply four_pi_nonzero.
  reflexivity.
Qed.

Lemma influence_source_integral (p_i p_j : Panel) :
  influence p_i p_j = (source_integral p_j (xc p_i) (yc p_i) / plength p_j)%fl.
Proof. reflexivity. Qed.

Lemma arctan2_0_pos (x : R) : 0 < x -> arctan2 0 x = 0.
Proof.
  intro H. unfold arctan2. destruct (Rlt_dec 0 x); [|contradiction].
  unfold Rdiv. rewrite Rmult_0_l. apply atan_0.
Qed.

Lemma source_integral_R_ahead :
  source_integral_R 0 0 0 1 2 0 = flat_from_ahead.
Proof.
  unfold source_integral_R, flat_from_ahead. rewrite cos_0, sin_0.
  replace ((2 - 0) * 1 + (0 - 0) * 0) with 2 by lra.
  replace (- (2 - 0) * 0 + (0 - 0) * 1) with 0 by lra.
  replace (2 - 1) with 1 by lra.
  rewrite !arctan2_0_pos by lra.
  f_equal. replace (1 * 1 + 0 * 0 + 1e-12) with (1 + 1e-12) by lra.
  replace (2 * 2 + 0 * 0 + 1e-12) with (4 + 1e-12) by lra. lra.
Qed.

Lemma flat_from_ahead_neg : flat_from_ahead < 0.
Proof.
  unfold flat_from_ahead.
  assert (H1 : ln (1 + 1e-12) < ln (4 + 1e-12)) by (apply ln_increasing; lra).
  assert (H2 : 0 < ln (4 + 1e-12)).
  { rewrite <- ln_1. apply ln_increasing; lra. }
  assert (H3 : 0 < / (4 * PI)).
  { apply Rinv_0_lt_compat. pose proof PI_RGT_0. lra. }
  unfold Rdiv. nra.
Qed.

Lemma entry_up :
  mat_get (assemble_A [panel_up; panel_flat]) 0 1 = Some (fin flat_from_ahead).
Proof.
  rewrite (mat_get_assemble_A [panel_up; panel_flat] 0 1 panel_up panel_flat eq_refl eq_refl).
  unfold entry. cbn [fst snd Nat.eqb]. rewrite influence_source_integral.
  cbn [xc yc panel_up]. unfold fin.
  rewrite (source_integral_finite panel_flat 0 0 0 1 2 0) by reflexivity.
  cbn [plength panel_flat]. unfold fin. rewrite fdiv_nonzero by lra.
  rewrite source_integral_R_ahead. do 2 f_equal. lra.
Qed.

Lemma entry_down :
  mat_get (assemble_A [panel_down; panel_flat]) 0 1 = Some (fin flat_from_ahead).
Proof.
  rewrite (mat_get_assemble_A [panel_down; panel_flat] 0 1 panel_down panel_flat eq_refl eq_refl).
  unfold entry. cbn [fst snd Nat.eqb]. rewrite influence_source_integral.
  cbn [xc yc panel_down]. unfold fin.
  rewrite (source_integral_finite panel_flat 0 0 0 1 2 0) by reflexivity.
  cbn [plength panel_flat]. unfold fin. rewrite fdiv_nonzero by lra.
  rewrite source_integral_R_ahead. do 2 f_equal. lra.
Qed.

Lemma not_a_normal_projection : ~ normal_projection_claim.
Proof.
  intros [K HK].
  pose proof (HK [panel_up; panel_flat] 0%nat 1%nat panel_up panel_flat PI
                 eq_refl eq_refl ltac:(lia) eq_refl) as Hup.
  pose proof (HK [panel_down; panel_flat] 0%nat 1%nat panel_down panel_flat 0
                 eq_refl eq_refl ltac:(lia) eq_refl) as Hdown.
  rewrite entry_up in Hup. rewrite entry_down in Hdown.
  cbn [xc yc panel_up panel_down] in Hup, Hdown.
  rewrite cos_PI, sin_PI in Hup. rewrite cos_0, sin_0 in Hdown.
  injection Hup as Hup. injection Hdown as Hdown.
  pose proof flat_from_ahead_neg. lra.
Qed.

(** ** The right-hand side and the surface loop of [solve_flow] *)

Lemma rhs_entries (panels : list Panel) (alpha V_inf : float) :
  rhs panels alpha V_inf
  = map (fun ip => - V_inf * (fcos alpha * fcos (beta (snd ip))
                              + fsin alpha * fsin (beta (snd ip))))%fl
        (enumerate panels).
Proof.
  unfold rhs. apply fill_loop. unfold zeros. now rewrite repeat_length.
Qed.

Lemma getitem_app_middle {A : Type} (done : list A) (a : A) (rest : list A) :
  getitem (done ++ a :: rest) (length done) = Returned a.
Proof.
  unfold getitem. rewrite nth_error_app2 by lia.
  now rewrite Nat.sub_diag.
Qed.

Lemma surface_from (sigma : list float) (alpha V_inf : float) (l : list Panel) :
  forall (k : nat) (doneV doneC restV restC : list float),
    length doneV = k -> length doneC = k ->
    length restV = length l -> length restC = length l ->
    (k + length l <= length sigma)%nat ->
    foldM (surface_step sigma alpha V_inf) (combine (seq k (length l)) l)
          (doneV ++ restV, doneC ++ restC)
    = Returned
        (doneV ++ map (fun ip => V_t_of alpha V_inf (snd ip) (nth (fst ip) sigma None))
                      (combine (seq k (length l)) l),
         doneC ++ map (fun ip => Cp_of alpha V_inf (snd ip) (nth (fst ip) sigma None))
                      (combine (seq k (length l)) l)).
Proof.
  induction l as [|p l IH]; intros k doneV doneC restV restC HV HC HrV HrC Hs;
    simpl in *.
  - destruct restV, restC; try discriminate. reflexivity.
  - destruct restV as [|rv restV], restC as [|rc restC]; try discriminate.
    unfold getitem at 1.
    destruct (nth_error sigma k) as [s|] eqn:Es.
    2:{ apply nth_error_None in Es. lia. }
    rewrite (nth_error_nth sigma k None Es).
    cbn [bind]. subst k. rewrite set_nth_app, getitem_app_middle. cbn [bind].
    rewrite <- HC at 2. rewrite set_nth_app.
    change (doneV ++ ?x :: restV) with (doneV ++ [x] ++ restV).
    change (doneC ++ ?x :: restC) with (doneC ++ [x] ++ restC).
    rewrite !app_assoc, IH.
    + unfold V_t_of, Cp_of, V_t_of, vt_inf. rewrite <- !app_assoc. reflexivity.
    + rewrite length_app. simpl. lia.
    + rewrite length_app. simpl. lia.
    + now injection HrV.
    + now injection HrC.
    + lia.
Qed.

Lemma surface_returns (panels : list Panel) (sigma : list float)
    (alpha V_inf : float) :
  (length panels <= length sigma)%nat ->
  surface panels sigma alpha V_inf
  = Returned
      (map (fun ip => V_t_of alpha V_inf (snd ip) (nth (fst ip) sigma None))
           (enumerate panels),
       map (fun ip => Cp_of alpha V_inf (snd ip) (nth (fst ip) sigma None))
           (enumerate panels)).
Proof.
  intro H. unfold surface.
  apply (surface_from sigma alpha V_inf panels 0 [] []
           (zeros (length panels)) (zeros (length panels)));
    try reflexivity; unfold zeros; try apply repeat_length. simpl. lia.
Qed.

Lemma surface_raises (panels : list Panel) (sigma : list float)
    (alpha V_inf : float) (e : exn) :
  surface panels sigma alpha V_inf = Raised e -> e = IndexError.
Proof.
  unfold surface. generalize (zeros (length panels), zeros (length panels)).
  generalize (enumerate panels) as l.
  induction l as [|[i p] l IH]; intros [V C] H; simpl in H; [discriminate|].
  unfold getitem in H at 1.
  destruct (nth_error sigma i); cbn [bind] in H; [|now injection H].
  unfold getitem in H at 1.
  destruct (nth_error _ i); cbn [bind] in H; [|now injection H].
  now apply IH in H.
Qed.

Section SolveFlow.
Variable linalg_solve : list (list float) -> list float -> outcome (list float).

(** The system handed to the solver is [assemble_A panels] and
    [rhs panels alpha V_inf]. *)
Lemma solve_flow_system (panels : list Panel) (alpha_deg V_inf : R) :
  solve_flow linalg_solve panels alpha_deg V_inf
  = match linalg_solve (assemble_A panels)
            (rhs panels (fin (radians alpha_deg)) (fin V_inf)) with
    | Raised _ => Returned None
    | Returned sigma =>
        st <- surface panels sigma (fin (radians alpha_deg)) (fin V_inf) ;;
        Returned (Some [("sigma", VVec sigma); ("Cp", VVec (snd st));
                        ("panels", VPanels panels)]%string)
    end.
Proof. reflexivity. Qed.

Lemma solve_flow_solver_raises (panels : list Panel) (alpha_deg V_inf : R) (e : exn) :
  linalg_solve (assemble_A panels) (rhs panels (fin (radians alpha_deg)) (fin V_inf))
  = Raised e ->
  solve_flow linalg_solve panels alpha_deg V_inf = Returned None.
Proof. intro H. unfold solve_flow. now rewrite H. Qed.

Lemma solve_flow_raises (panels : list Panel) (alpha_deg V_inf : R) (e : exn) :
  solve_flow linalg_solve panels alpha_deg V_inf = Raised e -> e = IndexError.
Proof.
  unfold solve_flow. destruct (linalg_solve _ _) as [sigma|e']; [|discriminate].
  destruct (surface _ _ _ _) as [st|e'] eqn:E; cbn [bind]; [discriminate|].
  intro H. injection H as <-. eapply surface_raises; eauto.
Qed.

Lemma solve_flow_returns (panels : list Panel) (alpha_deg V_inf : R)
    (sigma : list float) :
  linalg_solve (assemble_A panels) (rhs panels (fin (radians alpha_deg)) (fin V_inf))
  = Returned sigma ->
  (length panels <= length sigma)%nat ->
  solve_flow linalg_solve panels alpha_deg V_inf
  = Returned (Some [("sigma", VVec sigma);
                    ("Cp", VVec (map (fun ip => Cp_of (fin (radians alpha_deg)) (fin V_inf)
                                                  (snd ip) (nth (fst ip) sigma None))
                                     (enumerate panels)));
                    ("panels", VPanels panels)]%string).
Proof.
  intros H Hlen. unfold solve_flow. rewrite H, surface_returns by assumption.
  reflexivity.
Qed.
End SolveFlow.

(** ** The velocity induced by one panel *)

Lemma two_pi_nonzero : 2 * PI <> 0.
Proof. pose proof PI_RGT_0. lra. Qed.

Lemma ratio_pos (a b c d e : R) :
  0 < e -> 0 < (a * a + b * b + e) / (c * c + d * d + e).
Proof.
  intro H. apply Rdiv_lt_0_compat; apply sq_eps_pos; assumption.
Qed.

Lemma induced_finite (p : Panel) (xa ya th L s x y : R) :
  x1 p = Some xa -> y1 p = Some ya -> theta p = Some th -> plength p = Some L ->
  induced p (Some s) (Some x) (Some y)
  = (Some (fst (induced_R xa ya th L s x y)), Some (snd (induced_R xa ya th L s x y))).
Proof.
  intros Hx Hy Ht HL. unfold induced, induced_R. rewrite Hx, Hy, Ht, HL.
  float_cbn. unfold fin.
  float_cbn.
  rewrite fdiv_nonzero by (pose proof (sq_eps_pos ((x - xa) * cos th + (y - ya) * sin th) (- (x - xa) * sin th + (y - ya) * cos th) 1e-10); lra).
  rewrite flog_pos by (apply ratio_pos; lra).
  float_cbn.
  rewrite !fdiv_nonzero by apply two_pi_nonzero.
  reflexivity.
Qed.

(** ** Two-dimensional arrays and the loop of [compute_flow_field] *)
Lemma combine_map_same {A B C : Type} (f : A -> B) (g : A -> C) (l : list A) :
  combine (map f l) (map g l) = map (fun a => (f a, g a)) l.
Proof. induction l as [|a l IH]; simpl; auto. now rewrite IH. Qed.

Lemma grid_zip_ext {A B C : Type} (f g : A -> B -> C) (G : list (list A)) (H : list (list B)) :
  (forall a b, f a b = g a b) -> grid_zip f G H = grid_zip g G H.
Proof.
  intro E. unfold grid_zip. apply map_ext. intros [r1 r2]. apply map_ext.
  intros [a b]. apply E.
Qed.

Lemma grid_zip_zip {A B : Type} (h : float -> float -> float)
    (f g : A -> B -> float) (G : list (list A)) (H : list (list B)) :
  grid_zip h (grid_zip f G H) (grid_zip g G H)
  = grid_zip (fun a b => h (f a b) (g a b)) G H.
Proof.
  unfold grid_zip. rewrite combine_map_same, map_map. apply map_ext.
  intros [r1 r2]. cbn [fst snd]. rewrite combine_map_same, map_map.
  reflexivity.
Qed.

Lemma meshgrid_const_X {C : Type} (c : C) (x y : list R) :
  grid_map (fun _ => c) (grid_map fin (fst (meshgrid x y)))
  = grid_zip (fun _ _ => c) (grid_map fin (fst (meshgrid x y)))
                            (grid_map fin (snd (meshgrid x y))).
Proof.
  unfold grid_map, grid_zip, meshgrid. cbn [fst snd].
  rewrite !map_map. rewrite combine_map_same, map_map. apply map_ext.
  intro yi. cbn [fst snd]. rewrite !map_map, combine_map_same, !map_map.
  reflexivity.
Qed.

Lemma meshgrid_const_Y {C : Type} (c : C) (x y : list R) :
  grid_map (fun _ => c) (grid_map fin (snd (meshgrid x y)))
  = grid_zip (fun _ _ => c) (grid_map fin (fst (meshgrid x y)))
                            (grid_map fin (snd (meshgrid x y))).
Proof.
  unfold grid_map, grid_zip, meshgrid. cbn [fst snd].
  rewrite !map_map. rewrite combine_map_same, map_map. apply map_ext.
  intro yi. cbn [fst snd]. rewrite !map_map, combine_map_same, !map_map.
  reflexivity.
Qed.

Lemma field_loop (sigma : list float) (X Y : list (list float))
    (init : float * float) (l : list Panel) :
  forall (k : nat) (done : list (nat * Panel)),
    (k + length l <= length sigma)%nat ->
    foldM (field_step sigma X Y) (combine (seq k (length l)) l)
      (grid_zip (fun x y => fst (velocity_at sigma init done x y)) X Y,
       grid_zip (fun x y => snd (velocity_at sigma init done x y)) X Y)
    = Returned
        (grid_zip (fun x y => fst (velocity_at sigma init
                     (done ++ combine (seq k (length l)) l) x y)) X Y,
         grid_zip (fun x y => snd (velocity_at sigma init
                     (done ++ combine (seq k (length l)) l) x y)) X Y).
Proof.
  induction l as [|p l IH]; intros k done Hs; simpl in *.
  - now rewrite app_nil_r.
  - unfold getitem. destruct (nth_error sigma k) as [s|] eqn:Es.
    2:{ apply nth_error_None in Es. lia. }
    cbn [bind]. rewrite !grid_zip_zip.
    change (done ++ (k, p) :: ?t) with (done ++ [(k, p)] ++ t).
    rewrite app_assoc, <- IH by lia. f_equal. f_equal.
    + apply grid_zip_ext. intros x y. unfold velocity_at.
      rewrite fold_left_app. cbn [fold_left fst snd].
      now rewrite (nth_error_nth sigma k None Es).
    + apply grid_zip_ext. intros x y. unfold velocity_at.
      rewrite fold_left_app. cbn [fold_left fst snd].
      now rewrite (nth_error_nth sigma k None Es).
Qed.

Lemma compute_flow_field_returns (result : dict) (panels : list Panel)
    (sigma : list float) (alpha_deg : R) (res : nat) :
  dict_get result "panels" = Some (VPanels panels) ->
  dict_get result "sigma" = Some (VVec sigma) ->
  (length panels <= length sigma)%nat ->
  let vel := velocity_at sigma (freestream (fin (radians alpha_deg))) (enumerate panels) in
  let U := grid_zip (fun x y => fst (vel x y)) (grid_X res) (grid_Y res) in
  let V := grid_zip (fun x y => snd (vel x y)) (grid_X res) (grid_Y res) in
  let V_mag := grid_zip (fun u v => fsqrt (fsq u + fsq v)%fl) U V in
  compute_flow_field result alpha_deg res
  = Returned [("X", VMat (grid_X res)); ("Y", VMat (grid_Y res));
              ("U", VMat U); ("V", VMat V); ("V_mag", VMat V_mag);
              ("Cp", VMat (grid_map (fun m => fin 1 - fsq m)%fl V_mag))]%string.
Proof.
  intros Hp Hs Hlen vel U V V_mag. unfold compute_flow_field, get_panels, get_vec.
  rewrite Hp, Hs. cbn [bind].
  fold (grid_X res). fold (grid_Y res).
  unfold grid_X at 2, grid_Y at 2. rewrite meshgrid_const_X, meshgrid_const_Y.
  fold (grid_X res). fold (grid_Y res).
  pose proof (field_loop sigma (grid_X res) (grid_Y res)
                (freestream (fin (radians alpha_deg))) panels 0 [] Hlen) as H.
  cbn [app] in H. unfold velocity_at at 1 2 in H. cbn [fold_left freestream fst snd] in H.
  unfold enumerate at 1. rewrite H. cbn [bind fst snd]. reflexivity.
Qed.

(** ** Finite states give finite fields *)












(** ** The solver instance on concrete systems *)

Lemma ref_linalg_solve_1x1 (a b0 : R) :
  a <> 0 -> ref_linalg_solve [[Some a]] [Some b0] = Returned [Some (b0 / a - 0)].
Proof.
  intro Ha. unfold ref_linalg_solve. cbn -[Req_dec_T].
  destruct (Req_dec_T a 0) as [E|_]; [contradiction|]. reflexivity.
Qed.

Lemma ref_linalg_solve_nonfinite (A : list (list float)) (b : list float) :
  all_finite_rows A = None -> ref_linalg_solve A b = Raised ValueError.
Proof. intro H. unfold ref_linalg_solve. now rewrite H. Qed.

Lemma assemble_A_one (p : Panel) : assemble_A [p] = [[fin 0.5]].
Proof. rewrite assemble_A_entries. reflexivity. Qed.

Lemma radians_0 : radians 0 = 0.
Proof. unfold radians. lra. Qed.

Lemma rhs_flat (V_inf : R) :
  rhs [panel_flat] (fin (radians 0)) (fin V_inf) = [Some 0].
Proof.
  rewrite rhs_entries, radians_0. cbn. rewrite cos_0, sin_0, cos_PI2, sin_PI2.
  do 2 f_equal. lra.
Qed.

Lemma Cp_of_flat (V_inf : R) :
  V_inf <> 0 -> Cp_of (fin (radians 0)) (fin V_inf) panel_flat (fin 0) = fin 0.
Proof.
  intro HV. unfold Cp_of, V_t_of, vt_inf, fin. rewrite radians_0.
  cbn [beta panel_flat fcos fsin fneg fmul fadd lift1 lift2 fin].
  rewrite fdiv_nonzero by lra. cbn [fadd lift2].
  rewrite fdiv_nonzero by assumption. cbn [fsq fmul fsub lift2].
  rewrite cos_0, sin_0, cos_PI2, sin_PI2. f_equal. field. assumption.
Qed.

Lemma ref_linalg_solve_flat (V_inf : R) :
  ref_linalg_solve (assemble_A [panel_flat])
    (rhs [panel_flat] (fin (radians 0)) (fin V_inf))
  = Returned [fin 0].
Proof.
  rewrite assemble_A_one, rhs_flat. unfold fin.
  rewrite ref_linalg_solve_1x1 by lra.
  replace (0 / 0.5 - 0) with 0 by lra. reflexivity.
Qed.

Lemma solve_flow_flat (V_inf : R) :
  V_inf <> 0 ->
  solve_flow ref_linalg_solve [panel_flat] 0 V_inf = Returned (Some flat_state).
Proof.
  intro HV.
  rewrite (solve_flow_returns ref_linalg_solve _ _ _ _ (ref_linalg_solve_flat V_inf))
    by (simpl; lia).
  change (enumerate [panel_flat]) with [(0%nat, panel_flat)].
  cbn [map fst snd nth]. now rewrite Cp_of_flat.
Qed.

Lemma influence_zero_length (p_i p_j : Panel) :
  plength p_j = Some 0 -> influence p_i p_j = None.
Proof.
  intro H. rewrite influence_source_integral, H.
  destruct (source_integral p_j (xc p_i) (yc p_i)); [apply fdiv_zero | reflexivity].
Qed.

Lemma ref_linalg_solve_degenerate (b : list float) :
  ref_linalg_solve (assemble_A [panel_flat; panel_point]) b = Raised ValueError.
Proof.
  apply ref_linalg_solve_nonfinite. rewrite assemble_A_entries.
  change (enumerate [panel_flat; panel_point])
    with [(0%nat, panel_flat); (1%nat, panel_point)].
  cbn [map all_finite_rows]. unfold entry at 1 2. cbn [fst snd Nat.eqb].
  rewrite (influence_zero_length panel_flat panel_point eq_refl).
  reflexivity.
Qed.

(** ** The interpolant instance passes through its data *)

Lemma lag_prod_self (ti : R) (others : list R) :
  ~ In ti others -> lag_prod ti others ti = 1.
Proof.
  induction others as [|tj r IH]; intro H; simpl; [reflexivity|].
  rewrite IH by (intro; apply H; now right).
  assert (ti <> tj) by (intro; apply H; now left).
  field. lra.
Qed.

Lemma lag_prod_other (ti t : R) (others : list R) :
  In t others -> lag_prod ti others t = 0.
Proof.
  induction others as [|tj r IH]; intro H; simpl; [contradiction|].
  destruct H as [->|H].
  - unfold Rdiv. rewrite Rminus_diag. ring.
  - rewrite IH by assumption. ring.
Qed.

Lemma lag_sum_before (before ts vs : list R) (t : R) :
  In t before -> lag_sum before ts vs t = 0.
Proof.
  revert before vs. induction ts as [|ti ts IH]; intros before vs H; simpl.
  - reflexivity.
  - destruct vs as [|v vs]; [reflexivity|].
    rewrite lag_prod_other by (apply in_or_app; now left).
    rewrite IH by (apply in_or_app; now left). ring.
Qed.

Lemma lag_sum_node (ts : list R) :
  forall (before vs : list R) (i : nat) (t v : R),
    NoDup (before ++ ts) ->
    nth_error ts i = Some t -> nth_error vs i = Some v ->
    lag_sum before ts vs t = v.
Proof.
  induction ts as [|ti ts IH]; intros before vs [|i] t v Hnd Ht Hv;
    simpl in *; try discriminate.
  - destruct vs as [|v0 vs]; [discriminate|]. injection Ht as ->. injection Hv as ->.
    rewrite lag_prod_self.
    + rewrite lag_sum_before by (apply in_or_app; right; now left). ring.
    + apply NoDup_remove_2 in Hnd. exact Hnd.
  - destruct vs as [|v0 vs]; [discriminate|]. simpl in Hv.
    rewrite lag_prod_other by (apply in_or_app; right; eapply nth_error_In; eauto).
    rewrite (IH (before ++ [ti]) vs i t v); auto.
    + ring.
    + now rewrite <- app_assoc.
Qed.

Lemma lagrange_node (ts vs : list R) (i : nat) (t v : R) :
  NoDup ts -> nth_error ts i = Some t -> nth_error vs i = Some v ->
  lagrange ts vs t = v.
Proof. intros. unfold lagrange. eapply lag_sum_node; eauto. Qed.

Lemma increasing_lower (a : R) (l : list R) :
  increasing (a :: l) = true -> forall b, In b l -> a < b.
Proof.
  revert a. induction l as [|c l IH]; intros a H b Hb; [contradiction|].
  simpl in H. destruct (Rlt_dec a c) as [Hac|]; [|discriminate].
  destruct Hb as [->|Hb]; [assumption|].
  apply Rlt_trans with c; [assumption|]. now apply IH.
Qed.

Lemma increasing_tail (a : R) (l : list R) :
  increasing (a :: l) = true -> increasing l = true.
Proof.
  destruct l as [|c l]; [reflexivity|]. simpl.
  destruct (Rlt_dec a c); [auto | discriminate].
Qed.

Lemma increasing_NoDup (l : list R) : increasing l = true -> NoDup l.
Proof.
  induction l as [|a l IH]; intro H; constructor.
  - intro Hin. pose proof (increasing_lower a l H a Hin). lra.
  - apply IH. eapply increasing_tail; eauto.
Qed.

Lemma increasing_hd_le (l : list R) (i : nat) (t : R) :
  increasing l = true -> nth_error l i = Some t -> hd 0 l <= t.
Proof.
  destruct l as [|a l]; intros H Ht; [now destruct i|].
  destruct i as [|i]; simpl in *.
  - injection Ht as ->. lra.
  - left. eapply increasing_lower; eauto. eapply nth_error_In; eauto.
Qed.

Lemma increasing_le_last (l : list R) :
  increasing l = true ->
  forall (i : nat) (t : R), nth_error l i = Some t -> t <= last l 0.
Proof.
  induction l as [|a l IH]; intros H i t Ht; [now destruct i|].
  destruct l as [|c l].
  - destruct i as [|[|i]]; simpl in *; try discriminate. injection Ht as ->. lra.
  - change (last (a :: c :: l) 0) with (last (c :: l) 0).
    destruct i as [|i].
    + simpl in Ht. injection Ht as ->.
      assert (t < c) by (eapply increasing_lower; eauto; now left).
      assert (c <= last (c :: l) 0).
      { apply (IH (increasing_tail _ _ H) 0%nat c). reflexivity. }
      lra.
    + apply (IH (increasing_tail _ _ H) i t). exact Ht.
Qed.

Lemma all_finite_nth (ts : list float) (ts' : list R) (i : nat) (t : R) :
  all_finite ts = Some ts' -> nth_error ts i = Some (Some t) ->
  nth_error ts' i = Some t.
Proof.
  revert ts' i. induction ts as [|[a|] ts IH]; intros ts' i H Ht; simpl in H.
  - now destruct i.
  - destruct (all_finite ts) as [rs|] eqn:E; [|discriminate].
    injection H as <-. destruct i as [|i]; simpl in *.
    + now injection Ht as ->.
    + now apply IH.
  - discriminate.
Qed.

Lemma ref_interp1d_value_preserving : value_preserving ref_interp1d.
Proof.
  intros ts vs f Hf i t v Ht Hv. unfold ref_interp1d in Hf.
  destruct (all_finite ts) as [ts'|] eqn:E; [|discriminate].
  destruct (negb (Nat.eqb (length ts') (length vs))); [discriminate|].
  destruct (Nat.ltb (length ts') 4); [discriminate|].
  destruct (increasing ts') eqn:Hinc; [|discriminate].
  simpl in Hf. injection Hf as <-.
  pose proof (all_finite_nth ts ts' i t E Ht) as Ht'.
  destruct (Rle_dec (hd 0 ts') t) as [_|Hn].
  2:{ exfalso. apply Hn. eapply increasing_hd_le; eauto. }
  destruct (Rle_dec t (last ts' 0)) as [_|Hn].
  2:{ exfalso. apply Hn. eapply increasing_le_last; eauto. }
  rewrite (lagrange_node ts' vs i t v); auto. now apply increasing_NoDup.
Qed.

Lemma ref_interp1d_raises_library_only : raises_library_only ref_interp1d.
Proof.
  split.
  - intros ts vs e H. unfold ref_interp1d in H.
    destruct (all_finite ts) as [ts'|]; [|now injection H as <-].
    destruct (negb _); [now injection H as <-|].
    destruct (Nat.ltb _ _); [now injection H as <-|].
    destruct (negb _); [now injection H as <-|]. discriminate.
  - intros ts vs f t e H Hf. unfold ref_interp1d in H.
    destruct (all_finite ts) as [ts'|]; [|discriminate].
    destruct (negb _); [discriminate|].
    destruct (Nat.ltb _ _); [discriminate|].
    destruct (negb _); [discriminate|]. injection H as <-.
    destruct (Rle_dec _ _); [|now injection Hf as <-].
    destruct (Rle_dec _ _); [discriminate|now injection Hf as <-].
Qed.

(** ** [create_panels]: what a returned value and a raised exception tell *)
Lemma bind_Returned {A B : Type} (m : outcome A) (k : A -> outcome B) (b : B) :
  bind m k = Returned b -> exists a, m = Returned a /\ k a = Returned b.
Proof. destruct m as [a|e]; simpl; intro H; [eauto | discriminate]. Qed.

Lemma bind_Raised {A B : Type} (m : outcome A) (k : A -> outcome B) (e : exn) :
  bind m k = Raised e ->
  m = Raised e \/ exists a, m = Returned a /\ k a = Raised e.
Proof. destruct m as [a|e']; simpl; intro H; [eauto | left; congruence]. Qed.

Lemma mapM_Returned {A B : Type} (f : A -> outcome B) (l : list A) :
  forall bs : list B,
    mapM f l = Returned bs ->
    length bs = length l
    /\ forall (i : nat) (a : A), nth_error l i = Some a ->
         exists b, f a = Returned b /\ nth_error bs i = Some b.
Proof.
  induction l as [|a l IH]; intros bs H; simpl in H.
  - injection H as <-. split; [reflexivity|]. now intros [|i].
  - apply bind_Returned in H. destruct H as [b [Hb H]].
    apply bind_Returned in H. destruct H as [bs' [Hbs H]]. injection H as <-.
    destruct (IH bs' Hbs) as [Hlen Hnth]. split; [simpl; now rewrite Hlen|].
    intros [|i] a' Ha; simpl in *.
    + injection Ha as <-. eauto.
    + now apply Hnth.
Qed.

Lemma mapM_Raised {A B : Type} (f : A -> outcome B) (l : list A) (e : exn) :
  mapM f l = Raised e -> exists a, In a l /\ f a = Raised e.
Proof.
  induction l as [|a l IH]; intro H; simpl in H; [discriminate|].
  apply bind_Raised in H. destruct H as [H|[b [Hb H]]].
  - exists a. split; [now left | assumption].
  - apply bind_Raised in H. destruct H as [H|[bs [_ H]]]; [|discriminate].
    destruct (IH H) as [a' [Hin Ha']]. exists a'. split; [now right | assumption].
Qed.

(** Closing the contour. *)
Lemma isclose_refl (a : R) : isclose a a = true.
Proof.
  unfold isclose. destruct (Rle_dec _ _) as [_|Hn]; [reflexivity|].
  exfalso. apply Hn. rewrite Rminus_diag, Rabs_R0.
  pose proof (Rabs_pos a). lra.
Qed.

Lemma getitem_0 {A : Type} (l : list A) (a : A) :
  getitem l 0 = Returned a -> exists l', l = a :: l'.
Proof.
  destruct l as [|b l]; unfold getitem; simpl; intro H; [discriminate|].
  injection H as ->. eauto.
Qed.

Lemma last_cons_default {A : Type} (l : list A) :
  forall b d : A, last (b :: l) d = last l b.
Proof.
  induction l as [|c l IH]; intros b d; [reflexivity|].
  change (last (b :: c :: l) d) with (last (c :: l) d).
  now rewrite (IH c d), (IH c b).
Qed.

Lemma getlast_Returned {A : Type} (l : list A) (a d : A) :
  getlast l = Returned a -> a = last l d.
Proof.
  destruct l as [|b l]; simpl; intro H; [discriminate|]. injection H as <-.
  symmetry. apply last_cons_default.
Qed.

Lemma close_contour_Returned (x y x' y' : list R) :
  close_contour x y = Returned (x', y') ->
  x <> [] /\ y <> []
  /\ ((x', y') = (x, y) \/ (x', y') = (x ++ [hd 0 x], y ++ [hd 0 y]))
  /\ hd 0 x' = hd 0 x /\ hd 0 y' = hd 0 y
  /\ isclose (hd 0 x') (last x' 0) = true
  /\ isclose (hd 0 y') (last y' 0) = true.
Proof.
  unfold close_contour. intro H.
  apply bind_Returned in H. destruct H as [x0 [Hx0 H]].
  apply bind_Returned in H. destruct H as [xl [Hxl H]].
  apply bind_Returned in H. destruct H as [closed [Hc H]].
  destruct (getitem_0 _ _ Hx0) as [xt ->].
  pose proof (getlast_Returned _ _ 0 Hxl) as ->.
  destruct closed.
  - injection H as <- <-.
    destruct (isclose x0 (last (x0 :: xt) 0)) eqn:Ecx; [|discriminate].
    apply bind_Returned in Hc. destruct Hc as [y0 [Hy0 Hc]].
    apply bind_Returned in Hc. destruct Hc as [yl [Hyl Hc]].
    destruct (getitem_0 _ _ Hy0) as [yt ->].
    pose proof (getlast_Returned _ _ 0 Hyl) as ->. injection Hc as Hc.
    repeat split; auto; try discriminate.
  - apply bind_Returned in H. destruct H as [y0 [Hy0 H]].
    destruct (getitem_0 _ _ Hy0) as [yt ->]. injection H as <- <-.
    repeat split; auto; try discriminate.
    + change ((x0 :: xt) ++ [x0]) with (x0 :: (xt ++ [x0])).
      cbn [hd]. change (x0 :: xt ++ [x0]) with ((x0 :: xt) ++ [x0]).
      rewrite last_last. apply isclose_refl.
    + change ((y0 :: yt) ++ [y0]) with (y0 :: (yt ++ [y0])).
      cbn [hd]. change (y0 :: yt ++ [y0]) with ((y0 :: yt) ++ [y0]).
      rewrite last_last. apply isclose_refl.
Qed.

Lemma close_contour_Raised (x y : list R) (e : exn) :
  close_contour x y = Raised e -> e = IndexError /\ (x = [] \/ y = []).
Proof.
  unfold close_contour. destruct x as [|x0 xt].
  - simpl. intro H. injection H as <-. auto.
  - unfold getitem at 1. cbn [nth_error bind getlast].
    destruct y as [|y0 yt].
    + destruct (isclose _ _); cbn; intro H; injection H as <-; auto.
    + destruct (isclose _ _); cbn; [destruct (isclose _ _)|]; cbn; discriminate.
Qed.

Lemma close_contour_empty (x y : list R) :
  x = [] \/ y = [] -> close_contour x y = Raised IndexError.
Proof.
  intros [->| ->]; [reflexivity|]. unfold close_contour.
  destruct x as [|x0 xt]; [reflexivity|].
  unfold getitem at 1. cbn [nth_error bind getlast].
  destruct (isclose _ _); reflexivity.
Qed.

(** Arc-length parameters. *)

Lemma diff_length (l : list R) : length (diff l) = (length l - 1)%nat.
Proof.
  induction l as [|a [|b l] IH]; try reflexivity.
  change (diff (a :: b :: l)) with ((b - a) :: diff (b :: l)).
  cbn [length] in *. rewrite IH. lia.
Qed.

Lemma cumsum_from_length (acc : R) (l : list R) :
  length (cumsum_from acc l) = length l.
Proof. revert acc. induction l as [|a l IH]; intro acc; simpl; auto. Qed.

Lemma nth_error_last {A : Type} (l : list A) (d : A) :
  l <> [] -> nth_error l (length l - 1) = Some (last l d).
Proof.
  induction l as [|a l IH]; intro H; [contradiction|].
  destruct l as [|b l]; [reflexivity|].
  change (last (a :: b :: l) d) with (last (b :: l) d).
  rewrite <- IH by discriminate. cbn [length].
  replace (S (S (length l)) - 1)%nat with (S (S (length l) - 1)) by lia.
  reflexivity.
Qed.

Lemma zip_with_same_length (f : R -> R -> R) (a b : list R) :
  length a = length b ->
  zip_with f a b = Returned (map (fun ab => f (fst ab) (snd ab)) (combine a b)).
Proof. intro H. unfold zip_with. now rewrite H, Nat.eqb_refl. Qed.

Lemma zip_with_Raised (f : R -> R -> R) (a b : list R) (e : exn) :
  zip_with f a b = Raised e -> e = ValueError.
Proof.
  unfold zip_with. destruct (Nat.eqb _ _); [discriminate|].
  destruct a as [|a0 [|a1 a]]; destruct b as [|b0 [|b1 b]];
    intro H; try discriminate; now injection H.
Qed.

Lemma arc_parameter_Raised (x y : list R) (e : exn) :
  arc_parameter x y = Raised e -> e = ValueError.
Proof.
  unfold arc_parameter. intro H. apply bind_Raised in H.
  destruct H as [H|[s [_ H]]]; [|discriminate].
  eapply zip_with_Raised; eauto.
Qed.

Lemma chord_lengths_length (x y : list R) :
  length x = length y -> x <> [] -> length (chord_lengths x y) = length x.
Proof.
  intros Hlen Hx. unfold chord_lengths, cumsum. cbn [length].
  rewrite cumsum_from_length, !length_map, length_combine, !length_map,
    !diff_length, <- Hlen, Nat.min_id.
  destruct x; [contradiction | simpl; lia].
Qed.

Lemma arc_parameter_same_length (x y : list R) :
  length x = length y ->
  arc_parameter x y
  = Returned (map (fun t => fin t / fin (last (chord_lengths x y) 0))%fl
                  (chord_lengths x y)).
Proof.
  intro Hlen. unfold arc_parameter.
  rewrite zip_with_same_length by (now rewrite !length_map, !diff_length, Hlen).
  reflexivity.
Qed.

Lemma arc_parameter_ends (x y : list R) (ts : list float) :
  length x = length y -> x <> [] ->
  arc_parameter x y = Returned ts -> forallb isfinite ts = true ->
  length ts = length x
  /\ nth_error ts 0 = Some (Some 0)
  /\ nth_error ts (length x - 1) = Some (Some 1).
Proof.
  intros Hlen Hx H Hfin. rewrite arc_parameter_same_length in H by assumption.
  assert (Hts : ts = map (fun t => fin t / fin (last (chord_lengths x y) 0))%fl
                         (chord_lengths x y)) by congruence.
  clear H. subst ts.
  pose proof (chord_lengths_length x y Hlen Hx) as Hl.
  assert (Htot : last (chord_lengths x y) 0 <> 0).
  { intro E. rewrite forallb_forall in Hfin.
    assert (Hin : In (fin 0 / fin (last (chord_lengths x y) 0))%fl
                     (map (fun t => fin t / fin (last (chord_lengths x y) 0))%fl
                          (chord_lengths x y))).
    { apply (in_map (fun t => fin t / fin (last (chord_lengths x y) 0))%fl).
      now left. }
    apply Hfin in Hin. rewrite E in Hin. unfold fin in Hin.
    rewrite fdiv_zero in Hin. discriminate. }
  split; [now rewrite length_map|]. split.
  - rewrite nth_error_map.
    change (nth_error (chord_lengths x y) 0) with (Some 0).
    cbn [option_map]. unfold fin. rewrite fdiv_nonzero by assumption.
    do 2 f_equal. unfold Rdiv. ring.
  - rewrite <- Hl, nth_error_map, (nth_error_last _ 0) by discriminate.
    cbn [option_map]. unfold fin. rewrite fdiv_nonzero by assumption.
    do 2 f_equal. now field.
Qed.

(** Cosine spacing. *)
Lemma linspace_length (a b : R) (n : nat) : length (linspace a b n) = n.
Proof.
  destruct n as [|[|d]]; try reflexivity. unfold linspace.
  rewrite length_app, length_map, length_seq. simpl. lia.
Qed.

Lemma cosine_spacing_length (N : nat) : length (cosine_spacing N) = (N + 1)%nat.
Proof. unfold cosine_spacing. now rewrite length_map, linspace_length. Qed.

Lemma cosine_spacing_formula (N : nat) :
  (0 < N)%nat ->
  cosine_spacing N
  = map (fun k => 0.5 * (1 - cos (INR k * PI / INR N))) (seq 0 (N + 1)).
Proof.
  intro HN. unfold cosine_spacing.
  assert (HR : INR N <> 0) by (apply not_0_INR; lia).
  replace (N + 1)%nat with (S N) by lia.
  destruct N as [|d]; [lia|].
  change (linspace 0 PI (S (S d)))
    with (map (fun k => 0 + INR k * ((PI - 0) / INR (S d))) (seq 0 (S d)) ++ [PI]).
  rewrite (seq_S (S d) 0), !map_app, map_map. cbn [map]. f_equal.
  - apply map_ext. intro k. do 3 f_equal. now field.
  - do 4 f_equal. cbn [Nat.add]. now field.
Qed.

Lemma cosine_spacing_first (N : nat) :
  (0 < N)%nat -> nth_error (cosine_spacing N) 0 = Some 0.
Proof.
  intro HN. rewrite cosine_spacing_formula by assumption.
  replace (N + 1)%nat with (S N) by lia. cbn [seq map nth_error].
  f_equal. replace (INR 0 * PI / INR N) with 0.
  - rewrite cos_0. lra.
  - simpl. unfold Rdiv. ring.
Qed.

Lemma cosine_spacing_last (N : nat) :
  (0 < N)%nat -> nth_error (cosine_spacing N) N = Some 1.
Proof.
  intro HN. rewrite cosine_spacing_formula by assumption.
  rewrite nth_error_map, nth_error_seq.
  replace (N <? N + 1)%nat with true by (symmetry; apply Nat.ltb_lt; lia).
  cbn [option_map Nat.add]. f_equal.
  replace (INR N * PI / INR N) with PI.
  - rewrite cos_PI. lra.
  - field. apply not_0_INR. lia.
Qed.

(** Panel construction. *)

Lemma getitem_Returned {A : Type} (l : list A) (i : nat) (a : A) :
  getitem l i = Returned a -> nth_error l i = Some a.
Proof. unfold getitem. destruct (nth_error l i); congruence. Qed.

Lemma getitem_Raised {A : Type} (l : list A) (i : nat) (e : exn) :
  getitem l i = Raised e -> e = IndexError.
Proof. unfold getitem. destruct (nth_error l i); congruence. Qed.

Lemma make_panel_Returned (x_p y_p : list float) (i : nat) (p : Panel) :
  make_panel x_p y_p i = Returned p ->
  exists a b c d,
    nth_error x_p i = Some a /\ nth_error y_p i = Some b
    /\ nth_error x_p (i + 1) = Some c /\ nth_error y_p (i + 1) = Some d
    /\ p = panel_between a b c d.
Proof.
  unfold make_panel. intro H.
  apply bind_Returned in H. destruct H as [a [Ha H]].
  apply bind_Returned in H. destruct H as [b [Hb H]].
  apply bind_Returned in H. destruct H as [c [Hc H]].
  apply bind_Returned in H. destruct H as [d [Hd H]].
  injection H as <-. exists a, b, c, d.
  repeat split; auto using getitem_Returned.
Qed.

Lemma make_panel_Raised (x_p y_p : list float) (i : nat) (e : exn) :
  make_panel x_p y_p i = Raised e -> e = IndexError.
Proof.
  unfold make_panel. intro H.
  repeat (apply bind_Raised in H;
          destruct H as [H|[? [_ H]]]; [now apply getitem_Raised in H|]).
  discriminate.
Qed.

Lemma build_panels_Returned (N : nat) (x_p y_p : list float) (ps : list Panel) :
  build_panels N x_p y_p = Returned ps ->
  length ps = N
  /\ forall (k : nat) (p : Panel), nth_error ps k = Some p ->
       exists a b c d,
         nth_error x_p k = Some a /\ nth_error y_p k = Some b
         /\ nth_error x_p (k + 1) = Some c /\ nth_error y_p (k + 1) = Some d
         /\ p = panel_between a b c d.
Proof.
  unfold build_panels. intro H. apply mapM_Returned in H.
  destruct H as [Hlen Hnth]. rewrite length_seq in Hlen. split; [assumption|].
  intros k p Hp.
  assert (Hk : (k < N)%nat) by (rewrite <- Hlen; apply nth_error_Some; congruence).
  destruct (Hnth k k) as [q [Hq Hq']].
  { rewrite nth_error_seq. apply Nat.ltb_lt in Hk. now rewrite Hk. }
  rewrite Hp in Hq'. injection Hq' as <-. now apply make_panel_Returned.
Qed.

Lemma build_panels_Raised (N : nat) (x_p y_p : list float) (e : exn) :
  build_panels N x_p y_p = Raised e -> e = IndexError.
Proof.
  unfold build_panels. intro H. apply mapM_Raised in H.
  destruct H as [i [_ H]]. eapply make_panel_Raised; eauto.
Qed.

Section CreatePanels.
Variable interp1d : list float -> list R -> outcome (R -> outcome float).

Lemma resample_Returned (N : nat) (x y : list R) (x_p y_p : list float) :
  resample interp1d N x y = Returned (x_p, y_p) ->
  exists x' y' ts fx fy,
    close_contour x y = Returned (x', y')
    /\ arc_parameter x' y' = Returned ts
    /\ interp1d ts x' = Returned fx /\ interp1d ts y' = Returned fy
    /\ mapM fx (cosine_spacing N) = Returned x_p
    /\ mapM fy (cosine_spacing N) = Returned y_p.
Proof.
  unfold resample. intro H.
  apply bind_Returned in H. destruct H as [[x' y'] [Hc H]]. cbn [fst snd] in H.
  apply bind_Returned in H. destruct H as [ts [Ht H]].
  apply bind_Returned in H. destruct H as [fx [Hfx H]].
  apply bind_Returned in H. destruct H as [fy [Hfy H]].
  apply bind_Returned in H. destruct H as [xp [Hxp H]].
  apply bind_Returned in H. destruct H as [yp [Hyp H]].
  injection H as <- <-. exists x', y', ts, fx, fy. auto 10.
Qed.

Lemma resample_Raised (N : nat) (x y : list R) (e : exn) :
  raises_library_only interp1d ->
  resample interp1d N x y = Raised e -> library_exn e = true.
Proof.
  intros [Hi He]. unfold resample. intro H.
  apply bind_Raised in H. destruct H as [H|[[x' y'] [_ H]]].
  { apply close_contour_Raised in H. now destruct H as [-> _]. }
  cbn [fst snd] in H.
  apply bind_Raised in H. destruct H as [H|[ts [_ H]]].
  { apply arc_parameter_Raised in H. now subst. }
  apply bind_Raised in H. destruct H as [H|[fx [Hfx H]]]; [eauto|].
  apply bind_Raised in H. destruct H as [H|[fy [Hfy H]]]; [eauto|].
  apply bind_Raised in H. destruct H as [H|[xp [_ H]]].
  { apply mapM_Raised in H. destruct H as [t [_ H]]. eauto. }
  apply bind_Raised in H. destruct H as [H|[yp [_ H]]]; [|discriminate].
  apply mapM_Raised in H. destruct H as [t [_ H]]. eauto.
Qed.

Lemma create_panels_Raised (N : nat) (x y : list R) (e : exn) :
  raises_library_only interp1d ->
  create_panels interp1d N x y = Raised e -> library_exn e = true.
Proof.
  intros Hlib H. unfold create_panels in H.
  apply bind_Raised in H. destruct H as [H|[xy [_ H]]].
  - eapply resample_Raised; eauto.
  - apply build_panels_Raised in H. now subst.
Qed.

Lemma create_panels_empty (N : nat) (x y : list R) :
  x = [] \/ y = [] -> create_panels interp1d N x y = Raised IndexError.
Proof.
  intro H. unfold create_panels, resample.
  now rewrite (close_contour_empty x y H).
Qed.

Lemma create_panels_Returned (N : nat) (x y : list R) (ps : list Panel) :
  create_panels interp1d N x y = Returned ps ->
  exists x_p y_p,
    resample interp1d N x y = Returned (x_p, y_p)
    /\ build_panels N x_p y_p = Returned ps.
Proof.
  unfold create_panels. intro H.
  apply bind_Returned in H. destruct H as [[x_p y_p] [Hr H]]. eauto.
Qed.

(** The ends of the resampled point set. *)
Lemma resample_ends (N : nat) (x y x' y' : list R) (ts x_p y_p : list float) :
  value_preserving interp1d ->
  (0 < N)%nat -> length x = length y ->
  close_contour x y = Returned (x', y') ->
  arc_parameter x' y' = Returned ts -> forallb isfinite ts = true ->
  resample interp1d N x y = Returned (x_p, y_p) ->
  length x_p = (N + 1)%nat /\ length y_p = (N + 1)%nat
  /\ nth_error x_p 0 = Some (fin (hd 0 x'))
  /\ nth_error y_p 0 = Some (fin (hd 0 y'))
  /\ nth_error x_p N = Some (fin (last x' 0))
  /\ nth_error y_p N = Some (fin (last y' 0)).
Proof.
  intros Hvp HN Hlen Hc Ht Hfin Hr.
  destruct (resample_Returned N x y x_p y_p Hr)
    as [x'' [y'' [ts' [fx [fy [Hc' [Ht' [Hfx [Hfy [Hxp Hyp]]]]]]]]]].
  rewrite Hc in Hc'. injection Hc' as <- <-.
  rewrite Ht in Ht'. injection Ht' as <-.
  destruct (close_contour_Returned x y x' y' Hc)
    as [Hx [Hy [Hcases _]]].
  assert (Hlen' : length x' = length y').
  { destruct Hcases as [E|E]; injection E as -> ->; auto.
    rewrite !length_app. simpl. lia. }
  assert (Hx' : x' <> []).
  { destruct Hcases as [E|E]; injection E as -> ->; auto.
    now destruct x. }
  assert (Hy' : y' <> []) by (destruct y'; [destruct x'; [auto|discriminate]|discriminate]).
  destruct (arc_parameter_ends x' y' ts Hlen' Hx' Ht Hfin) as [Hl [H0 H1]].
  destruct (mapM_Returned _ _ _ Hxp) as [Lx Nx].
  destruct (mapM_Returned _ _ _ Hyp) as [Ly Ny].
  rewrite cosine_spacing_length in Lx, Ly.
  destruct (Nx 0%nat 0 (cosine_spacing_first N HN)) as [a [Ha Ha']].
  destruct (Ny 0%nat 0 (cosine_spacing_first N HN)) as [b [Hb Hb']].
  destruct (Nx N 1 (cosine_spacing_last N HN)) as [c [Hc' Hc'']].
  destruct (Ny N 1 (cosine_spacing_last N HN)) as [d [Hd Hd']].
  assert (X0 : nth_error x' 0 = Some (hd 0 x')) by (destruct x'; [contradiction|reflexivity]).
  assert (Y0 : nth_error y' 0 = Some (hd 0 y')) by (destruct y'; [contradiction|reflexivity]).
  pose proof (nth_error_last x' 0 Hx') as X1.
  pose proof (nth_error_last y' 0 Hy') as Y1. rewrite <- Hlen' in Y1.
  rewrite (Hvp ts x' fx Hfx 0%nat 0 _ H0 X0) in Ha.
  rewrite (Hvp ts y' fy Hfy 0%nat 0 _ H0 Y0) in Hb.
  rewrite (Hvp ts x' fx Hfx _ 1 _ H1 X1) in Hc'.
  rewrite (Hvp ts y' fy Hfy _ 1 _ H1 Y1) in Hd.
  injection Ha as <-. injection Hb as <-. injection Hc' as <-. injection Hd as <-.
  auto 10.
Qed.

End CreatePanels.

(** ** [create_panels] on concrete contours *)

Lemma all_finite_map_fin (l : list R) : all_finite (map fin l) = Some l.
Proof. induction l as [|a l IH]; simpl; [reflexivity|]. now rewrite IH. Qed.

Lemma mapM_map {A B : Type} (f : A -> outcome B) (g : A -> B) (l : list A) :
  (forall a, In a l -> f a = Returned (g a)) -> mapM f l = Returned (map g l).
Proof.
  induction l as [|a l IH]; intro H; simpl; [reflexivity|].
  rewrite (H a) by now left. cbn [bind].
  rewrite IH by (intros; apply H; now right). reflexivity.
Qed.

Lemma cosine_spacing_range (N : nat) (t : R) :
  In t (cosine_spacing N) -> 0 <= t <= 1.
Proof.
  unfold cosine_spacing. intro H. apply in_map_iff in H.
  destruct H as [u [<- _]]. pose proof (COS_bound u). lra.
Qed.

(** With the reference interpolant, resampling returns the polynomial
    through the closed contour, sampled at the cosine-spaced parameters. *)
Lemma resample_ref (N : nat) (x y x' y' ts : list R) :
  close_contour x y = Returned (x', y') ->
  arc_parameter x' y' = Returned (map fin ts) ->
  length ts = length x' -> length x' = length y' ->
  (4 <= length ts)%nat -> increasing ts = true ->
  hd 0 ts = 0 -> last ts 0 = 1 ->
  resample ref_interp1d N x y
  = Returned (map (fun t => fin (lagrange ts x' t)) (cosine_spacing N),
              map (fun t => fin (lagrange ts y' t)) (cosine_spacing N)).
Proof.
  intros Hc Ht Lx Lxy L4 Hinc Hhd Hlast. unfold resample.
  rewrite Hc. cbn [bind fst snd]. rewrite Ht. cbn [bind].
  unfold ref_interp1d. rewrite all_finite_map_fin, Hinc, Hhd, Hlast.
  rewrite <- Lxy, Lx, Nat.eqb_refl. rewrite <- Lx.
  replace (length ts <? 4)%nat with false by (symmetry; apply Nat.ltb_ge; lia).
  cbn [negb bind].
  rewrite (mapM_map _ (fun t => fin (lagrange ts x' t))).
  2:{ intros t Hin. apply cosine_spacing_range in Hin.
      destruct (Rle_dec 0 t); [|lra]. destruct (Rle_dec t 1); [reflexivity|lra]. }
  cbn [bind].
  rewrite (mapM_map _ (fun t => fin (lagrange ts y' t))).
  2:{ intros t Hin. apply cosine_spacing_range in Hin.
      destruct (Rle_dec 0 t); [|lra]. destruct (Rle_dec t 1); [reflexivity|lra]. }
  reflexivity.
Qed.

Lemma cosine_spacing_1 : cosine_spacing 1 = [0; 1].
Proof.
  rewrite cosine_spacing_formula by lia. cbn [Nat.add seq map].
  apply (f_equal2 (@cons R)); [|apply (f_equal2 (@cons R)); [|reflexivity]].
  - replace (INR 0 * PI / INR 1) with 0 by (simpl; field). rewrite cos_0. lra.
  - replace (INR 1 * PI / INR 1) with PI by (simpl; field). rewrite cos_PI. lra.
Qed.

Lemma cosine_spacing_2 : cosine_spacing 2 = [0; 0.5; 1].
Proof.
  rewrite cosine_spacing_formula by lia. cbn [Nat.add seq map].
  apply (f_equal2 (@cons R)); [|apply (f_equal2 (@cons R));
                                 [|apply (f_equal2 (@cons R)); [|reflexivity]]].
  - replace (INR 0 * PI / INR 2) with 0 by (simpl; field). rewrite cos_0. lra.
  - replace (INR 1 * PI / INR 2) with (PI / 2) by (simpl; field).
    rewrite cos_PI2. lra.
  - replace (INR 2 * PI / INR 2) with PI by (simpl; field). rewrite cos_PI. lra.
Qed.

Lemma isclose_true (a b : R) :
  Rabs (a - b) <= 1e-8 + 1e-5 * Rabs b -> isclose a b = true.
Proof. intro H. unfold isclose. destruct (Rle_dec _ _); [reflexivity|contradiction]. Qed.

Lemma isclose_false (a b : R) :
  1e-8 + 1e-5 * Rabs b < Rabs (a - b) -> isclose a b = false.
Proof. intro H. unfold isclose. destruct (Rle_dec _ _); [lra|reflexivity]. Qed.

Lemma close_contour_tri :
  close_contour tri_x tri_y = Returned ([4; 4; 0; 4], [0; 3; 0; 0]).
Proof.
  unfold close_contour, tri_x, tri_y. cbn [getitem nth_error getlast last bind].
  rewrite isclose_false; [reflexivity|].
  replace (4 - 0) with 4 by lra. rewrite Rabs_R0, Rabs_pos_eq by lra. lra.
Qed.

Lemma close_contour_near :
  close_contour near_x near_y = Returned (near_x, near_y).
Proof.
  unfold close_contour, near_x, near_y. cbn [getitem nth_error getlast last bind].
  rewrite isclose_true.
  - cbn [bind]. rewrite isclose_refl. reflexivity.
  - rewrite Rabs_minus_sym. replace (4.00001 - 4) with 0.00001 by lra.
    rewrite !Rabs_pos_eq by lra. lra.
Qed.

Lemma sqrt_of_square (a c : R) : 0 <= c -> a = c * c -> sqrt a = c.
Proof. intros Hc ->. now apply sqrt_square. Qed.

Lemma chord_lengths_tri :
  chord_lengths [4; 4; 0; 4] [0; 3; 0; 0] = [0; 3; 8; 12].
Proof.
  unfold chord_lengths, cumsum.
  cbn [diff map combine cumsum_from fst snd].
  rewrite (sqrt_of_square _ 3), (sqrt_of_square _ 5), (sqrt_of_square _ 4) by lra.
  repeat (apply (f_equal2 (@cons R)); [lra|]). reflexivity.
Qed.

Lemma chord_lengths_near :
  chord_lengths near_x near_y = [0; 3; 8; 12.00001].
Proof.
  unfold chord_lengths, cumsum, near_x, near_y.
  cbn [diff map combine cumsum_from fst snd].
  rewrite (sqrt_of_square _ 3), (sqrt_of_square _ 5),
    (sqrt_of_square _ 4.00001) by lra.
  repeat (apply (f_equal2 (@cons R)); [lra|]). reflexivity.
Qed.

Lemma arc_parameter_tri :
  arc_parameter [4; 4; 0; 4] [0; 3; 0; 0] = Returned (map fin tri_ts).
Proof.
  rewrite arc_parameter_same_length by reflexivity.
  rewrite chord_lengths_tri. cbn [last map]. unfold fin, tri_ts.
  rewrite !fdiv_nonzero by lra. cbn [map].
  apply f_equal.
  repeat (apply (f_equal2 (@cons float)); [apply f_equal; lra|]).
  reflexivity.
Qed.

Lemma arc_parameter_near :
  arc_parameter near_x near_y = Returned (map fin near_ts).
Proof.
  rewrite arc_parameter_same_length by reflexivity.
  rewrite chord_lengths_near. cbn [last map]. unfold fin, near_ts.
  rewrite !fdiv_nonzero by lra. cbn [map].
  apply f_equal.
  repeat (apply (f_equal2 (@cons float)); [apply f_equal; lra|]).
  reflexivity.
Qed.

Lemma increasing_tri_ts : increasing tri_ts = true.
Proof.
  unfold tri_ts. cbn [increasing].
  repeat (destruct (Rlt_dec _ _); [|lra]). reflexivity.
Qed.

Lemma increasing_near_ts : increasing near_ts = true.
Proof.
  unfold near_ts. cbn [increasing].
  repeat (destruct (Rlt_dec _ _); [|lra]). reflexivity.
Qed.

Lemma resample_tri (N : nat) :
  resample ref_interp1d N tri_x tri_y
  = Returned (map (fun t => fin (lagrange tri_ts [4; 4; 0; 4] t)) (cosine_spacing N),
              map (fun t => fin (lagrange tri_ts [0; 3; 0; 0] t)) (cosine_spacing N)).
Proof.
  apply resample_ref; auto using close_contour_tri, arc_parameter_tri,
    increasing_tri_ts.
Qed.

Lemma resample_near (N : nat) :
  resample ref_interp1d N near_x near_y
  = Returned (map (fun t => fin (lagrange near_ts near_x t)) (cosine_spacing N),
              map (fun t => fin (lagrange near_ts near_y t)) (cosine_spacing N)).
Proof.
  apply resample_ref; auto using close_contour_near, arc_parameter_near,
    increasing_near_ts.
Qed.

Lemma lagrange_first (ts vs : list R) (t v : R) :
  increasing (t :: ts) = true -> lagrange (t :: ts) (v :: vs) t = v.
Proof.
  intro H. apply (lagrange_node (t :: ts) (v :: vs) 0 t v); auto.
  now apply increasing_NoDup.
Qed.

Lemma lagrange_fourth (t0 t1 t2 t3 v0 v1 v2 v3 : R) :
  increasing [t0; t1; t2; t3] = true ->
  lagrange [t0; t1; t2; t3] [v0; v1; v2; v3] t3 = v3.
Proof.
  intro H. apply (lagrange_node _ _ 3 t3 v3); auto.
  now apply increasing_NoDup.
Qed.

Lemma resample_tri_1 :
  resample ref_interp1d 1 tri_x tri_y = Returned ([fin 4; fin 4], [fin 0; fin 0]).
Proof.
  rewrite resample_tri, cosine_spacing_1. cbn [map]. unfold tri_ts.
  rewrite !lagrange_first, !lagrange_fourth by apply increasing_tri_ts.
  reflexivity.
Qed.

Lemma resample_near_1 :
  resample ref_interp1d 1 near_x near_y
  = Returned ([fin 4; fin 4.00001], [fin 0; fin 0]).
Proof.
  rewrite resample_near, cosine_spacing_1. cbn [map]. unfold near_ts, near_x, near_y.
  rewrite !lagrange_first, !lagrange_fourth by apply increasing_near_ts.
  reflexivity.
Qed.

Lemma arctan2_0_0 : arctan2 0 0 = 0.
Proof.
  unfold arctan2. repeat (destruct (Rlt_dec _ _); [lra|]). reflexivity.
Qed.

Lemma panel_between_te :
  panel_between (fin 4) (fin 0) (fin 4) (fin 0) = panel_te.
Proof.
  unfold panel_between, panel_te, fin.
  cbn [fsub fadd fmul fsq farctan2 lift2].
  replace (4 - 4) with 0 by lra. replace (0 - 0) with 0 by lra.
  replace (0 * 0 + 0 * 0) with 0 by lra.
  unfold fsqrt. destruct (Rle_dec 0 0); [|lra].
  rewrite sqrt_0, arctan2_0_0, !fdiv_nonzero by lra.
  replace ((4 + 4) / 2) with 4 by lra. replace ((0 + 0) / 2) with 0 by lra.
  replace (0 + PI / 2) with (PI / 2) by lra. reflexivity.
Qed.

Lemma create_panels_tri_1 :
  create_panels ref_interp1d 1 tri_x tri_y = Returned [panel_te].
Proof.
  unfold create_panels. rewrite resample_tri_1. cbn [bind fst snd].
  unfold build_panels, make_panel. cbn [seq mapM getitem nth_error Nat.add bind].
  now rewrite panel_between_te.
Qed.

(** ** The concrete panels are panels that [create_panels] builds *)

Lemma arctan2_vertical_up (y x : R) : x = 0 -> 0 < y -> arctan2 y x = PI / 2.
Proof.
  intros -> Hy. unfold arctan2. repeat (destruct (Rlt_dec _ _); try lra).
Qed.

Lemma arctan2_vertical_down (y x : R) :
  x = 0 -> y < 0 -> arctan2 y x = - (PI / 2).
Proof.
  intros -> Hy. unfold arctan2. repeat (destruct (Rlt_dec _ _); try lra).
Qed.

Lemma arctan2_ahead (y x : R) : y = 0 -> 0 < x -> arctan2 y x = 0.
Proof. intros -> Hx. now apply arctan2_0_pos. Qed.

Lemma panel_between_finite (a b c d xm ym L th be : R) :
  0 <= L -> (c - a) * (c - a) + (d - b) * (d - b) = L * L ->
  arctan2 (d - b) (c - a) = th ->
  (a + c) / 2 = xm -> (b + d) / 2 = ym -> th + PI / 2 = be ->
  panel_between (fin a) (fin b) (fin c) (fin d)
  = {| x1 := fin a; y1 := fin b; x2 := fin c; y2 := fin d;
       xc := fin xm; yc := fin ym;
       plength := fin L; theta := fin th; beta := fin be |}.
Proof.
  intros HL Hsq Hth <- <- <-. unfold panel_between, fin. float_cbn.
  rewrite Hsq, Hth, !fdiv_nonzero by lra. unfold fsqrt.
  destruct (Rle_dec 0 (L * L)) as [_|Hn]; [|exfalso; nra].
  now rewrite sqrt_square.
Qed.

Lemma panel_flat_built :
  panel_between (fin 0) (fin 0) (fin 1) (fin 0) = panel_flat.
Proof.
  apply panel_between_finite; try lra. apply arctan2_ahead; lra.
Qed.

Lemma panel_up_built :
  panel_between (fin 2) (fin (-1)) (fin 2) (fin 1) = panel_up.
Proof.
  apply panel_between_finite; try lra. apply arctan2_vertical_up; lra.
Qed.

Lemma panel_down_built :
  panel_between (fin 2) (fin 1) (fin 2) (fin (-1)) = panel_down.
Proof.
  apply panel_between_finite; try lra. apply arctan2_vertical_down; lra.
Qed.

Lemma panel_point_built :
  panel_between (fin 3) (fin 0) (fin 3) (fin 0) = panel_point.
Proof.
  apply panel_between_finite; try lra.
  replace (0 - 0) with 0 by lra. replace (3 - 3) with 0 by lra.
  apply arctan2_0_0.
Qed.

Lemma panel_on_grid_built :
  panel_between (fin (-1)) (fin (-0.6)) (fin 0) (fin (-0.6)) = panel_on_grid.
Proof.
  apply panel_between_finite; try lra. apply arctan2_ahead; lra.
Qed.

(** What holds at the two ends of the resampled point set. *)
Lemma resample_closure
    (interp1d : list float -> list R -> outcome (R -> outcome float))
    (N : nat) (x y x' y' : list R) (ts x_p y_p : list float) :
  value_preserving interp1d ->
  (0 < N)%nat -> length x = length y ->
  close_contour x y = Returned (x', y') ->
  arc_parameter x' y' = Returned ts -> forallb isfinite ts = true ->
  resample interp1d N x y = Returned (x_p, y_p) ->
  length x_p = (N + 1)%nat /\ length y_p = (N + 1)%nat
  /\ nth_error x_p 0 = Some (fin (hd 0 x'))
  /\ nth_error y_p 0 = Some (fin (hd 0 y'))
  /\ nth_error x_p N = Some (fin (last x' 0))
  /\ nth_error y_p N = Some (fin (last y' 0))
  /\ isclose (hd 0 x') (last x' 0) = true
  /\ isclose (hd 0 y') (last y' 0) = true
  /\ ((x', y') = (x ++ [hd 0 x], y ++ [hd 0 y]) ->
      hd 0 x' = last x' 0 /\ hd 0 y' = last y' 0).
Proof.
  intros Hvp HN Hlen Hc Ht Hfin Hr.
  destruct (resample_ends interp1d N x y x' y' ts x_p y_p
              Hvp HN Hlen Hc Ht Hfin Hr) as [L1 [L2 [E1 [E2 [E3 E4]]]]].
  destruct (close_contour_Returned x y x' y' Hc)
    as [Hx [Hy [_ [Hhx [Hhy [Cx Cy]]]]]].
  repeat (split; [assumption|]).
  intro E. injection E as -> ->. rewrite !last_last.
  destruct x as [|x0 x]; [contradiction|]. destruct y as [|y0 y]; [contradiction|].
  split; reflexivity.
Qed.

(** * The claims *)

(** ** C1: the diagonal of the influence matrix *)

(** C1.  For every list of panels and every index [i] in range, the entry
    [A[i][i]] of the matrix that [solve_flow] assembles and hands to the
    solver is exactly 0.5: the loop assigns the constant in the branch
    [i == j], whatever the geometry (no assumption on the panels, which may
    be degenerate or non-finite). *)
Theorem solve_flow_diagonal_half (panels : list Panel) (i : nat) :
  (i < length panels)%nat ->
  mat_get (assemble_A panels) i i = Some (fin 0.5).
Proof.
  intro Hi. destruct (nth_error panels i) as [p|] eqn:E.
  - rewrite (mat_get_assemble_A panels i i p p E E).
    unfold entry. cbn [fst snd]. now rewrite Nat.eqb_refl.
  - apply nth_error_None in E. lia.
Qed.

(** The diagonal entry of a panel of length zero, next to a regular one. *)
Lemma solve_flow_diagonal_half_witness :
  (1 < length [panel_flat; panel_point])%nat
  /\ mat_get (assemble_A [panel_flat; panel_point]) 1 1 = Some (fin 0.5).
Proof.
  split.
  - simpl. lia.
  - apply (solve_flow_diagonal_half [panel_flat; panel_point] 1). simpl. lia.
Defined.

(** ** C2: the off-diagonal entries *)

(** C2.  The code does not compute what the claim states, and what its own
    system asks for.  [solve_flow] sets up the equations of the normal
    velocity: [b[i]] is minus the freestream component along the normal of
    panel [i] (line 69), the diagonal is [0.5] (line 74) and line 80 names
    the entry [vn]; but lines 76-81 never read [theta] or [beta] of panel
    [i].  Two panel lists that differ only in the orientation of panel 0
    (from (2, -1) up to (2, 1), and the same segment run downwards: same
    midpoint, normal reversed), each followed by the panel from (0, 0) to
    (1, 0), get the same non-zero entry [A[0][1]]; a component along the
    normal of panel 0 would change sign.  Hence no kernel [K] makes
    [A[i][j]] the component of [K] along the normal of panel [i]. *)
Lemma influence_ignores_normal :
  mat_get (assemble_A [panel_up; panel_flat]) 0 1 = Some (fin flat_from_ahead)
  /\ mat_get (assemble_A [panel_down; panel_flat]) 0 1 = Some (fin flat_from_ahead)
  /\ flat_from_ahead < 0
  /\ ~ normal_projection_claim.
Proof.
  repeat split.
  - exact entry_up.
  - exact entry_down.
  - exact flat_from_ahead_neg.
  - exact not_a_normal_projection.
Qed.

(** What lines 76-81 assign instead.  For distinct [i] and [j], [A[i][j]]
    is the expression
    [((X-L) ln(r2^2 + 1e-12) - X ln(r1^2 + 1e-12) + 2 Y (phi2 - phi1)) / (4 pi)]
    taken in the local frame of panel [j] at the midpoint of panel [i],
    divided by the length [L] of panel [j]: it depends on panel [i] through
    its midpoint only.  On finite data with [L <> 0] it is the real number
    [source_integral_R ... / L]. *)
Theorem solve_flow_off_diagonal (panels : list Panel) (i j : nat)
    (p_i p_j : Panel) :
  nth_error panels i = Some p_i -> nth_error panels j = Some p_j -> i <> j ->
  mat_get (assemble_A panels) i j
  = Some (source_integral p_j (xc p_i) (yc p_i) / plength p_j)%fl
  /\ forall xa ya th L x y : R,
       x1 p_j = Some xa -> y1 p_j = Some ya -> theta p_j = Some th ->
       plength p_j = Some L -> xc p_i = Some x -> yc p_i = Some y -> L <> 0 ->
       mat_get (assemble_A panels) i j
       = Some (fin (source_integral_R xa ya th L x y / L)).
Proof.
  intros Hi Hj Hij.
  assert (H : mat_get (assemble_A panels) i j
              = Some (source_integral p_j (xc p_i) (yc p_i) / plength p_j)%fl).
  { rewrite (mat_get_assemble_A panels i j p_i p_j Hi Hj). unfold entry.
    cbn [fst snd]. apply Nat.eqb_neq in Hij. rewrite Hij.
    now rewrite influence_source_integral. }
  split; [exact H|].
  intros xa ya th L x y Hx Hy Ht HL Hxc Hyc HL0. rewrite H, Hxc, Hyc.
  rewrite (source_integral_finite p_j xa ya th L x y Hx Hy Ht HL), HL.
  now rewrite fdiv_nonzero.
Qed.

Lemma solve_flow_off_diagonal_witness :
  mat_get (assemble_A [panel_up; panel_flat]) 0 1
  = Some (source_integral panel_flat (xc panel_up) (yc panel_up)
          / plength panel_flat)%fl
  /\ forall xa ya th L x y : R,
       x1 panel_flat = Some xa -> y1 panel_flat = Some ya ->
       theta panel_flat = Some th -> plength panel_flat = Some L ->
       xc panel_up = Some x -> yc panel_up = Some y -> L <> 0 ->
       mat_get (assemble_A [panel_up; panel_flat]) 0 1
       = Some (fin (source_integral_R xa ya th L x y / L)).
Proof.
  apply (solve_flow_off_diagonal [panel_up; panel_flat] 0 1 panel_up panel_flat).
  - reflexivity.
  - reflexivity.
  - lia.
Defined.

(** ** C3: contours that cannot be resampled *)

Lemma all_finite_length (l : list float) (rs : list R) :
  all_finite l = Some rs -> length rs = length l.
Proof.
  revert rs. induction l as [|[a|] l IH]; intros rs H; simpl in H.
  - now injection H as <-.
  - destruct (all_finite l) as [rs'|]; [|discriminate]. injection H as <-.
    simpl. now rewrite (IH rs').
  - discriminate.
Qed.

Lemma ref_interp1d_few_points (ts : list float) (vs : list R) :
  (length ts < 4)%nat -> ref_interp1d ts vs = Raised ValueError.
Proof.
  intro H. unfold ref_interp1d.
  destruct (all_finite ts) as [ts'|] eqn:E; [|reflexivity].
  apply all_finite_length in E. destruct (negb _); [reflexivity|].
  replace (length ts' <? 4)%nat with true; [reflexivity|].
  symmetry. apply Nat.ltb_lt. lia.
Qed.

Lemma close_contour_two_points :
  close_contour [0; 1] [0; 0] = Returned ([0; 1; 0], [0; 0; 0]).
Proof.
  unfold close_contour. cbn [getitem nth_error getlast last bind].
  rewrite isclose_false; [reflexivity|].
  rewrite Rabs_minus_sym. replace (1 - 0) with 1 by lra.
  rewrite !Rabs_pos_eq by lra. lra.
Qed.

Lemma create_panels_two_points (N : nat) :
  create_panels ref_interp1d N [0; 1] [0; 0] = Raised ValueError.
Proof.
  unfold create_panels, resample. rewrite close_contour_two_points.
  cbn [bind fst snd]. rewrite arc_parameter_same_length by reflexivity.
  cbn [bind]. rewrite ref_interp1d_few_points; [reflexivity|].
  rewrite length_map. unfold chord_lengths, cumsum. cbn. lia.
Qed.

(** C3, as stated, fails.  An empty contour makes [x[0]] raise
    [IndexError]; a two-point contour is closed to three points, fewer than
    a cubic interpolant needs, and the interpolant's [ValueError] reaches
    the caller.  Neither is a [GeometryError]. *)
Lemma create_panels_untyped_errors :
  create_panels ref_interp1d 160 [] [] = Raised IndexError
  /\ create_panels ref_interp1d 160 [0; 1] [0; 0] = Raised ValueError.
Proof.
  split.
  - reflexivity.
  - apply create_panels_two_points.
Qed.

(** C3, amended.  [create_panels] validates nothing and knows no
    [GeometryError].  On an empty [x] or [y] it raises [IndexError]; on any
    other input it fails only with an exception of numpy or scipy
    (broadcasting of arrays of different lengths, the interpolant), passed
    on as raised: in particular what [interp1d] raises on the closed
    contour, as scipy does for fewer than four points, is what the caller
    gets.  It never raises [GeometryError], and when it returns, it returns
    exactly [N] panels. *)
Theorem create_panels_failure_modes
    (interp1d : list float -> list R -> outcome (R -> outcome float))
    (N : nat) (x y : list R) :
  raises_library_only interp1d ->
  (x = [] \/ y = [] -> create_panels interp1d N x y = Raised IndexError)
  /\ (forall e : exn,
         create_panels interp1d N x y = Raised e -> library_exn e = true)
  /\ create_panels interp1d N x y <> Raised GeometryError
  /\ (forall (x' y' : list R) (ts : list float) (e : exn),
         close_contour x y = Returned (x', y') ->
         arc_parameter x' y' = Returned ts ->
         interp1d ts x' = Raised e ->
         create_panels interp1d N x y = Raised e)
  /\ (forall ps : list Panel,
         create_panels interp1d N x y = Returned ps -> length ps = N).
Proof.
  intro Hlib. split; [|split; [|split; [|split]]].
  - apply create_panels_empty.
  - intros e H. eapply create_panels_Raised; eauto.
  - intro H. apply (create_panels_Raised interp1d N x y _ Hlib) in H.
    discriminate.
  - intros x' y' ts e Hc Ht Hi. unfold create_panels, resample.
    rewrite Hc. cbn [bind fst snd]. rewrite Ht. cbn [bind]. now rewrite Hi.
  - intros ps H. apply create_panels_Returned in H.
    destruct H as [x_p [y_p [_ H]]]. now apply build_panels_Returned in H.
Qed.

(** The two-point contour, with the script's 160 panels. *)
Lemma create_panels_failure_modes_witness :
  ([0; 1] = [] \/ [0; 0] = [] ->
   create_panels ref_interp1d 160 [0; 1] [0; 0] = Raised IndexError)
  /\ (forall e : exn,
         create_panels ref_interp1d 160 [0; 1] [0; 0] = Raised e ->
         library_exn e = true)
  /\ create_panels ref_interp1d 160 [0; 1] [0; 0] <> Raised GeometryError
  /\ (forall (x' y' : list R) (ts : list float) (e : exn),
         close_contour [0; 1] [0; 0] = Returned (x', y') ->
         arc_parameter x' y' = Returned ts ->
         ref_interp1d ts x' = Raised e ->
         create_panels ref_interp1d 160 [0; 1] [0; 0] = Raised e)
  /\ (forall ps : list Panel,
         create_panels ref_interp1d 160 [0; 1] [0; 0] = Returned ps ->
         length ps = 160%nat).
Proof.
  apply (create_panels_failure_modes ref_interp1d 160 [0; 1] [0; 0]).
  exact ref_interp1d_raises_library_only.
Defined.

(** ** C4: a failing linear solve *)

(** C4, as stated, fails.  On a degenerate geometry (a panel of length
    zero next to a regular one) the matrix holds a non-finite entry, the
    solver raises [ValueError], and [solve_flow] returns [None]: no
    [SingularSystemError], no exception at all reaches the caller. *)
Lemma solve_flow_swallows_failure :
  mat_get (assemble_A [panel_flat; panel_point]) 0 1 = Some None
  /\ ref_linalg_solve (assemble_A [panel_flat; panel_point])
       (rhs [panel_flat; panel_point] (fin (radians 0)) (fin 1))
     = Raised ValueError
  /\ solve_flow ref_linalg_solve [panel_flat; panel_point] 0 1 = Returned None.
Proof.
  split; [|split].
  - rewrite (mat_get_assemble_A [panel_flat; panel_point] 0 1
               panel_flat panel_point eq_refl eq_refl).
    unfold entry. cbn [fst snd Nat.eqb].
    now rewrite (influence_zero_length panel_flat panel_point eq_refl).
  - apply ref_linalg_solve_degenerate.
  - apply solve_flow_solver_raises with (e := ValueError).
    apply ref_linalg_solve_degenerate.
Qed.

(** C4, amended.  Whatever exception [linalg.solve] raises on the
    assembled system, [solve_flow] catches it and returns [None]; the only
    exception [solve_flow] itself can raise is an [IndexError] (when the
    solver returns fewer strengths than there are panels), so it never
    raises [SingularSystemError]. *)
Theorem solve_flow_solver_failure
    (linalg_solve : list (list float) -> list float -> outcome (list float))
    (panels : list Panel) (alpha_deg V_inf : R) :
  (forall e : exn,
      linalg_solve (assemble_A panels)
        (rhs panels (fin (radians alpha_deg)) (fin V_inf)) = Raised e ->
      solve_flow linalg_solve panels alpha_deg V_inf = Returned None)
  /\ (forall e : exn,
         solve_flow linalg_solve panels alpha_deg V_inf = Raised e ->
         e = IndexError)
  /\ solve_flow linalg_solve panels alpha_deg V_inf <> Raised SingularSystemError.
Proof.
  split; [|split].
  - intros e H. eapply solve_flow_solver_raises; eauto.
  - intros e H. eapply solve_flow_raises; eauto.
  - intro H. apply solve_flow_raises in H. discriminate.
Qed.

(** ** C5: panels of length zero *)

(** C5, as stated, fails.  With one panel asked for, the closed triangle
    is resampled at its two coinciding ends, and the panel between them,
    of length 0, is returned. *)
Lemma create_panels_zero_length_panel :
  create_panels ref_interp1d 1 tri_x tri_y = Returned [panel_te]
  /\ plength panel_te = fin 0.
Proof.
  split.
  - exact create_panels_tri_1.
  - reflexivity.
Qed.

(** C5, amended.  [create_panels] does not look at the panel lengths: it
    never raises [DegeneratePanelError], and every panel it returns carries
    the length [sqrt((x2-x1)^2 + (y2-y1)^2)] of its endpoints, whatever it
    is. *)
Theorem create_panels_no_length_check
    (interp1d : list float -> list R -> outcome (R -> outcome float))
    (N : nat) (x y : list R) :
  raises_library_only interp1d ->
  create_panels interp1d N x y <> Raised DegeneratePanelError
  /\ forall (ps : list Panel) (p : Panel),
       create_panels interp1d N x y = Returned ps -> In p ps ->
       plength p = fsqrt (fsq (x2 p - x1 p) + fsq (y2 p - y1 p))%fl.
Proof.
  intro Hlib. split.
  - intro H. apply (create_panels_Raised interp1d N x y _ Hlib) in H.
    discriminate.
  - intros ps p H Hin. apply create_panels_Returned in H.
    destruct H as [x_p [y_p [_ H]]]. apply build_panels_Returned in H.
    destruct H as [_ H]. apply In_nth_error in Hin. destruct Hin as [k Hk].
    destruct (H k p Hk) as [a [b [c [d [_ [_ [_ [_ ->]]]]]]]]. reflexivity.
Qed.

Lemma create_panels_no_length_check_witness :
  create_panels ref_interp1d 1 tri_x tri_y = Returned [panel_te]
  /\ plength panel_te
     = fsqrt (fsq (x2 panel_te - x1 panel_te) + fsq (y2 panel_te - y1 panel_te))%fl.
Proof.
  split.
  - exact create_panels_tri_1.
  - apply (proj2 (create_panels_no_length_check ref_interp1d 1 tri_x tri_y
                    ref_interp1d_raises_library_only) [panel_te] panel_te).
    + exact create_panels_tri_1.
    + now left.
Defined.

(** ** C6: surface velocity and pressure *)

(** C6, as stated, fails on what is returned: the dictionary that
    [solve_flow] returns has the keys [sigma], [Cp] and [panels] only, so
    the tangential velocity is not handed to the caller. *)
Lemma solve_flow_returns_no_V_t :
  solve_flow ref_linalg_solve [panel_flat] 0 1 = Returned (Some flat_state)
  /\ dict_keys flat_state = ["sigma"; "Cp"; "panels"]%string
  /\ dict_get flat_state "V_t" = None.
Proof.
  split; [|split].
  - apply solve_flow_flat. lra.
  - reflexivity.
  - reflexivity.
Qed.

(** C6, amended.  When the solver returns one strength per panel, the loop
    of lines 86-90 computes, for every panel [i] in the order of the panel
    list, [V_t[i]] = the freestream component along the panel plus
    [sigma[i]/2] and [Cp[i] = 1 - (V_t[i]/V_inf)^2]; [solve_flow] returns
    [sigma], [Cp] and the panel list, and [V_t] stays local. *)
Theorem solve_flow_surface_pressure
    (linalg_solve : list (list float) -> list float -> outcome (list float))
    (panels : list Panel) (alpha_deg V_inf : R) (sigma : list float) :
  linalg_solve (assemble_A panels)
    (rhs panels (fin (radians alpha_deg)) (fin V_inf)) = Returned sigma ->
  length sigma = length panels ->
  exists V_t Cp : list float,
    surface panels sigma (fin (radians alpha_deg)) (fin V_inf)
    = Returned (V_t, Cp)
    /\ solve_flow linalg_solve panels alpha_deg V_inf
       = Returned (Some [("sigma", VVec sigma); ("Cp", VVec Cp);
                         ("panels", VPanels panels)]%string)
    /\ length V_t = length panels /\ length Cp = length panels
    /\ forall (i : nat) (p : Panel) (s : float),
         nth_error panels i = Some p -> nth_error sigma i = Some s ->
         nth_error V_t i
         = Some (vt_inf (fin (radians alpha_deg)) (fin V_inf) p + s / fin 2)%fl
         /\ nth_error Cp i
            = Some (fin 1 - fsq ((vt_inf (fin (radians alpha_deg)) (fin V_inf) p
                                  + s / fin 2) / fin V_inf))%fl.
Proof.
  intros Hs Hlen.
  assert (Hle : (length panels <= length sigma)%nat) by lia.
  eexists _, _. split; [apply surface_returns; exact Hle|].
  split; [apply solve_flow_returns; assumption|].
  rewrite !length_map, enumerate_length.
  split; [reflexivity|]. split; [reflexivity|].
  intros i p s Hp Hsi. split.
  - rewrite nth_error_map, nth_error_enumerate, Hp. cbn [option_map fst snd].
    now rewrite (nth_error_nth sigma i None Hsi).
  - rewrite nth_error_map, nth_error_enumerate, Hp. cbn [option_map fst snd].
    now rewrite (nth_error_nth sigma i None Hsi).
Qed.

Lemma solve_flow_surface_pressure_witness :
  exists V_t Cp : list float,
    surface [panel_flat] [fin 0] (fin (radians 0)) (fin 1) = Returned (V_t, Cp)
    /\ solve_flow ref_linalg_solve [panel_flat] 0 1
       = Returned (Some [("sigma", VVec [fin 0]); ("Cp", VVec Cp);
                         ("panels", VPanels [panel_flat])]%string)
    /\ length V_t = length [panel_flat] /\ length Cp = length [panel_flat]
    /\ forall (i : nat) (p : Panel) (s : float),
         nth_error [panel_flat] i = Some p -> nth_error [fin 0] i = Some s ->
         nth_error V_t i
         = Some (vt_inf (fin (radians 0)) (fin 1) p + s / fin 2)%fl
         /\ nth_error Cp i
            = Some (fin 1 - fsq ((vt_inf (fin (radians 0)) (fin 1) p
                                  + s / fin 2) / fin 1))%fl.
Proof.
  apply (solve_flow_surface_pressure ref_linalg_solve [panel_flat] 0 1 [fin 0]).
  - apply ref_linalg_solve_flat.
  - reflexivity.
Defined.

(** ** C7: the field query *)

Lemma induced_R_zero_strength (xa ya th L x y : R) :
  induced_R xa ya th L 0 x y = (0, 0).
Proof. unfold induced_R. f_equal; unfold Rdiv; ring. Qed.

Lemma compute_flow_field_flat :
  compute_flow_field flat_state 0 1 = Returned flat_field.
Proof.
  rewrite (compute_flow_field_returns flat_state [panel_flat] [fin 0] 0 1)
    by (try reflexivity; simpl; lia).
  change (grid_X 1) with [[fin (-0.5)]]. change (grid_Y 1) with [[fin (-0.6)]].
  change (enumerate [panel_flat]) with [(0%nat, panel_flat)].
  unfold grid_zip, grid_map, velocity_at, freestream, flat_field.
  cbn [map combine fst snd fold_left nth]. unfold fin.
  rewrite (induced_finite panel_flat 0 0 0 1 0 (-0.5) (-0.6)) by reflexivity.
  rewrite induced_R_zero_strength, radians_0.
  cbn [fst snd fadd fmul fsub fsq fcos fsin lift1 lift2].
  rewrite cos_0, sin_0.
  replace (1 * 1 + 0) with 1 by lra. replace (1 * 0 + 0) with 0 by lra.
  replace (1 * 1 + 0 * 0) with 1 by lra.
  unfold fsqrt. destruct (Rle_dec 0 1); [|lra]. rewrite sqrt_1.
  cbn [fsub fsq fmul lift2]. replace (1 - 1 * 1) with 0 by lra. reflexivity.
Qed.

Lemma not_field_Cp_claim : ~ field_Cp_claim.
Proof.
  intro H.
  assert (Hs : solve_flow ref_linalg_solve [panel_flat] 0 2
               = Returned (Some flat_state)) by (apply solve_flow_flat; lra).
  specialize (H ref_linalg_solve [panel_flat] 0 2 1%nat flat_state flat_field
                [[fin 1]] [[fin 0]] Hs compute_flow_field_flat eq_refl eq_refl).
  unfold grid_map, fin in H. cbn [map] in H. rewrite fdiv_nonzero in H by lra.
  cbn [fsq fmul fsub lift2] in H. injection H as H. lra.
Qed.

(** C7, as stated, fails.  The state solved for the flat panel at
    [V_inf = 2] is the one solved at [V_inf = 1]; on it the field query,
    which takes no bounds, samples the point (-0.5, -0.6) of its fixed
    rectangle, superposes a freestream of speed 1 and returns
    [Cp = 1 - 1^2 = 0], where [1 - (V/V_inf)^2] is [1 - (1/2)^2 = 0.75]. *)
Lemma flow_field_fixed_grid_unit_speed :
  solve_flow ref_linalg_solve [panel_flat] 0 2 = Returned (Some flat_state)
  /\ compute_flow_field flat_state 0 1 = Returned flat_field
  /\ (fin 1 - fsq (fin 1 / fin 2))%fl = fin (3 / 4)
  /\ dict_get flat_field "Cp" = Some (VMat [[fin 0]])
  /\ ~ field_Cp_claim.
Proof.
  split; [|split; [|split; [|split]]].
  - apply solve_flow_flat. lra.
  - exact compute_flow_field_flat.
  - unfold fin. rewrite fdiv_nonzero by lra. cbn [fsq fmul fsub lift2].
    f_equal. lra.
  - reflexivity.
  - exact not_field_Cp_claim.
Qed.

Lemma Cp_unit_speed (m : float) :
  (fin 1 - fsq m)%fl = (fin 1 - fsq (m / fin 1))%fl.
Proof.
  destruct m as [m|]; [|reflexivity]. unfold fin.
  rewrite fdiv_nonzero by lra. cbn [fsq fmul fsub lift2]. f_equal. field.
Qed.

Lemma grid_X_shape (res : nat) :
  length (grid_X res) = res /\ Forall (fun r => length r = res) (grid_X res).
Proof.
  unfold grid_X, grid_map, meshgrid. cbn [fst]. split.
  - now rewrite !length_map, linspace_length.
  - apply Forall_forall. intros r Hr. apply in_map_iff in Hr.
    destruct Hr as [r0 [<- Hr0]]. apply in_map_iff in Hr0.
    destruct Hr0 as [y [<- _]]. now rewrite length_map, linspace_length.
Qed.

Lemma grid_Y_shape (res : nat) :
  length (grid_Y res) = res /\ Forall (fun r => length r = res) (grid_Y res).
Proof.
  unfold grid_Y, grid_map, meshgrid. cbn [snd]. split.
  - now rewrite !length_map, linspace_length.
  - apply Forall_forall. intros r Hr. apply in_map_iff in Hr.
    destruct Hr as [r0 [<- Hr0]]. apply in_map_iff in Hr0.
    destruct Hr0 as [y [<- _]]. now rewrite !length_map, linspace_length.
Qed.

(** C7, amended.  [compute_flow_field] takes a state, an angle and a
    resolution [res], and no bounds: on the fixed rectangle
    [-0.5, 1.5] x [-0.6, 0.6], sampled by [np.linspace] and [np.meshgrid]
    into [res] x [res] points, it returns at every point the sum of a
    freestream of unit speed at the given angle and of the velocities
    induced by all panels ([U], [V]), its magnitude
    [V_mag = sqrt(U^2 + V^2)] and [Cp = 1 - V_mag^2], which is
    [1 - (V_mag/V_inf)^2] for [V_inf = 1]. *)
Theorem compute_flow_field_superposition (result : dict) (panels : list Panel)
    (sigma : list float) (alpha_deg : R) (res : nat) :
  dict_get result "panels" = Some (VPanels panels) ->
  dict_get result "sigma" = Some (VVec sigma) ->
  length sigma = length panels ->
  let vel := velocity_at sigma (freestream (fin (radians alpha_deg)))
                         (enumerate panels) in
  let U := grid_zip (fun x y => fst (vel x y)) (grid_X res) (grid_Y res) in
  let V := grid_zip (fun x y => snd (vel x y)) (grid_X res) (grid_Y res) in
  let V_mag := grid_zip (fun u v => fsqrt (fsq u + fsq v)%fl) U V in
  compute_flow_field result alpha_deg res
  = Returned [("X", VMat (grid_X res)); ("Y", VMat (grid_Y res));
              ("U", VMat U); ("V", VMat V); ("V_mag", VMat V_mag);
              ("Cp", VMat (grid_map (fun m => fin 1 - fsq (m / fin 1))%fl V_mag))]%string
  /\ length (grid_X res) = res /\ Forall (fun r => length r = res) (grid_X res)
  /\ length (grid_Y res) = res /\ Forall (fun r => length r = res) (grid_Y res).
Proof.
  intros Hp Hs Hlen vel U V V_mag. split.
  - assert (E : forall G : list (list float),
               grid_map (fun m => fin 1 - fsq (m / fin 1))%fl G
               = grid_map (fun m => fin 1 - fsq m)%fl G).
    { intro G. unfold grid_map. apply map_ext. intro r. apply map_ext.
      intro m. symmetry. apply Cp_unit_speed. }
    rewrite E. apply compute_flow_field_returns; auto. lia.
  - destruct (grid_X_shape res), (grid_Y_shape res). auto.
Qed.

Lemma compute_flow_field_superposition_witness :
  let vel := velocity_at [fin 1] (freestream (fin (radians 0)))
                         (enumerate [panel_on_grid]) in
  let U := grid_zip (fun x y => fst (vel x y)) (grid_X 1) (grid_Y 1) in
  let V := grid_zip (fun x y => snd (vel x y)) (grid_X 1) (grid_Y 1) in
  let V_mag := grid_zip (fun u v => fsqrt (fsq u + fsq v)%fl) U V in
  compute_flow_field grid_state 0 1
  = Returned [("X", VMat (grid_X 1)); ("Y", VMat (grid_Y 1));
              ("U", VMat U); ("V", VMat V); ("V_mag", VMat V_mag);
              ("Cp", VMat (grid_map (fun m => fin 1 - fsq (m / fin 1))%fl V_mag))]%string
  /\ length (grid_X 1) = 1%nat /\ Forall (fun r => length r = 1%nat) (grid_X 1)
  /\ length (grid_Y 1) = 1%nat /\ Forall (fun r => length r = 1%nat) (grid_Y 1).
Proof.
  apply (compute_flow_field_superposition grid_state [panel_on_grid] [fin 1] 0 1).
  - reflexivity.
  - reflexivity.
  - reflexivity.
Defined.

(** ** C8: finite values on and near the panels *)

Lemma induced_log_argument (p : Panel) (s x y : float) :
  induced p s x y
  = (let X_loc := ((x - x1 p) * fcos (theta p) + (y - y1 p) * fsin (theta p))%fl in
     let Y_loc := (- (x - x1 p) * fsin (theta p) + (y - y1 p) * fcos (theta p))%fl in
     let J := (fin 0.5 * flog (log_argument p x y))%fl in
     let I := (farctan2 Y_loc (X_loc - plength p) - farctan2 Y_loc X_loc)%fl in
     ((J * fcos (theta p) - I * fsin (theta p)) * s / (fin 2 * fin PI),
      (J * fsin (theta p) + I * fcos (theta p)) * s / (fin 2 * fin PI)))%fl.
Proof. reflexivity. Qed.



(** *** Lines 119 and 120 within the range of doubles *)







(** *** A grid point on the end of a panel *)



(** *** A grid point on the midpoint of a panel of large strength *)









(** ** C9: the resampled points *)

Lemma resample_near_2 :
  resample ref_interp1d 2 near_x near_y
  = Returned ([fin 4; fin near_mid_x; fin 4.00001],
              [fin 0; fin near_mid_y; fin 0]).
Proof.
  rewrite resample_near, cosine_spacing_2. cbn [map].
  fold near_mid_x. fold near_mid_y. unfold near_ts, near_x, near_y.
  rewrite !lagrange_first, !lagrange_fourth by apply increasing_near_ts.
  reflexivity.
Qed.

(** C9, as stated, fails.  A contour given closed up to the tolerance of
    [np.isclose] (last abscissa 4.00001 against 4) gets no closing point;
    the interpolant passes through both ends, and the first and the last
    resampled point differ. *)
Lemma resample_ends_differ :
  resample ref_interp1d 1 near_x near_y
  = Returned ([fin 4; fin 4.00001], [fin 0; fin 0])
  /\ isclose 4 4.00001 = true
  /\ fin 4 <> fin 4.00001.
Proof.
  split; [|split].
  - exact resample_near_1.
  - apply isclose_true. rewrite Rabs_minus_sym.
    replace (4.00001 - 4) with 0.00001 by lra. rewrite !Rabs_pos_eq by lra. lra.
  - unfold fin. intro H. injection H as H. lra.
Qed.

(** C9, amended.  Let [(x', y')] be the contour after closing and [ts] its
    arc-length parameters, finite (the contour has a length that is not
    zero), let the interpolants pass through their data, and let the
    resampling return: scipy builds both interpolants and evaluates them,
    which it refuses with [ValueError] on fewer than four points after
    closing (C3: [x = [0, 1]], [y = [0, 0]]).  Then, with [N >= 1] panels
    asked for, the two interpolants built on [(ts, x')] and [(ts, y')] were
    evaluated at the [N + 1] parameters [t_k = 0.5 (1 - cos(k pi / N))],
    [k = 0 .. N], and [N + 1] points are returned.  The first is the first
    point of the contour and the last is its last point: they agree up to
    the tolerance of [np.isclose] ([|a - b| <= 1e-8 + 1e-5 |b|] on each
    coordinate), and exactly when the closing point had to be appended. *)
Theorem resample_cosine_closed
    (interp1d : list float -> list R -> outcome (R -> outcome float))
    (N : nat) (x y x' y' : list R) (ts x_p y_p : list float) :
  value_preserving interp1d ->
  (0 < N)%nat -> length x = length y ->
  close_contour x y = Returned (x', y') ->
  arc_parameter x' y' = Returned ts -> forallb isfinite ts = true ->
  resample interp1d N x y = Returned (x_p, y_p) ->
  cosine_spacing N
  = map (fun k => 0.5 * (1 - cos (INR k * PI / INR N))) (seq 0 (N + 1))
  /\ (exists fx fy : R -> outcome float,
         interp1d ts x' = Returned fx /\ interp1d ts y' = Returned fy
         /\ mapM fx (cosine_spacing N) = Returned x_p
         /\ mapM fy (cosine_spacing N) = Returned y_p)
  /\ length x_p = (N + 1)%nat /\ length y_p = (N + 1)%nat
  /\ nth_error x_p 0 = Some (fin (hd 0 x'))
  /\ nth_error y_p 0 = Some (fin (hd 0 y'))
  /\ nth_error x_p N = Some (fin (last x' 0))
  /\ nth_error y_p N = Some (fin (last y' 0))
  /\ isclose (hd 0 x') (last x' 0) = true
  /\ isclose (hd 0 y') (last y' 0) = true
  /\ ((x', y') = (x ++ [hd 0 x], y ++ [hd 0 y]) ->
      hd 0 x' = last x' 0 /\ hd 0 y' = last y' 0).
Proof.
  intros Hvp HN Hlen Hc Ht Hfin Hr.
  split; [now apply cosine_spacing_formula|].
  split.
  { destruct (resample_Returned interp1d N x y x_p y_p Hr)
      as [x'' [y'' [ts' [fx [fy [Hc' [Ht' [Hfx [Hfy [Hxp Hyp]]]]]]]]]].
    rewrite Hc in Hc'. injection Hc' as <- <-.
    rewrite Ht in Ht'. injection Ht' as <-. exists fx, fy. auto. }
  exact (resample_closure interp1d N x y x' y' ts x_p y_p
           Hvp HN Hlen Hc Ht Hfin Hr).
Qed.

Lemma resample_cosine_closed_witness :
  cosine_spacing 2
  = map (fun k => 0.5 * (1 - cos (INR k * PI / INR 2))) (seq 0 (2 + 1))
  /\ (exists fx fy : R -> outcome float,
         ref_interp1d (map fin near_ts) near_x = Returned fx
         /\ ref_interp1d (map fin near_ts) near_y = Returned fy
         /\ mapM fx (cosine_spacing 2)
            = Returned [fin 4; fin near_mid_x; fin 4.00001]
         /\ mapM fy (cosine_spacing 2)
            = Returned [fin 0; fin near_mid_y; fin 0])
  /\ length [fin 4; fin near_mid_x; fin 4.00001] = (2 + 1)%nat
  /\ length [fin 0; fin near_mid_y; fin 0] = (2 + 1)%nat
  /\ nth_error [fin 4; fin near_mid_x; fin 4.00001] 0 = Some (fin (hd 0 near_x))
  /\ nth_error [fin 0; fin near_mid_y; fin 0] 0 = Some (fin (hd 0 near_y))
  /\ nth_error [fin 4; fin near_mid_x; fin 4.00001] 2
     = Some (fin (last near_x 0))
  /\ nth_error [fin 0; fin near_mid_y; fin 0] 2 = Some (fin (last near_y 0))
  /\ isclose (hd 0 near_x) (last near_x 0) = true
  /\ isclose (hd 0 near_y) (last near_y 0) = true
  /\ ((near_x, near_y) = (near_x ++ [hd 0 near_x], near_y ++ [hd 0 near_y]) ->
      hd 0 near_x = last near_x 0 /\ hd 0 near_y = last near_y 0).
Proof.
  apply (resample_cosine_closed ref_interp1d 2 near_x near_y near_x near_y
           (map fin near_ts)).
  - exact ref_interp1d_value_preserving.
  - lia.
  - reflexivity.
  - exact close_contour_near.
  - exact arc_parameter_near.
  - reflexivity.
  - exact resample_near_2.
Defined.

(** ** C10: the chain of panels *)

Lemma create_panels_near_2 :
  create_panels ref_interp1d 2 near_x near_y
  = Returned [panel_between (fin 4) (fin 0) (fin near_mid_x) (fin near_mid_y);
              panel_between (fin near_mid_x) (fin near_mid_y) (fin 4.00001) (fin 0)].
Proof.
  unfold create_panels. rewrite resample_near_2. reflexivity.
Qed.

(** C10, as stated, fails on the closure.  For the contour closed up to
    tolerance, two panels are returned; the second endpoint of the last one
    is (4.00001, 0) and the first endpoint of the first one is (4, 0). *)
Lemma panel_chain_not_closed :
  create_panels ref_interp1d 2 near_x near_y
  = Returned [panel_between (fin 4) (fin 0) (fin near_mid_x) (fin near_mid_y);
              panel_between (fin near_mid_x) (fin near_mid_y) (fin 4.00001) (fin 0)]
  /\ x1 (panel_between (fin 4) (fin 0) (fin near_mid_x) (fin near_mid_y)) = fin 4
  /\ x2 (panel_between (fin near_mid_x) (fin near_mid_y) (fin 4.00001) (fin 0))
     = fin 4.00001
  /\ fin 4.00001 <> fin 4.
Proof.
  split; [|split; [|split]].
  - exact create_panels_near_2.
  - reflexivity.
  - reflexivity.
  - unfold fin. intro H. injection H as H. lra.
Qed.

(** C10, amended.  Under the assumptions of C9 (finite arc-length
    parameters, interpolants through their data, [N >= 1]), a successful
    [create_panels] returns exactly [N] panels; the second endpoint of each
    panel is exactly the first endpoint of the next; the control point of
    each panel is the midpoint [((x1 + x2)/2, (y1 + y2)/2)] of its
    endpoints; the first panel starts at the first point of the closed
    contour and the last panel ends at its last point, which agree up to
    the tolerance of [np.isclose], and exactly when the closing point had
    to be appended. *)
Theorem create_panels_chain
    (interp1d : list float -> list R -> outcome (R -> outcome float))
    (N : nat) (x y x' y' : list R) (ts : list float) (ps : list Panel) :
  value_preserving interp1d ->
  (0 < N)%nat -> length x = length y ->
  close_contour x y = Returned (x', y') ->
  arc_parameter x' y' = Returned ts -> forallb isfinite ts = true ->
  create_panels interp1d N x y = Returned ps ->
  length ps = N
  /\ (forall (k : nat) (p q : Panel),
         nth_error ps k = Some p -> nth_error ps (k + 1) = Some q ->
         x2 p = x1 q /\ y2 p = y1 q)
  /\ (forall p : Panel,
         In p ps ->
         xc p = ((x1 p + x2 p) / fin 2)%fl /\ yc p = ((y1 p + y2 p) / fin 2)%fl)
  /\ (forall p q : Panel,
         nth_error ps 0 = Some p -> nth_error ps (N - 1) = Some q ->
         x1 p = fin (hd 0 x') /\ y1 p = fin (hd 0 y')
         /\ x2 q = fin (last x' 0) /\ y2 q = fin (last y' 0))
  /\ isclose (hd 0 x') (last x' 0) = true
  /\ isclose (hd 0 y') (last y' 0) = true
  /\ ((x', y') = (x ++ [hd 0 x], y ++ [hd 0 y]) ->
      hd 0 x' = last x' 0 /\ hd 0 y' = last y' 0).
Proof.
  intros Hvp HN Hlen Hc Ht Hfin Hcp.
  destruct (create_panels_Returned interp1d N x y ps Hcp) as [x_p [y_p [Hr Hb]]].
  destruct (build_panels_Returned N x_p y_p ps Hb) as [HL Hps].
  destruct (resample_closure interp1d N x y x' y' ts x_p y_p
              Hvp HN Hlen Hc Ht Hfin Hr)
    as [_ [_ [E1 [E2 [E3 [E4 [Cx [Cy Hex]]]]]]]].
  split; [exact HL|]. split; [|split; [|split]].
  - intros k p q Hp Hq.
    destruct (Hps k p Hp) as [a [b [c [d [_ [_ [Hc1 [Hd1 ->]]]]]]]].
    destruct (Hps (k + 1)%nat q Hq) as [a' [b' [c' [d' [Ha' [Hb' [_ [_ ->]]]]]]]].
    cbn [x1 y1 x2 y2 panel_between]. split; congruence.
  - intros p Hin. apply In_nth_error in Hin. destruct Hin as [k Hk].
    destruct (Hps k p Hk) as [a [b [c [d [_ [_ [_ [_ ->]]]]]]]].
    split; reflexivity.
  - intros p q Hp Hq.
    destruct (Hps 0%nat p Hp) as [a [b [c [d [Ha [Hb' [_ [_ ->]]]]]]]].
    destruct (Hps (N - 1)%nat q Hq) as [a' [b' [c' [d' [_ [_ [Hc' [Hd' ->]]]]]]]].
    replace (N - 1 + 1)%nat with N in Hc', Hd' by lia.
    cbn [x1 y1 x2 y2 panel_between]. repeat split; congruence.
  - auto.
Qed.

Lemma create_panels_chain_witness :
  length [panel_between (fin 4) (fin 0) (fin near_mid_x) (fin near_mid_y);
          panel_between (fin near_mid_x) (fin near_mid_y) (fin 4.00001) (fin 0)]
  = 2%nat
  /\ (forall (k : nat) (p q : Panel),
         nth_error
           [panel_between (fin 4) (fin 0) (fin near_mid_x) (fin near_mid_y);
            panel_between (fin near_mid_x) (fin near_mid_y) (fin 4.00001) (fin 0)]
           k = Some p ->
         nth_error
           [panel_between (fin 4) (fin 0) (fin near_mid_x) (fin near_mid_y);
            panel_between (fin near_mid_x) (fin near_mid_y) (fin 4.00001) (fin 0)]
           (k + 1) = Some q ->
         x2 p = x1 q /\ y2 p = y1 q)
  /\ (forall p : Panel,
         In p [panel_between (fin 4) (fin 0) (fin near_mid_x) (fin near_mid_y);
               panel_between (fin near_mid_x) (fin near_mid_y) (fin 4.00001) (fin 0)] ->
         xc p = ((x1 p + x2 p) / fin 2)%fl /\ yc p = ((y1 p + y2 p) / fin 2)%fl)
  /\ (forall p q : Panel,
         nth_error
           [panel_between (fin 4) (fin 0) (fin near_mid_x) (fin near_mid_y);
            panel_between (fin near_mid_x) (fin near_mid_y) (fin 4.00001) (fin 0)]
           0 = Some p ->
         nth_error
           [panel_between (fin 4) (fin 0) (fin near_mid_x) (fin near_mid_y);
            panel_between (fin near_mid_x) (fin near_mid_y) (fin 4.00001) (fin 0)]
           (2 - 1) = Some q ->
         x1 p = fin (hd 0 near_x) /\ y1 p = fin (hd 0 near_y)
         /\ x2 q = fin (last near_x 0) /\ y2 q = fin (last near_y 0))
  /\ isclose (hd 0 near_x) (last near_x 0) = true
  /\ isclose (hd 0 near_y) (last near_y 0) = true
  /\ ((near_x, near_y) = (near_x ++ [hd 0 near_x], near_y ++ [hd 0 near_y]) ->
      hd 0 near_x = last near_x 0 /\ hd 0 near_y = last near_y 0).
Proof.
  apply (create_panels_chain ref_interp1d 2 near_x near_y near_x near_y
           (map fin near_ts)).
  - exact ref_interp1d_value_preserving.
  - lia.
  - reflexivity.
  - exact close_contour_near.
  - exact arc_parameter_near.
  - reflexivity.
  - exact create_panels_near_2.
Defined.

(** * Further properties of the code

    Properties of [solve_flow], [compute_flow_field] and [create_panels]
    that the code shows besides the claims, and of the functions around
    them: [read_airfoil_dat], [load_xfoil_polar] and the plotting methods of
    [AirfoilComparator]. *)

(** ** The linear system *)

Lemma nth_error_map_enumerate {A B : Type} (f : nat * A -> B) (l : list A)
    (i : nat) (a : A) :
  nth_error l i = Some a -> nth_error (map f (enumerate l)) i = Some (f (i, a)).
Proof.
  intro H. rewrite nth_error_map, nth_error_enumerate, H. reflexivity.
Qed.

(** X1.  For every panel list, angle of attack and speed V_inf, the right-hand
    side b that solve_flow builds has one entry per panel, and the entry
    of a panel whose normal angle beta is finite is -V_inf * cos(alpha -
    beta): minus the freestream component along that panel's normal. *)
Theorem rhs_normal_component (panels : list Panel) (alpha_deg V_inf : R)
    (i : nat) (p : Panel) (b : R) :
  nth_error panels i = Some p -> beta p = Some b ->
  length (rhs panels (fin (radians alpha_deg)) (fin V_inf)) = length panels
  /\ nth_error (rhs panels (fin (radians alpha_deg)) (fin V_inf)) i
     = Some (fin (- (V_inf * cos (radians alpha_deg - b)))).
Proof.
  intros Hp Hb. rewrite rhs_entries. split.
  - now rewrite length_map, enumerate_length.
  - rewrite (nth_error_map_enumerate _ panels i p Hp). cbn [snd].
    rewrite Hb. float_cbn. unfold fin. do 2 apply f_equal.
    rewrite cos_minus. ring.
Qed.

Lemma rhs_normal_component_witness :
  nth_error [panel_flat; panel_up] 1 = Some panel_up
  /\ beta panel_up = Some PI
  /\ length (rhs [panel_flat; panel_up] (fin (radians 30)) (fin 2)) = 2%nat
  /\ nth_error (rhs [panel_flat; panel_up] (fin (radians 30)) (fin 2)) 1
     = Some (fin (- (2 * cos (radians 30 - PI)))).
Proof.
  split; [reflexivity|]. split; [reflexivity|].
  apply (rhs_normal_component [panel_flat; panel_up] 30 2 1 panel_up PI);
    reflexivity.
Defined.

(** X2.  The matrix A that solve_flow assembles is square: it has one row per
    panel and every row has one entry per panel. *)
Theorem assemble_A_square (panels : list Panel) :
  length (assemble_A panels) = length panels
  /\ Forall (fun row => length row = length panels) (assemble_A panels).
Proof.
  rewrite assemble_A_entries. split.
  - now rewrite length_map, enumerate_length.
  - apply Forall_forall. intros row Hrow. apply in_map_iff in Hrow.
    destruct Hrow as [ip [<- _]]. now rewrite length_map, enumerate_length.
Qed.

(** X3.  If panel j has length zero, then for every other panel i the entry
    A[i][j] that solve_flow assembles is non-finite: line 81 divides by
    the length of panel j without a check. *)
Theorem assemble_A_zero_length_column (panels : list Panel) (i j : nat)
    (p_i p_j : Panel) :
  nth_error panels i = Some p_i -> nth_error panels j = Some p_j -> i <> j ->
  plength p_j = Some 0 ->
  mat_get (assemble_A panels) i j = Some None.
Proof.
  intros Hi Hj Hij HL. rewrite (mat_get_assemble_A panels i j p_i p_j Hi Hj).
  unfold entry. cbn [fst snd]. apply Nat.eqb_neq in Hij. rewrite Hij.
  now rewrite influence_zero_length.
Qed.

Lemma assemble_A_zero_length_column_witness :
  nth_error [panel_flat; panel_point] 0 = Some panel_flat
  /\ nth_error [panel_flat; panel_point] 1 = Some panel_point
  /\ 0%nat <> 1%nat
  /\ plength panel_point = Some 0
  /\ mat_get (assemble_A [panel_flat; panel_point]) 0 1 = Some None.
Proof.
  split; [reflexivity|]. split; [reflexivity|]. split; [discriminate|].
  split; [reflexivity|].
  apply (assemble_A_zero_length_column [panel_flat; panel_point] 0 1
           panel_flat panel_point); [reflexivity|reflexivity|discriminate|reflexivity].
Defined.

(** ** [solve_flow]: the state it returns *)

(** The surface loop stops at the first panel without a strength. *)
Lemma surface_loop_short (sigma : list float) (alpha V_inf : float)
    (l : list Panel) :
  forall (k : nat) (st : list float * list float),
    (k <= length sigma < k + length l)%nat ->
    foldM (surface_step sigma alpha V_inf) (combine (seq k (length l)) l) st
    = Raised IndexError.
Proof.
  induction l as [|p l IH]; intros k [V C] Hk; simpl in *; [lia|].
  destruct (getitem sigma k) as [s|e] eqn:Es; cbn [bind].
  2:{ apply getitem_Raised in Es. now subst. }
  destruct (getitem (set_nth _ _ _) k) as [v|e] eqn:Ev; cbn [bind].
  2:{ apply getitem_Raised in Ev. now subst. }
  apply IH. apply getitem_Returned in Es.
  assert (k < length sigma)%nat by (apply nth_error_Some; congruence).
  lia.
Qed.

Lemma surface_short (panels : list Panel) (sigma : list float)
    (alpha V_inf : float) :
  (length sigma < length panels)%nat ->
  surface panels sigma alpha V_inf = Raised IndexError.
Proof.
  intro H. unfold surface, enumerate. apply surface_loop_short. lia.
Qed.

(** What a returned state tells. *)
Lemma solve_flow_Some
    (linalg_solve : list (list float) -> list float -> outcome (list float))
    (panels : list Panel) (alpha_deg V_inf : R) (state : dict) :
  solve_flow linalg_solve panels alpha_deg V_inf = Returned (Some state) ->
  exists sigma : list float,
    linalg_solve (assemble_A panels)
      (rhs panels (fin (radians alpha_deg)) (fin V_inf)) = Returned sigma
    /\ (length panels <= length sigma)%nat
    /\ state = [("sigma", VVec sigma);
                ("Cp", VVec (map (fun ip => Cp_of (fin (radians alpha_deg)) (fin V_inf)
                                              (snd ip) (nth (fst ip) sigma None))
                                 (enumerate panels)));
                ("panels", VPanels panels)]%string.
Proof.
  intro H. rewrite solve_flow_system in H.
  destruct (linalg_solve _ _) as [sigma|e] eqn:Es; [|discriminate].
  exists sigma. split; [reflexivity|].
  destruct (le_lt_dec (length panels) (length sigma)) as [Hl|Hl].
  - split; [assumption|]. rewrite surface_returns in H by assumption.
    cbn [bind snd] in H. now injection H as <-.
  - rewrite surface_short in H by assumption. discriminate.
Qed.

(** X4.  Whenever solve_flow returns a state (not None), the solver returned
    an array of strengths with at least one strength per panel, and the
    state holds that array under sigma, the panel list it was given under
    panels, and under Cp an array with exactly one entry per panel. *)
Theorem solve_flow_returned_state
    (linalg_solve : list (list float) -> list float -> outcome (list float))
    (panels : list Panel) (alpha_deg V_inf : R) (state : dict) :
  solve_flow linalg_solve panels alpha_deg V_inf = Returned (Some state) ->
  exists sigma Cp : list float,
    linalg_solve (assemble_A panels)
      (rhs panels (fin (radians alpha_deg)) (fin V_inf)) = Returned sigma
    /\ get_vec state "sigma" = Returned sigma
    /\ get_vec state "Cp" = Returned Cp
    /\ get_panels state "panels" = Returned panels
    /\ length Cp = length panels
    /\ (length panels <= length sigma)%nat.
Proof.
  intro H. destruct (solve_flow_Some _ _ _ _ _ H) as [sigma [Hs [Hl ->]]].
  eexists sigma, _. split; [exact Hs|]. split; [reflexivity|].
  split; [reflexivity|]. split; [reflexivity|]. split; [|exact Hl].
  now rewrite length_map, enumerate_length.
Qed.

Lemma solve_flow_returned_state_witness :
  solve_flow ref_linalg_solve [panel_flat] 0 1 = Returned (Some flat_state)
  /\ exists sigma Cp : list float,
       ref_linalg_solve (assemble_A [panel_flat])
         (rhs [panel_flat] (fin (radians 0)) (fin 1)) = Returned sigma
       /\ get_vec flat_state "sigma" = Returned sigma
       /\ get_vec flat_state "Cp" = Returned Cp
       /\ get_panels flat_state "panels" = Returned [panel_flat]
       /\ length Cp = length [panel_flat]
       /\ (length [panel_flat] <= length sigma)%nat.
Proof.
  assert (H : solve_flow ref_linalg_solve [panel_flat] 0 1
              = Returned (Some flat_state)) by (apply solve_flow_flat; lra).
  split; [exact H|].
  exact (solve_flow_returned_state ref_linalg_solve [panel_flat] 0 1 flat_state H).
Defined.

(** X5.  In every state that solve_flow returns, every finite entry of Cp is
    at most 1. *)
Theorem solve_flow_Cp_at_most_one
    (linalg_solve : list (list float) -> list float -> outcome (list float))
    (panels : list Panel) (alpha_deg V_inf : R) (state : dict)
    (Cp : list float) (i : nat) (c : R) :
  solve_flow linalg_solve panels alpha_deg V_inf = Returned (Some state) ->
  get_vec state "Cp" = Returned Cp ->
  nth_error Cp i = Some (Some c) ->
  c <= 1.
Proof.
  intros H HCp Hc. destruct (solve_flow_Some _ _ _ _ _ H) as [sigma [_ [_ ->]]].
  cbn in HCp. injection HCp as <-.
  rewrite nth_error_map in Hc.
  destruct (nth_error (enumerate panels) i) as [[k p]|]; [|discriminate].
  cbn [option_map fst snd] in Hc. injection Hc as Hc.
  unfold Cp_of in Hc.
  destruct (V_t_of _ _ p _ / fin V_inf)%fl as [q|]; [|discriminate].
  cbn in Hc. injection Hc as <-. nra.
Qed.

Lemma solve_flow_Cp_at_most_one_witness :
  solve_flow ref_linalg_solve [panel_flat] 0 1 = Returned (Some flat_state)
  /\ get_vec flat_state "Cp" = Returned [fin 0]
  /\ nth_error [fin 0] 0 = Some (Some 0)
  /\ 0 <= 1.
Proof.
  assert (H : solve_flow ref_linalg_solve [panel_flat] 0 1
              = Returned (Some flat_state)) by (apply solve_flow_flat; lra).
  split; [exact H|]. split; [reflexivity|]. split; [reflexivity|].
  exact (solve_flow_Cp_at_most_one ref_linalg_solve [panel_flat] 0 1 flat_state
           [fin 0] 0 0 H eq_refl eq_refl).
Defined.

Lemma Cp_of_zero_speed (alpha : float) (p : Panel) (s : float) :
  Cp_of alpha (fin 0) p s = None.
Proof.
  unfold Cp_of. destruct (V_t_of alpha (fin 0) p s) as [v|]; [|reflexivity].
  unfold fin. now rewrite fdiv_zero.
Qed.

(** X6.  With V_inf = 0, every state that solve_flow returns has a Cp array
    whose entries are all non-finite, one per panel: line 90 divides by
    V_inf without a check. *)
Theorem solve_flow_zero_speed
    (linalg_solve : list (list float) -> list float -> outcome (list float))
    (panels : list Panel) (alpha_deg : R) (state : dict) :
  solve_flow linalg_solve panels alpha_deg 0 = Returned (Some state) ->
  get_vec state "Cp" = Returned (map (fun _ => None) panels).
Proof.
  intro H. destruct (solve_flow_Some _ _ _ _ _ H) as [sigma [_ [_ ->]]].
  cbn [get_vec dict_get String.eqb Ascii.eqb Bool.eqb]. apply f_equal.
  clear H. unfold enumerate. generalize 0%nat as k.
  induction panels as [|p ps IH]; intro k; [reflexivity|].
  cbn [length seq combine map]. apply (f_equal2 (@cons float)); [|apply IH].
  apply Cp_of_zero_speed.
Qed.

Lemma solve_flow_zero_speed_witness :
  solve_flow ref_linalg_solve [panel_flat] 30 0
  = Returned (Some [("sigma", VVec [fin 0]); ("Cp", VVec [None]);
                    ("panels", VPanels [panel_flat])]%string)
  /\ get_vec [("sigma", VVec [fin 0]); ("Cp", VVec [None]);
              ("panels", VPanels [panel_flat])]%string "Cp"
     = Returned (map (fun _ => None) [panel_flat]).
Proof.
  assert (H : solve_flow ref_linalg_solve [panel_flat] 30 0
              = Returned (Some [("sigma", VVec [fin 0]); ("Cp", VVec [None]);
                                ("panels", VPanels [panel_flat])]%string)).
  { rewrite (solve_flow_returns ref_linalg_solve [panel_flat] 30 0 [fin 0]).
    - cbn [enumerate length seq combine map fst snd nth].
      now rewrite Cp_of_zero_speed.
    - rewrite assemble_A_one, rhs_entries.
      cbn [enumerate length seq combine map fst snd beta panel_flat].
      float_cbn. unfold fin. rewrite ref_linalg_solve_1x1 by lra.
      apply f_equal. apply (f_equal2 (@cons float)); [|reflexivity].
      apply f_equal. unfold Rdiv. ring.
    - simpl. lia. }
  split; [exact H|].
  exact (solve_flow_zero_speed ref_linalg_solve [panel_flat] 30 _ H).
Defined.

(** ** [compute_flow_field]: errors, shapes, bounds *)

Lemma field_loop_Raised (sigma : list float) (X Y : list (list float))
    (l : list (nat * Panel)) :
  forall (st : list (list float) * list (list float)) (e : exn),
    foldM (field_step sigma X Y) l st = Raised e -> e = IndexError.
Proof.
  induction l as [|[k p] l IH]; intros [U V] e H; simpl in H; [discriminate|].
  destruct (getitem sigma k) as [s|e'] eqn:Es; cbn [bind] in H.
  - now apply IH in H.
  - apply getitem_Raised in Es. congruence.
Qed.

Lemma field_loop_short (sigma : list float) (X Y : list (list float))
    (l : list Panel) :
  forall (k : nat) (st : list (list float) * list (list float)),
    (k <= length sigma < k + length l)%nat ->
    foldM (field_step sigma X Y) (combine (seq k (length l)) l) st
    = Raised IndexError.
Proof.
  induction l as [|p l IH]; intros k [U V] Hk; simpl in *; [lia|].
  destruct (getitem sigma k) as [s|e] eqn:Es; cbn [bind].
  2:{ apply getitem_Raised in Es. now subst. }
  apply IH. apply getitem_Returned in Es.
  assert (k < length sigma)%nat by (apply nth_error_Some; congruence).
  lia.
Qed.

Lemma compute_flow_field_short (result : dict) (panels : list Panel)
    (sigma : list float) (alpha_deg : R) (res : nat) :
  dict_get result "panels" = Some (VPanels panels) ->
  dict_get result "sigma" = Some (VVec sigma) ->
  (length sigma < length panels)%nat ->
  compute_flow_field result alpha_deg res = Raised IndexError.
Proof.
  intros Hp Hs Hl. unfold compute_flow_field, get_panels, get_vec.
  rewrite Hp, Hs. cbn [bind]. unfold enumerate.
  rewrite field_loop_short by lia. reflexivity.
Qed.

(** What a returned field tells of the state. *)
Lemma compute_flow_field_Returned (result : dict) (alpha_deg : R) (res : nat)
    (out : dict) :
  compute_flow_field result alpha_deg res = Returned out ->
  exists (panels : list Panel) (sigma : list float),
    dict_get result "panels" = Some (VPanels panels)
    /\ dict_get result "sigma" = Some (VVec sigma)
    /\ (length panels <= length sigma)%nat.
Proof.
  intro H.
  destruct (dict_get result "panels") as [[v|m|ps]|] eqn:Hp;
    try (unfold compute_flow_field, get_panels in H; rewrite Hp in H;
         discriminate).
  destruct (dict_get result "sigma") as [[sigma|m|ps']|] eqn:Hs;
    try (unfold compute_flow_field, get_panels, get_vec in H;
         rewrite Hp, Hs in H; discriminate).
  exists ps, sigma. split; [reflexivity|]. split; [reflexivity|].
  destruct (le_lt_dec (length ps) (length sigma)) as [Hl|Hl]; [assumption|].
  rewrite (compute_flow_field_short result ps sigma) in H by assumption.
  discriminate.
Qed.

(** X7.  On a state that holds a panel list and an array of strengths, at
    every angle and resolution, compute_flow_field raises IndexError
    exactly when the strengths are fewer than the panels (sigma[k], line
    115), and it raises no other exception. *)
Theorem compute_flow_field_short_sigma (result : dict) (panels : list Panel)
    (sigma : list float) (alpha_deg : R) (res : nat) :
  dict_get result "panels" = Some (VPanels panels) ->
  dict_get result "sigma" = Some (VVec sigma) ->
  (compute_flow_field result alpha_deg res = Raised IndexError
   <-> (length sigma < length panels)%nat)
  /\ (forall e : exn,
         compute_flow_field result alpha_deg res = Raised e -> e = IndexError).
Proof.
  intros Hp Hs.
  assert (Hret : (length panels <= length sigma)%nat ->
                 exists out, compute_flow_field result alpha_deg res = Returned out).
  { intro Hl. eexists.
    exact (compute_flow_field_returns result panels sigma alpha_deg res Hp Hs Hl). }
  split; [split|].
  - intro H. destruct (le_lt_dec (length panels) (length sigma)) as [Hl|Hl];
      [|exact Hl].
    destruct (Hret Hl) as [out Ho]. congruence.
  - now apply compute_flow_field_short.
  - intros e H. destruct (le_lt_dec (length panels) (length sigma)) as [Hl|Hl].
    + destruct (Hret Hl) as [out Ho]. congruence.
    + rewrite (compute_flow_field_short result panels sigma) in H by assumption.
      congruence.
Qed.

Lemma compute_flow_field_short_sigma_witness :
  dict_get [("sigma", VVec []); ("panels", VPanels [panel_flat])]%string "panels"
  = Some (VPanels [panel_flat])
  /\ dict_get [("sigma", VVec []); ("panels", VPanels [panel_flat])]%string "sigma"
     = Some (VVec [])
  /\ (compute_flow_field
        [("sigma", VVec []); ("panels", VPanels [panel_flat])]%string 5 60
      = Raised IndexError
      <-> (@length float [] < length [panel_flat])%nat)
  /\ (forall e : exn,
         compute_flow_field
           [("sigma", VVec []); ("panels", VPanels [panel_flat])]%string 5 60
         = Raised e -> e = IndexError).
Proof.
  split; [reflexivity|]. split; [reflexivity|].
  exact (compute_flow_field_short_sigma
           [("sigma", VVec []); ("panels", VPanels [panel_flat])]%string
           [panel_flat] [] 5 60 eq_refl eq_refl).
Defined.

(** X8.  On a state whose entries panels and sigma, where present, are a panel
    list and an array of numbers, compute_flow_field raises KeyError
    exactly when one of the two keys is missing; the loop over the panels
    never raises KeyError. *)
Theorem compute_flow_field_key_error (result : dict) (alpha_deg : R) (res : nat) :
  (forall v, dict_get result "panels" = Some v -> exists ps, v = VPanels ps) ->
  (forall v, dict_get result "sigma" = Some v -> exists s, v = VVec s) ->
  (compute_flow_field result alpha_deg res = Raised KeyError
   <-> dict_get result "panels" = None \/ dict_get result "sigma" = None).
Proof.
  intros Kp Ks. unfold compute_flow_field, get_panels, get_vec.
  destruct (dict_get result "panels") as [v|] eqn:Hp.
  2:{ cbn [bind]. split; [now left | reflexivity]. }
  destruct (Kp v eq_refl) as [ps ->]. cbn [bind].
  destruct (dict_get result "sigma") as [w|] eqn:Hs.
  2:{ cbn [bind]. split; [now right | reflexivity]. }
  destruct (Ks w eq_refl) as [sigma ->]. cbn [bind]. split.
  - intro H. destruct (foldM _ _ _) as [UV|e] eqn:Hl; cbn [bind] in H;
      [discriminate|].
    apply field_loop_Raised in Hl. congruence.
  - intros [H|H]; discriminate.
Qed.

Lemma compute_flow_field_key_error_witness :
  (forall v, dict_get [("panels", VPanels [panel_flat])]%string "panels" = Some v ->
             exists ps, v = VPanels ps)
  /\ (forall v, dict_get [("panels", VPanels [panel_flat])]%string "sigma" = Some v ->
                exists s, v = VVec s)
  /\ (compute_flow_field [("panels", VPanels [panel_flat])]%string 5 60
      = Raised KeyError
      <-> dict_get [("panels", VPanels [panel_flat])]%string "panels" = None
          \/ dict_get [("panels", VPanels [panel_flat])]%string "sigma" = None).
Proof.
  assert (Kp : forall v,
             dict_get [("panels", VPanels [panel_flat])]%string "panels" = Some v ->
             exists ps, v = VPanels ps).
  { intros v H. injection H as <-. now exists [panel_flat]. }
  assert (Ks : forall v,
             dict_get [("panels", VPanels [panel_flat])]%string "sigma" = Some v ->
             exists s, v = VVec s).
  { intros v H. discriminate. }
  split; [exact Kp|]. split; [exact Ks|].
  exact (compute_flow_field_key_error [("panels", VPanels [panel_flat])]%string
           5 60 Kp Ks).
Defined.

(** X9.  Every state that solve_flow returns is accepted by compute_flow_field
    at every angle and every resolution: it raises nothing and returns a
    dictionary with exactly the keys X, Y, U, V, V_mag and Cp, in this
    order. *)
Theorem solve_flow_then_field
    (linalg_solve : list (list float) -> list float -> outcome (list float))
    (panels : list Panel) (alpha_deg V_inf : R) (state : dict)
    (alpha_deg' : R) (res : nat) :
  solve_flow linalg_solve panels alpha_deg V_inf = Returned (Some state) ->
  exists out : dict,
    compute_flow_field state alpha_deg' res = Returned out
    /\ dict_keys out = ["X"; "Y"; "U"; "V"; "V_mag"; "Cp"]%string.
Proof.
  intro H. destruct (solve_flow_Some _ _ _ _ _ H) as [sigma [_ [Hl ->]]].
  eexists. split.
  - apply (compute_flow_field_returns _ panels sigma); [reflexivity|reflexivity|exact Hl].
  - reflexivity.
Qed.

Lemma solve_flow_then_field_witness :
  solve_flow ref_linalg_solve [panel_flat] 0 1 = Returned (Some flat_state)
  /\ exists out : dict,
       compute_flow_field flat_state 8 60 = Returned out
       /\ dict_keys out = ["X"; "Y"; "U"; "V"; "V_mag"; "Cp"]%string.
Proof.
  assert (H : solve_flow ref_linalg_solve [panel_flat] 0 1
              = Returned (Some flat_state)) by (apply solve_flow_flat; lra).
  split; [exact H|].
  exact (solve_flow_then_field ref_linalg_solve [panel_flat] 0 1 flat_state 8 60 H).
Defined.

(** Shapes of element-wise results. *)
Lemma grid_zip_shape {A B C : Type} (f : A -> B -> C)
    (G : list (list A)) (H : list (list B)) (n m : nat) :
  length G = n -> Forall (fun r => length r = m) G ->
  length H = n -> Forall (fun r => length r = m) H ->
  length (grid_zip f G H) = n
  /\ Forall (fun r => length r = m) (grid_zip f G H).
Proof.
  intros LG FG LH FH. unfold grid_zip. split.
  - rewrite length_map, length_combine. lia.
  - apply Forall_forall. intros r Hr. apply in_map_iff in Hr.
    destruct Hr as [[a b] [<- Hab]]. cbn [fst snd].
    rewrite length_map, length_combine.
    rewrite Forall_forall in FG, FH.
    rewrite (FG a (in_combine_l _ _ _ _ Hab)), (FH b (in_combine_r _ _ _ _ Hab)).
    apply Nat.min_id.
Qed.

Lemma grid_map_shape {A B : Type} (f : A -> B) (G : list (list A)) (n m : nat) :
  length G = n -> Forall (fun r => length r = m) G ->
  length (grid_map f G) = n /\ Forall (fun r => length r = m) (grid_map f G).
Proof.
  intros LG FG. unfold grid_map. split.
  - now rewrite length_map.
  - apply Forall_forall. intros r Hr. apply in_map_iff in Hr.
    destruct Hr as [a [<- Ha]]. rewrite length_map.
    rewrite Forall_forall in FG. now apply FG.
Qed.

(** X10.  Every array in the dictionary that compute_flow_field returns has
    res rows of res entries each (none for res = 0). *)
Theorem compute_flow_field_shape (result : dict) (alpha_deg : R) (res : nat)
    (out : dict) (key : string) (M : list (list float)) :
  compute_flow_field result alpha_deg res = Returned out ->
  dict_get out key = Some (VMat M) ->
  length M = res /\ Forall (fun row => length row = res) M.
Proof.
  intros H HM.
  destruct (compute_flow_field_Returned _ _ _ _ H) as [ps [sigma [Hp [Hs Hl]]]].
  rewrite (compute_flow_field_returns result ps sigma alpha_deg res Hp Hs Hl) in H.
  injection H as <-.
  destruct (grid_X_shape res) as [LX FX]. destruct (grid_Y_shape res) as [LY FY].
  set (vel := velocity_at _ _ _) in HM.
  pose proof (grid_zip_shape (fun x y => fst (vel x y)) _ _ res res LX FX LY FY)
    as [LU FU].
  pose proof (grid_zip_shape (fun x y => snd (vel x y)) _ _ res res LX FX LY FY)
    as [LV FV].
  pose proof (grid_zip_shape (fun u v => fsqrt (fsq u + fsq v)%fl) _ _ res res
                LU FU LV FV) as [LM FM].
  pose proof (grid_map_shape (fun m => fin 1 - fsq m)%fl _ res res LM FM)
    as [LC FC].
  cbn [dict_get] in HM.
  repeat (match type of HM with
          | (if ?b then _ else _) = _ => destruct b
          end;
          [injection HM as <-; now split|]).
  discriminate.
Qed.

Lemma compute_flow_field_shape_witness :
  compute_flow_field flat_state 0 1 = Returned flat_field
  /\ dict_get flat_field "V_mag" = Some (VMat [[fin 1]])
  /\ length [[fin 1]] = 1%nat
  /\ Forall (fun row => length row = 1%nat) [[fin 1]].
Proof.
  split; [exact compute_flow_field_flat|]. split; [reflexivity|].
  exact (compute_flow_field_shape flat_state 0 1 flat_field "V_mag" [[fin 1]]
           compute_flow_field_flat eq_refl).
Defined.

Lemma mat_get_grid_map {A : Type} (f : A -> float) (G : list (list A))
    (i j : nat) (b : float) :
  mat_get (grid_map f G) i j = Some b ->
  exists (row : list A) (a : A),
    nth_error G i = Some row /\ nth_error row j = Some a /\ b = f a.
Proof.
  unfold mat_get, grid_map. rewrite nth_error_map.
  destruct (nth_error G i) as [row|]; cbn [option_map]; [|discriminate].
  rewrite nth_error_map.
  destruct (nth_error row j) as [a|] eqn:Ea; cbn [option_map]; [|discriminate].
  intro H. injection H as <-. now exists row, a.
Qed.

Lemma mat_get_grid_zip {A B : Type} (f : A -> B -> float)
    (G : list (list A)) (H : list (list B)) (i j : nat) (c : float) :
  mat_get (grid_zip f G H) i j = Some c -> exists a b, c = f a b.
Proof.
  unfold mat_get, grid_zip. rewrite nth_error_map.
  destruct (nth_error (combine G H) i) as [[r s]|]; cbn [option_map fst snd];
    [|discriminate].
  rewrite nth_error_map.
  destruct (nth_error (combine r s) j) as [[a b]|]; cbn [option_map fst snd];
    [|discriminate].
  intro E. injection E as <-. now exists a, b.
Qed.

(** X11.  In the dictionary that compute_flow_field returns, every finite
    entry of V_mag is non-negative and every finite entry of Cp is at most
    1. *)
Theorem compute_flow_field_bounds (result : dict) (alpha_deg : R) (res : nat)
    (out : dict) (Vm Cp : list (list float)) (i j : nat) :
  compute_flow_field result alpha_deg res = Returned out ->
  dict_get out "V_mag" = Some (VMat Vm) ->
  dict_get out "Cp" = Some (VMat Cp) ->
  (forall m : R, mat_get Vm i j = Some (Some m) -> 0 <= m)
  /\ (forall c : R, mat_get Cp i j = Some (Some c) -> c <= 1).
Proof.
  intros H HV HC.
  destruct (compute_flow_field_Returned _ _ _ _ H) as [ps [sigma [Hp [Hs Hl]]]].
  rewrite (compute_flow_field_returns result ps sigma alpha_deg res Hp Hs Hl) in H.
  injection H as <-.
  cbn [dict_get String.eqb Ascii.eqb Bool.eqb andb] in HV, HC.
  injection HV as <-. injection HC as <-.
  split.
  - intros m Hm. apply mat_get_grid_zip in Hm. destruct Hm as [u [v Hm]].
    unfold fsqrt in Hm. destruct (fsq u + fsq v)%fl as [q|]; [|discriminate].
    destruct (Rle_dec 0 q); [|discriminate]. injection Hm as ->.
    apply sqrt_pos.
  - intros c Hc. apply mat_get_grid_map in Hc.
    destruct Hc as [row [m [_ [_ Hc]]]].
    destruct m as [q|]; [|discriminate]. cbn in Hc. injection Hc as ->. nra.
Qed.

Lemma compute_flow_field_bounds_witness :
  compute_flow_field flat_state 0 1 = Returned flat_field
  /\ dict_get flat_field "V_mag" = Some (VMat [[fin 1]])
  /\ dict_get flat_field "Cp" = Some (VMat [[fin 0]])
  /\ (forall m : R, mat_get [[fin 1]] 0 0 = Some (Some m) -> 0 <= m)
  /\ (forall c : R, mat_get [[fin 0]] 0 0 = Some (Some c) -> c <= 1).
Proof.
  split; [exact compute_flow_field_flat|]. split; [reflexivity|].
  split; [reflexivity|].
  exact (compute_flow_field_bounds flat_state 0 1 flat_field [[fin 1]] [[fin 0]]
           0 0 compute_flow_field_flat eq_refl eq_refl).
Defined.

(** ** A field without sources *)

Lemma panel_finite_fields (p : Panel) :
  panel_finite p = true ->
  exists xa ya th L : R,
    x1 p = Some xa /\ y1 p = Some ya /\ theta p = Some th /\ plength p = Some L.
Proof.
  unfold panel_finite. intro H.
  repeat (apply andb_prop in H; destruct H as [H ?]).
  destruct (x1 p) as [xa|]; [|discriminate].
  destruct (y1 p) as [ya|]; [|discriminate].
  destruct (theta p) as [th|]; [|discriminate].
  destruct (plength p) as [L|]; [|discriminate].
  now exists xa, ya, th, L.
Qed.

Lemma induced_zero_strength (p : Panel) (x y : R) :
  panel_finite p = true ->
  induced p (Some 0) (Some x) (Some y) = (Some 0, Some 0).
Proof.
  intro Hp. destruct (panel_finite_fields p Hp) as [xa [ya [th [L [A [B [C D]]]]]]].
  rewrite (induced_finite p xa ya th L 0 x y A B C D).
  now rewrite induced_R_zero_strength.
Qed.

Lemma velocity_at_zero_strength (sigma : list float) (x y : R)
    (kps : list (nat * Panel)) :
  forall u v : R,
    Forall (fun kp => panel_finite (snd kp) = true
                      /\ nth (fst kp) sigma None = Some 0) kps ->
    velocity_at sigma (Some u, Some v) kps (Some x) (Some y) = (Some u, Some v).
Proof.
  unfold velocity_at.
  induction kps as [|[k p] kps IH]; intros u v HF; [reflexivity|].
  inversion HF as [|? ? [Hp Hs] HF']; subst. cbn [fold_left fst snd] in *.
  rewrite Hs, (induced_zero_strength p x y Hp). cbn [fst snd fadd lift2].
  rewrite !Rplus_0_r. now apply IH.
Qed.

Lemma enumerate_zero_strength (panels : list Panel) (sigma : list float) :
  forallb panel_finite panels = true ->
  Forall (fun s => s = fin 0) sigma ->
  (length panels <= length sigma)%nat ->
  Forall (fun kp => panel_finite (snd kp) = true
                    /\ nth (fst kp) sigma None = Some 0)
         (enumerate panels).
Proof.
  intros Hp Hs Hl. apply Forall_forall. intros [k p] Hin.
  apply In_nth_error in Hin. destruct Hin as [i Hi].
  rewrite nth_error_enumerate in Hi.
  destruct (nth_error panels i) as [q|] eqn:Eq; [|discriminate].
  injection Hi as <- <-. cbn [fst snd]. split.
  - rewrite forallb_forall in Hp. apply Hp. eapply nth_error_In; eauto.
  - assert (i < length sigma)%nat.
    { assert (i < length panels)%nat by (apply nth_error_Some; congruence). lia. }
    rewrite Forall_forall in Hs. apply (Hs (nth i sigma None)).
    now apply nth_In.
Qed.

Lemma grid_zip_ext_fin {C : Type} (f g : float -> float -> C)
    (G H : list (list R)) :
  (forall x y : R, f (Some x) (Some y) = g (Some x) (Some y)) ->
  grid_zip f (grid_map fin G) (grid_map fin H)
  = grid_zip g (grid_map fin G) (grid_map fin H).
Proof.
  intro E. unfold grid_zip, grid_map. revert H.
  induction G as [|r G IH]; intros [|s H]; cbn [map combine]; try reflexivity.
  apply (f_equal2 (@cons _)); [|apply IH]. cbn [fst snd]. clear IH.
  revert s. induction r as [|a r IHr]; intros [|b s]; cbn [map combine];
    try reflexivity.
  apply (f_equal2 (@cons _)); [apply E | apply IHr].
Qed.

Lemma grid_map_grid_zip {A B : Type} (h : float -> float)
    (f : A -> B -> float) (G : list (list A)) (H : list (list B)) :
  grid_map h (grid_zip f G H) = grid_zip (fun a b => h (f a b)) G H.
Proof.
  unfold grid_map, grid_zip. rewrite map_map. apply map_ext.
  intros [r s]. cbn [fst snd]. now rewrite map_map.
Qed.

Lemma grid_zip_const {C : Type} (c : C) (res : nat) :
  grid_zip (fun _ _ => c) (grid_X res) (grid_Y res)
  = grid_map (fun _ => c) (grid_X res).
Proof. unfold grid_X, grid_Y. now rewrite meshgrid_const_X. Qed.

(** X12.  For a state with finite panels and strengths that are all zero (at
    least one per panel; in particular for an empty panel list),
    compute_flow_field returns the uniform stream of unit speed at every
    grid point: U = cos(alpha), V = sin(alpha), V_mag = 1 and Cp = 0. *)
Theorem compute_flow_field_no_sources (state : dict) (panels : list Panel)
    (sigma : list float) (alpha_deg : R) (res : nat) :
  dict_get state "panels" = Some (VPanels panels) ->
  dict_get state "sigma" = Some (VVec sigma) ->
  forallb panel_finite panels = true ->
  Forall (fun s => s = fin 0) sigma ->
  (length panels <= length sigma)%nat ->
  compute_flow_field state alpha_deg res
  = Returned
      [("X", VMat (grid_X res)); ("Y", VMat (grid_Y res));
       ("U", VMat (grid_map (fun _ => fin (cos (radians alpha_deg))) (grid_X res)));
       ("V", VMat (grid_map (fun _ => fin (sin (radians alpha_deg))) (grid_X res)));
       ("V_mag", VMat (grid_map (fun _ => fin 1) (grid_X res)));
       ("Cp", VMat (grid_map (fun _ => fin 0) (grid_X res)))]%string.
Proof.
  intros Hp Hs Hfin Hz Hl.
  rewrite (compute_flow_field_returns state panels sigma alpha_deg res Hp Hs Hl).
  set (a := radians alpha_deg).
  assert (Hvel : forall x y : R,
             velocity_at sigma (freestream (fin a)) (enumerate panels)
                         (Some x) (Some y)
             = (Some (cos a), Some (sin a))).
  { intros x y. unfold freestream. float_cbn. rewrite !Rmult_1_l.
    apply velocity_at_zero_strength.
    now apply enumerate_zero_strength. }
  assert (EU : grid_zip (fun x y => fst (velocity_at sigma (freestream (fin a))
                                           (enumerate panels) x y))
                        (grid_X res) (grid_Y res)
               = grid_zip (fun _ _ => fin (cos a)) (grid_X res) (grid_Y res)).
  { unfold grid_X, grid_Y. apply grid_zip_ext_fin. intros x y. now rewrite Hvel. }
  assert (EV : grid_zip (fun x y => snd (velocity_at sigma (freestream (fin a))
                                           (enumerate panels) x y))
                        (grid_X res) (grid_Y res)
               = grid_zip (fun _ _ => fin (sin a)) (grid_X res) (grid_Y res)).
  { unfold grid_X, grid_Y. apply grid_zip_ext_fin. intros x y. now rewrite Hvel. }
  rewrite EU, EV, grid_zip_zip.
  assert (EM : grid_zip (fun _ _ : float =>
                           fsqrt (fsq (fin (cos a)) + fsq (fin (sin a)))%fl)
                        (grid_X res) (grid_Y res)
               = grid_zip (fun _ _ => fin 1) (grid_X res) (grid_Y res)).
  { apply grid_zip_ext. intros _ _. float_cbn. unfold fsqrt.
    replace (cos a * cos a + sin a * sin a) with 1
      by (pose proof (sin2_cos2 a) as E; unfold Rsqr in E; lra).
    destruct (Rle_dec 0 1); [|lra]. now rewrite sqrt_1. }
  rewrite EM, grid_map_grid_zip.
  assert (EC : grid_zip (fun _ _ : float => (fin 1 - fsq (fin 1))%fl)
                        (grid_X res) (grid_Y res)
               = grid_zip (fun _ _ => fin 0) (grid_X res) (grid_Y res)).
  { apply grid_zip_ext. intros _ _. float_cbn. apply f_equal. lra. }
  rewrite EC, !grid_zip_const. reflexivity.
Qed.

Lemma compute_flow_field_no_sources_witness :
  dict_get flat_state "panels" = Some (VPanels [panel_flat])
  /\ dict_get flat_state "sigma" = Some (VVec [fin 0])
  /\ forallb panel_finite [panel_flat] = true
  /\ Forall (fun s => s = fin 0) [fin 0]
  /\ (length [panel_flat] <= length [fin 0])%nat
  /\ compute_flow_field flat_state 30 60
     = Returned
         [("X", VMat (grid_X 60)); ("Y", VMat (grid_Y 60));
          ("U", VMat (grid_map (fun _ => fin (cos (radians 30))) (grid_X 60)));
          ("V", VMat (grid_map (fun _ => fin (sin (radians 30))) (grid_X 60)));
          ("V_mag", VMat (grid_map (fun _ => fin 1) (grid_X 60)));
          ("Cp", VMat (grid_map (fun _ => fin 0) (grid_X 60)))]%string.
Proof.
  split; [reflexivity|]. split; [reflexivity|]. split; [reflexivity|].
  split; [repeat constructor|]. split; [simpl; lia|].
  apply (compute_flow_field_no_sources flat_state [panel_flat] [fin 0] 30 60);
    [reflexivity | reflexivity | reflexivity | repeat constructor | simpl; lia].
Defined.

(** ** The steps of the resampling *)

Lemma getlast_nonempty {A : Type} (l : list A) (d : A) :
  l <> [] -> getlast l = Returned (last l d).
Proof.
  destruct l as [|a l]; [contradiction|]. intros _. unfold getlast.
  now rewrite last_cons_default.
Qed.

Lemma getitem_hd (l : list R) : l <> [] -> getitem l 0 = Returned (hd 0 l).
Proof. destruct l; [contradiction | reflexivity]. Qed.

(** X13.  The closing step of create_panels (lines 36-38) is idempotent:
    applied to a contour it has returned, it returns that contour
    unchanged, so no second closing point is appended. *)
Theorem close_contour_idempotent (x y x' y' : list R) :
  close_contour x y = Returned (x', y') ->
  close_contour x' y' = Returned (x', y').
Proof.
  intro H. destruct (close_contour_Returned x y x' y' H)
    as [Hx [Hy [Hcases [_ [_ [Cx Cy]]]]]].
  assert (Hx' : x' <> []).
  { destruct Hcases as [E|E]; injection E as -> ->; [assumption|].
    now destruct x. }
  assert (Hy' : y' <> []).
  { destruct Hcases as [E|E]; injection E as -> ->; [assumption|].
    now destruct y. }
  unfold close_contour.
  rewrite (getitem_hd x' Hx'), (getlast_nonempty x' 0 Hx'). cbn [bind].
  rewrite Cx, (getitem_hd y' Hy'), (getlast_nonempty y' 0 Hy'). cbn [bind].
  now rewrite Cy.
Qed.

Lemma close_contour_idempotent_witness :
  close_contour tri_x tri_y = Returned ([4; 4; 0; 4], [0; 3; 0; 0])
  /\ close_contour [4; 4; 0; 4] [0; 3; 0; 0] = Returned ([4; 4; 0; 4], [0; 3; 0; 0]).
Proof.
  split; [exact close_contour_tri|].
  exact (close_contour_idempotent tri_x tri_y _ _ close_contour_tri).
Defined.

Lemma cumsum_from_sorted (l : list R) :
  forall acc : R,
    Forall (fun d => 0 <= d) l ->
    StronglySorted Rle (acc :: cumsum_from acc l).
Proof.
  induction l as [|a l IH]; intros acc Hl; cbn [cumsum_from].
  - repeat constructor.
  - inversion Hl as [|? ? Ha Hl']; subst.
    specialize (IH (acc + a) Hl'). constructor; [exact IH|].
    apply StronglySorted_inv in IH. destruct IH as [_ IH].
    constructor; [lra|]. eapply Forall_impl; [|exact IH].
    intros t Ht. cbn beta in Ht. lra.
Qed.

Lemma chord_lengths_sorted (x y : list R) :
  StronglySorted Rle (chord_lengths x y).
Proof.
  unfold chord_lengths, cumsum. apply cumsum_from_sorted.
  apply Forall_forall. intros d Hd. apply in_map_iff in Hd.
  destruct Hd as [s [<- _]]. apply sqrt_pos.
Qed.

Lemma sorted_le_last (l : list R) :
  StronglySorted Rle l -> forall t d : R, In t l -> t <= last l d.
Proof.
  induction l as [|a l IH]; intros Hs t d Hin; [contradiction|].
  apply StronglySorted_inv in Hs. destruct Hs as [Hs Ha].
  destruct l as [|b l].
  - destruct Hin as [<-|[]]. cbn. lra.
  - change (last (a :: b :: l) d) with (last (b :: l) d).
    destruct Hin as [<-|Hin].
    + rewrite Forall_forall in Ha.
      apply Rle_trans with b; [apply Ha; now left|].
      apply IH; [assumption | now left].
    + now apply IH.
Qed.

Lemma sorted_map_div (l : list R) (c : R) :
  0 < c -> StronglySorted Rle l -> StronglySorted Rle (map (fun t => t / c) l).
Proof.
  intros Hc. induction l as [|a l IH]; intro Hs; cbn [map]; [constructor|].
  apply StronglySorted_inv in Hs. destruct Hs as [Hs Ha].
  constructor; [now apply IH|].
  apply Forall_forall. intros t Ht. apply in_map_iff in Ht.
  destruct Ht as [s [<- Hin]]. rewrite Forall_forall in Ha.
  specialize (Ha s Hin). unfold Rdiv.
  apply Rmult_le_compat_r; [|assumption].
  left. now apply Rinv_0_lt_compat.
Qed.

Lemma map_fdiv_finite (c : R) (l : list R) :
  c <> 0 ->
  map (fun t => fin t / fin c)%fl l = map fin (map (fun t => t / c) l).
Proof.
  intro Hc. rewrite map_map. apply map_ext. intro t. unfold fin.
  now rewrite fdiv_nonzero.
Qed.

(** X14.  For x and y of one length, whenever the arc-length parameters
    computed by create_panels (lines 40-42) are all finite, they are
    non-decreasing along the contour and lie in [0, 1]. *)
Theorem arc_parameter_monotone (x y : list R) (ts : list float) :
  length x = length y ->
  arc_parameter x y = Returned ts -> forallb isfinite ts = true ->
  exists rs : list R,
    ts = map fin rs
    /\ StronglySorted Rle rs
    /\ Forall (fun t => 0 <= t <= 1) rs.
Proof.
  intros Hlen Ht Hfin. rewrite (arc_parameter_same_length x y Hlen) in Ht.
  pose proof (chord_lengths_sorted x y) as Hs.
  assert (H0 : In 0 (chord_lengths x y)) by (now left).
  remember (chord_lengths x y) as cl eqn:Ecl.
  remember (last cl 0) as total eqn:Etot.
  assert (Ets : ts = map (fun t => fin t / fin total)%fl cl) by congruence.
  clear Ht. subst ts.
  assert (Htot : total <> 0).
  { intro E.
    assert (Hin : In (fin 0 / fin total)%fl
                     (map (fun t => fin t / fin total)%fl cl))
      by (apply (in_map (fun t => fin t / fin total)%fl cl 0 H0)).
    rewrite forallb_forall in Hfin. apply Hfin in Hin.
    rewrite E in Hin. unfold fin in Hin. rewrite fdiv_zero in Hin.
    discriminate. }
  assert (Hlow : forall t, In t cl -> 0 <= t).
  { intros t Hin. rewrite Ecl in Hin, Hs. unfold chord_lengths in Hin, Hs.
    destruct Hin as [<-|Hin]; [lra|]. apply StronglySorted_inv in Hs.
    destruct Hs as [_ Hs]. rewrite Forall_forall in Hs. now apply Hs. }
  assert (Hpos : 0 < total).
  { pose proof (sorted_le_last cl Hs 0 0 H0) as Hle. rewrite <- Etot in Hle. lra. }
  exists (map (fun t => t / total) cl). split; [|split].
  - now apply map_fdiv_finite.
  - now apply sorted_map_div.
  - apply Forall_forall. intros q Hq. apply in_map_iff in Hq.
    destruct Hq as [t [<- Hin]].
    pose proof (Hlow t Hin) as Hl.
    pose proof (sorted_le_last cl Hs t 0 Hin) as Hu. rewrite <- Etot in Hu.
    split.
    + apply Rmult_le_pos; [assumption|]. left. now apply Rinv_0_lt_compat.
    + apply Rmult_le_reg_r with total; [assumption|].
      unfold Rdiv. rewrite Rmult_assoc, Rinv_l by assumption. lra.
Qed.

Lemma arc_parameter_monotone_witness :
  length [4; 4; 0; 4] = length [0; 3; 0; 0]
  /\ arc_parameter [4; 4; 0; 4] [0; 3; 0; 0] = Returned (map fin tri_ts)
  /\ forallb isfinite (map fin tri_ts) = true
  /\ exists rs : list R,
       map fin tri_ts = map fin rs
       /\ StronglySorted Rle rs
       /\ Forall (fun t => 0 <= t <= 1) rs.
Proof.
  split; [reflexivity|]. split; [exact arc_parameter_tri|].
  split; [reflexivity|].
  exact (arc_parameter_monotone [4; 4; 0; 4] [0; 3; 0; 0] (map fin tri_ts)
           eq_refl arc_parameter_tri eq_refl).
Defined.

Lemma diff_repeat (a : R) (n : nat) : diff (repeat a n) = repeat 0 (n - 1).
Proof.
  destruct n as [|n]; [reflexivity|]. cbn [Nat.sub]. rewrite Nat.sub_0_r.
  induction n as [|n IH]; [reflexivity|].
  change (diff (repeat a (S (S n)))) with ((a - a) :: diff (repeat a (S n))).
  rewrite IH. cbn [repeat]. apply (f_equal2 (@cons R)); [lra | reflexivity].
Qed.

Lemma cumsum_from_zeros (k : nat) : cumsum_from 0 (repeat 0 k) = repeat 0 k.
Proof.
  induction k as [|k IH]; [reflexivity|]. cbn [repeat cumsum_from].
  replace (0 + 0) with 0 by lra. now rewrite IH.
Qed.

Lemma chord_lengths_point (a b : R) (n : nat) :
  chord_lengths (repeat a n) (repeat b n) = repeat 0 (S (n - 1)).
Proof.
  unfold chord_lengths, cumsum. rewrite !diff_repeat.
  assert (E : map sqrt (map (fun ab => fst ab + snd ab)
                (combine (map (fun d => d * d) (repeat 0 (n - 1)))
                         (map (fun d => d * d) (repeat 0 (n - 1)))))
              = repeat 0 (n - 1)).
  { induction (n - 1)%nat as [|k IH]; [reflexivity|].
    cbn [repeat map combine fst snd]. rewrite IH.
    apply (f_equal2 (@cons R)); [|reflexivity].
    replace (0 * 0 + 0 * 0) with 0 by lra. apply sqrt_0. }
  rewrite E, cumsum_from_zeros. reflexivity.
Qed.

Lemma last_repeat (a : R) (k : nat) :
  forall d : R, last (repeat a (S k)) d = a.
Proof.
  induction k as [|k IH]; intro d; [reflexivity|].
  change (repeat a (S (S k))) with (a :: repeat a (S k)).
  rewrite last_cons_default. apply IH.
Qed.

(** X15.  For a contour of n >= 1 coinciding points, lines 40-42 of
    create_panels raise nothing and give n non-finite parameters (0/0):
    the division by the total length is unguarded. *)
Theorem arc_parameter_zero_extent (a b : R) (n : nat) :
  (0 < n)%nat ->
  arc_parameter (repeat a n) (repeat b n) = Returned (repeat None n).
Proof.
  intro Hn. rewrite arc_parameter_same_length by (now rewrite !repeat_length).
  rewrite chord_lengths_point. replace (S (n - 1)) with n by lia.
  destruct n as [|k]; [lia|]. rewrite last_repeat. apply f_equal.
  generalize (S k) as m. induction m as [|m IH]; [reflexivity|].
  cbn [repeat map]. rewrite IH. unfold fin. now rewrite fdiv_zero.
Qed.

Lemma arc_parameter_zero_extent_witness :
  (0 < 3)%nat
  /\ arc_parameter (repeat 1 3) (repeat 2 3) = Returned (repeat None 3).
Proof.
  split; [lia|]. apply (arc_parameter_zero_extent 1 2 3). lia.
Defined.

Lemma cosine_angle_range (N k : nat) :
  (0 < N)%nat -> (k <= N)%nat -> 0 <= INR k * PI / INR N <= PI.
Proof.
  intros HN Hk. pose proof PI_RGT_0 as Hpi.
  assert (HN' : 0 < INR N) by (now apply (lt_INR 0)).
  pose proof (pos_INR k) as Hk0. pose proof (le_INR k N Hk) as HkN.
  assert (Hinv : 0 < / INR N) by (now apply Rinv_0_lt_compat).
  split.
  - unfold Rdiv. apply Rmult_le_pos; [|lra]. apply Rmult_le_pos; lra.
  - apply Rmult_le_reg_r with (INR N); [assumption|].
    unfold Rdiv. rewrite Rmult_assoc, Rinv_l by lra. nra.
Qed.

Lemma cosine_spacing_nth (N k : nat) (t : R) :
  (0 < N)%nat -> nth_error (cosine_spacing N) k = Some t ->
  (k <= N)%nat /\ t = 0.5 * (1 - cos (INR k * PI / INR N)).
Proof.
  intros HN Ht.
  assert (Hk : (k < N + 1)%nat).
  { rewrite <- (cosine_spacing_length N). apply nth_error_Some. congruence. }
  split; [lia|].
  rewrite (cosine_spacing_formula N HN), nth_error_map, nth_error_seq in Ht.
  apply Nat.ltb_lt in Hk. rewrite Hk in Ht. cbn [option_map Nat.add] in Ht.
  now injection Ht as <-.
Qed.

(** X16.  For N >= 1 panels, the cosine-spaced parameters of create_panels
    (line 47) are strictly increasing with their index, and symmetric
    about 1/2: the parameters of index k and N - k add up to 1. *)
Theorem cosine_spacing_increasing_symmetric (N j k : nat) (a b c : R) :
  (0 < N)%nat -> (j < k)%nat ->
  nth_error (cosine_spacing N) j = Some a ->
  nth_error (cosine_spacing N) k = Some b ->
  nth_error (cosine_spacing N) (N - k) = Some c ->
  a < b /\ b + c = 1.
Proof.
  intros HN Hjk Ha Hb Hc.
  destruct (cosine_spacing_nth N j a HN Ha) as [Hj ->].
  destruct (cosine_spacing_nth N k b HN Hb) as [Hk ->].
  destruct (cosine_spacing_nth N (N - k) c HN Hc) as [_ ->].
  assert (HN' : 0 < INR N) by (now apply (lt_INR 0)).
  split.
  - destruct (cosine_angle_range N j HN Hj) as [J0 J1].
    destruct (cosine_angle_range N k HN Hk) as [K0 K1].
    assert (Hlt : INR j * PI / INR N < INR k * PI / INR N).
    { pose proof PI_RGT_0 as Hpi. pose proof (lt_INR j k Hjk) as L.
      unfold Rdiv. apply Rmult_lt_compat_r; [now apply Rinv_0_lt_compat|].
      apply Rmult_lt_compat_r; assumption. }
    pose proof (cos_decreasing_1 _ _ J0 J1 K0 K1 Hlt). lra.
  - rewrite (minus_INR N k Hk).
    replace ((INR N - INR k) * PI / INR N) with (PI - INR k * PI / INR N)
      by (field; lra).
    rewrite cos_minus, cos_PI, sin_PI. lra.
Qed.

Lemma cosine_spacing_increasing_symmetric_witness :
  (0 < 2)%nat /\ (0 < 1)%nat
  /\ nth_error (cosine_spacing 2) 0 = Some 0
  /\ nth_error (cosine_spacing 2) 1 = Some 0.5
  /\ nth_error (cosine_spacing 2) (2 - 1) = Some 0.5
  /\ 0 < 0.5 /\ 0.5 + 0.5 = 1.
Proof.
  assert (E : cosine_spacing 2 = [0; 0.5; 1]) by exact cosine_spacing_2.
  split; [lia|]. split; [lia|].
  split; [now rewrite E|]. split; [now rewrite E|]. split; [now rewrite E|].
  apply (cosine_spacing_increasing_symmetric 2 0 1 0 0.5 0.5);
    try lia; now rewrite E.
Defined.

(** ** The geometry of one panel *)

Lemma sqrt_scaled (x y : R) :
  0 < x -> sqrt (x * x + y * y) = x * sqrt (1 + (y / x)²).
Proof.
  intro Hx.
  replace (x * x + y * y) with ((x * x) * (1 + (y / x)²))
    by (unfold Rsqr; field; lra).
  rewrite sqrt_mult.
  - now rewrite sqrt_square by lra.
  - nra.
  - pose proof (Rle_0_sqr (y / x)). lra.
Qed.

Lemma sqrt_one_plus_sq_pos (t : R) : 0 < sqrt (1 + t²).
Proof. apply sqrt_lt_R0. pose proof (Rle_0_sqr t). lra. Qed.

Lemma atan_nonpos (t : R) : t <= 0 -> atan t <= 0.
Proof.
  intros [H|H]; [|rewrite H, atan_0; lra].
  pose proof (atan_increasing t 0 H) as L. rewrite atan_0 in L. lra.
Qed.

Lemma atan_pos (t : R) : 0 < t -> 0 < atan t.
Proof.
  intro H. pose proof (atan_increasing 0 t H) as L. now rewrite atan_0 in L.
Qed.

(** [np.arctan2] gives the polar angle. *)
Lemma arctan2_polar (x y : R) :
  x <> 0 \/ y <> 0 ->
  0 < sqrt (x * x + y * y)
  /\ x = sqrt (x * x + y * y) * cos (arctan2 y x)
  /\ y = sqrt (x * x + y * y) * sin (arctan2 y x)
  /\ - PI < arctan2 y x <= PI.
Proof.
  intro Hxy. pose proof PI_RGT_0 as Hpi.
  assert (Hr : 0 < sqrt (x * x + y * y)).
  { apply sqrt_lt_R0. destruct Hxy; nra. }
  split; [exact Hr|].
  pose proof (sqrt_one_plus_sq_pos (y / x)) as Hs.
  pose proof (atan_bound (y / x)) as Hb.
  unfold arctan2. destruct (Rlt_dec 0 x) as [Hx|Hx].
  - rewrite cos_atan, sin_atan, (sqrt_scaled x y Hx).
    repeat split; try lra; field; lra.
  - destruct (Rlt_dec x 0) as [Hx'|Hx'].
    + assert (Er : sqrt (x * x + y * y) = - x * sqrt (1 + (y / x)²)).
      { replace (x * x + y * y) with (- x * - x + - y * - y) by ring.
        rewrite (sqrt_scaled (- x) (- y)) by lra.
        replace (- y / - x) with (y / x) by (field; lra). reflexivity. }
      destruct (Rle_dec 0 y) as [Hy|Hy].
      * rewrite neg_cos, neg_sin, cos_atan, sin_atan, Er.
        assert (atan (y / x) <= 0).
        { apply atan_nonpos. unfold Rdiv.
          assert (/ x < 0) by (now apply Rinv_lt_0_compat). nra. }
        repeat split; try lra; field; lra.
      * rewrite cos_minus, sin_minus, cos_PI, sin_PI, cos_atan, sin_atan, Er.
        assert (0 < atan (y / x)).
        { apply atan_pos. unfold Rdiv.
          assert (/ x < 0) by (now apply Rinv_lt_0_compat). nra. }
        repeat split; try lra; field; lra.
    + assert (x = 0) by lra. subst x.
      replace (0 * 0 + y * y) with (y * y) by ring.
      destruct (Rlt_dec 0 y) as [Hy|Hy].
      * rewrite cos_PI2, sin_PI2, sqrt_square by lra. repeat split; lra.
      * destruct (Rlt_dec y 0) as [Hy'|Hy'].
        -- rewrite cos_neg, sin_neg, cos_PI2, sin_PI2.
           replace (y * y) with (- y * - y) by ring.
           rewrite sqrt_square by lra. repeat split; lra.
        -- destruct Hxy; lra.
Qed.

(** X17.  For two distinct finite points, the panel that create_panels builds
    between them has a positive length L and an angle theta in (-pi, pi]
    with (x2 - x1, y2 - y1) = L (cos theta, sin theta); its beta is theta
    + pi/2, and (cos beta, sin beta) is perpendicular to the panel. *)
Theorem panel_between_direction (a b c d : R) :
  c - a <> 0 \/ d - b <> 0 ->
  exists L th : R,
    plength (panel_between (fin a) (fin b) (fin c) (fin d)) = fin L
    /\ theta (panel_between (fin a) (fin b) (fin c) (fin d)) = fin th
    /\ beta (panel_between (fin a) (fin b) (fin c) (fin d)) = fin (th + PI / 2)
    /\ 0 < L /\ - PI < th <= PI
    /\ c - a = L * cos th /\ d - b = L * sin th
    /\ (c - a) * cos (th + PI / 2) + (d - b) * sin (th + PI / 2) = 0.
Proof.
  intro H. destruct (arctan2_polar (c - a) (d - b) H) as [HL [Hc [Hs Hth]]].
  exists (sqrt ((c - a) * (c - a) + (d - b) * (d - b))),
         (arctan2 (d - b) (c - a)).
  split; [|split; [reflexivity|split; [reflexivity|]]].
  - unfold panel_between. cbn [plength]. float_cbn. unfold fsqrt.
    destruct (Rle_dec 0 _) as [_|Hn]; [reflexivity|]. exfalso. apply Hn. nra.
  - split; [exact HL|]. split; [exact Hth|]. split; [exact Hc|].
    split; [exact Hs|].
    rewrite cos_plus, sin_plus, cos_PI2, sin_PI2.
    generalize dependent (arctan2 (d - b) (c - a)).
    generalize dependent (sqrt ((c - a) * (c - a) + (d - b) * (d - b))).
    intros L _ th -> -> _. ring.
Qed.

Lemma panel_between_direction_witness :
  (2 - 2 <> 0 \/ 1 - -1 <> 0)
  /\ exists L th : R,
       plength (panel_between (fin 2) (fin (-1)) (fin 2) (fin 1)) = fin L
       /\ theta (panel_between (fin 2) (fin (-1)) (fin 2) (fin 1)) = fin th
       /\ beta (panel_between (fin 2) (fin (-1)) (fin 2) (fin 1))
          = fin (th + PI / 2)
       /\ 0 < L /\ - PI < th <= PI
       /\ 2 - 2 = L * cos th /\ 1 - -1 = L * sin th
       /\ (2 - 2) * cos (th + PI / 2) + (1 - -1) * sin (th + PI / 2) = 0.
Proof.
  assert (H : 2 - 2 <> 0 \/ 1 - -1 <> 0) by (right; lra).
  split; [exact H|].
  exact (panel_between_direction 2 (-1) 2 1 H).
Defined.

(** X18.  For the panel that create_panels builds between two finite points,
    with angle theta and beta = theta + pi/2, the right-hand side entry of
    solve_flow is -V_inf sin(alpha - theta) and the freestream term vt_inf
    of its surface velocity (line 88) is -V_inf cos(alpha - theta). *)
Theorem freestream_on_built_panel (a b c d alpha_deg V_inf : R) :
  exists th : R,
    theta (panel_between (fin a) (fin b) (fin c) (fin d)) = fin th
    /\ rhs [panel_between (fin a) (fin b) (fin c) (fin d)]
           (fin (radians alpha_deg)) (fin V_inf)
       = [fin (- (V_inf * sin (radians alpha_deg - th)))]
    /\ vt_inf (fin (radians alpha_deg)) (fin V_inf)
              (panel_between (fin a) (fin b) (fin c) (fin d))
       = fin (- (V_inf * cos (radians alpha_deg - th))).
Proof.
  exists (arctan2 (d - b) (c - a)). split; [reflexivity|]. split.
  - rewrite rhs_entries. cbn [enumerate length seq combine map fst snd].
    unfold panel_between. cbn [beta]. float_cbn.
    apply (f_equal2 (@cons float)); [|reflexivity]. apply f_equal.
    rewrite cos_plus, sin_plus, sin_minus, cos_PI2, sin_PI2. ring.
  - unfold vt_inf, panel_between. cbn [beta]. float_cbn. apply f_equal.
    rewrite cos_plus, sin_plus, cos_minus, cos_PI2, sin_PI2. ring.
Qed.

(** ** [create_panels]: the panel loop and the outline *)

(** The loop of lines 50-60 over [N + 1] points. *)
Lemma build_panels_total (N : nat) (x_p y_p : list float) :
  length x_p = (N + 1)%nat -> length y_p = (N + 1)%nat ->
  build_panels N x_p y_p
  = Returned (map (fun i => panel_between (nth i x_p None) (nth i y_p None)
                              (nth (i + 1) x_p None) (nth (i + 1) y_p None))
                  (seq 0 N)).
Proof.
  intros Lx Ly. unfold build_panels. apply mapM_map. intros i Hi.
  apply in_seq in Hi. unfold make_panel, getitem.
  rewrite (nth_error_nth' x_p None), (nth_error_nth' y_p None) by lia.
  cbn [bind].
  rewrite (nth_error_nth' x_p None), (nth_error_nth' y_p None) by lia.
  reflexivity.
Qed.

Lemma resample_lengths
    (interp1d : list float -> list R -> outcome (R -> outcome float))
    (N : nat) (x y : list R) (x_p y_p : list float) :
  resample interp1d N x y = Returned (x_p, y_p) ->
  length x_p = (N + 1)%nat /\ length y_p = (N + 1)%nat.
Proof.
  intro H. destruct (resample_Returned interp1d N x y x_p y_p H)
    as [x' [y' [ts [fx [fy [_ [_ [_ [_ [Hx Hy]]]]]]]]]].
  apply mapM_Returned in Hx, Hy. destruct Hx as [Hx _], Hy as [Hy _].
  now rewrite Hx, Hy, cosine_spacing_length.
Qed.

(** X19.  create_panels raises an exception e exactly when its resampling part
    (lines 36-48) raises e: the panel loop of lines 50-60 never raises,
    since the resampling returns N + 1 points. *)
Theorem create_panels_raises_in_resampling
    (interp1d : list float -> list R -> outcome (R -> outcome float))
    (N : nat) (x y : list R) (e : exn) :
  create_panels interp1d N x y = Raised e
  <-> resample interp1d N x y = Raised e.
Proof.
  unfold create_panels. split.
  - intro H. apply bind_Raised in H. destruct H as [H|[[x_p y_p] [Hr H]]];
      [exact H|].
    destruct (resample_lengths interp1d N x y x_p y_p Hr) as [Lx Ly].
    cbn [fst snd] in H. rewrite (build_panels_total N x_p y_p Lx Ly) in H.
    discriminate.
  - intro H. now rewrite H.
Qed.

Lemma last_map_seq {A : Type} (f : nat -> A) (n : nat) (d : A) :
  last (map f (seq 0 (S n))) d = f n.
Proof.
  rewrite seq_S, map_app. cbn [map Nat.add]. apply last_last.
Qed.

Lemma nth_map_seq {A : Type} (f : nat -> A) (n k : nat) (d : A) :
  (k < n)%nat -> nth k (map f (seq 0 n)) d = f k.
Proof.
  intro H. rewrite (nth_indep _ d (f 0%nat)) by (now rewrite length_map, length_seq).
  rewrite map_nth, seq_nth by assumption. reflexivity.
Qed.

Lemma outline_of_points (N : nat) (l : list float) (g : nat -> Panel)
    (first second : Panel -> float) :
  length l = (S N + 1)%nat ->
  (forall i, (i <= N)%nat -> first (g i) = nth i l None) ->
  second (g N) = nth (N + 1) l None ->
  map first (map g (seq 0 (S N))) ++ [second (g N)] = l.
Proof.
  intros Hl Hf Hs.
  assert (Hm : length (map first (map g (seq 0 (S N)))) = S N)
    by (now rewrite !length_map, length_seq).
  apply (@nth_ext float _ _ None None).
  - rewrite length_app, Hm, Hl. reflexivity.
  - intros k Hk. rewrite length_app, Hm in Hk. cbn [length] in Hk.
    destruct (Nat.eq_dec k (S N)) as [->|Hne].
    + rewrite app_nth2 by lia. rewrite Hm, Nat.sub_diag. cbn [nth].
      rewrite Hs. f_equal. lia.
    + rewrite app_nth1 by lia. rewrite map_map.
      rewrite (nth_map_seq (fun i => first (g i))) by lia. apply Hf. lia.
Qed.

Lemma outline_of_built_panels (N : nat) (x_p y_p : list float)
    (ps : list Panel) :
  (0 < N)%nat -> length x_p = (N + 1)%nat -> length y_p = (N + 1)%nat ->
  build_panels N x_p y_p = Returned ps ->
  outline ps = Returned (x_p, y_p).
Proof.
  intros HN Lx Ly Hb.
  rewrite (build_panels_total N x_p y_p Lx Ly) in Hb. injection Hb as <-.
  destruct N as [|n]; [lia|].
  set (g := fun i : nat => panel_between (nth i x_p None) (nth i y_p None)
                             (nth (i + 1) x_p None) (nth (i + 1) y_p None)).
  unfold outline.
  assert (Hlast : getlast (map g (seq 0 (S n))) = Returned (g n)).
  { rewrite (getlast_nonempty _ (g 0%nat)) by discriminate.
    now rewrite last_map_seq. }
  rewrite Hlast. cbn [bind].
  rewrite (outline_of_points n x_p g x1 x2 Lx), (outline_of_points n y_p g y1 y2 Ly);
    reflexivity.
Qed.

(** X20.  Whenever create_panels returns panels for N >= 1, the outline that
    plot_field_grid rebuilds from them (lines 264-265: every panel's first
    endpoint, then the last panel's second endpoint) is exactly the
    resampled point set (x_p, y_p) of create_panels. *)
Theorem outline_is_resampled_points
    (interp1d : list float -> list R -> outcome (R -> outcome float))
    (N : nat) (x y : list R) (ps : list Panel) :
  (0 < N)%nat ->
  create_panels interp1d N x y = Returned ps ->
  exists x_p y_p : list float,
    resample interp1d N x y = Returned (x_p, y_p)
    /\ outline ps = Returned (x_p, y_p).
Proof.
  intros HN H.
  destruct (create_panels_Returned interp1d N x y ps H) as [x_p [y_p [Hr Hb]]].
  exists x_p, y_p. split; [exact Hr|].
  destruct (resample_lengths interp1d N x y x_p y_p Hr) as [Lx Ly].
  exact (outline_of_built_panels N x_p y_p ps HN Lx Ly Hb).
Qed.

Lemma outline_is_resampled_points_witness :
  (0 < 1)%nat
  /\ create_panels ref_interp1d 1 tri_x tri_y = Returned [panel_te]
  /\ exists x_p y_p : list float,
       resample ref_interp1d 1 tri_x tri_y = Returned (x_p, y_p)
       /\ outline [panel_te] = Returned (x_p, y_p).
Proof.
  split; [lia|]. split; [exact create_panels_tri_1|].
  apply (outline_is_resampled_points ref_interp1d 1 tri_x tri_y [panel_te]);
    [lia | exact create_panels_tri_1].
Defined.

(** ** [read_airfoil_dat] *)

Section ReadAirfoilDatProperties.

Variable char : Type.
Variable isalpha : char -> bool.
Variable isspace : char -> bool.
Variable float_of_str : list char -> option float.

(** One line appends to [x] as least as much as to [y]. *)
Lemma read_line_gap (xy : list float * list float) (line : list char) :
  (length (fst xy) + length (snd (read_line isalpha isspace float_of_str xy line))
   <= length (fst (read_line isalpha isspace float_of_str xy line)) + length (snd xy))%nat.
Proof.
  unfold read_line. destruct (strip isspace line) as [|c s]; [lia|].
  destruct (existsb isalpha (c :: s)); [lia|].
  destruct (split isspace (c :: s)) as [|p0 [|p1 rest]]; try lia.
  destruct (float_of_str p0) as [a|]; [|lia].
  destruct (float_of_str p1) as [b|]; cbn [fst snd];
    rewrite ?length_app; cbn [length]; lia.
Qed.

Lemma read_lines_gap (lines : list (list char)) :
  forall xy : list float * list float,
    (length (fst xy) + length (snd (fold_left (read_line isalpha isspace float_of_str) lines xy))
     <= length (fst (fold_left (read_line isalpha isspace float_of_str) lines xy)) + length (snd xy))%nat.
Proof.
  induction lines as [|l lines IH]; intro xy; cbn [fold_left]; [lia|].
  specialize (IH (read_line isalpha isspace float_of_str xy l)). pose proof (read_line_gap xy l). lia.
Qed.

(** X21.  For every file, readable or not, the array y that read_airfoil_dat
    returns is never longer than the array x. *)
Theorem read_airfoil_dat_lengths (file : option (list (list char))) :
  (length (snd (read_airfoil_dat isalpha isspace float_of_str file)) <= length (fst (read_airfoil_dat isalpha isspace float_of_str file)))%nat.
Proof.
  destruct file as [lines|]; cbn [read_airfoil_dat]; [|cbn; lia].
  pose proof (read_lines_gap lines ([], [])) as H. cbn [fst snd length] in H. lia.
Qed.

Lemma read_line_abscissa_only (xy : list float * list float)
    (line : list char) (a : float) :
  abscissa_only_line isalpha isspace float_of_str line a ->
  read_line isalpha isspace float_of_str xy line = (fst xy ++ [a], snd xy).
Proof.
  intros [Ha [p0 [p1 [rest [Hs [H0 H1]]]]]]. unfold read_line.
  destruct (strip isspace line) as [|c s] eqn:E.
  - cbn in Hs. discriminate.
  - now rewrite Ha, Hs, H0, H1.
Qed.

(** X22.  If a line without letters has at least two fields, of which float
    reads the first and refuses the second, the first field stays appended
    to x while nothing is appended to y: whatever the lines before and
    after it, read_airfoil_dat returns an x that is strictly longer than
    y. *)
Theorem read_airfoil_dat_unpaired (before after : list (list char))
    (line : list char) (a : float) :
  abscissa_only_line isalpha isspace float_of_str line a ->
  (length (snd (read_airfoil_dat isalpha isspace float_of_str (Some (before ++ line :: after))))
   < length (fst (read_airfoil_dat isalpha isspace float_of_str (Some (before ++ line :: after)))))%nat.
Proof.
  intro H. cbn [read_airfoil_dat]. rewrite fold_left_app. cbn [fold_left].
  set (st := fold_left (read_line isalpha isspace float_of_str) before ([], [])).
  rewrite (read_line_abscissa_only st line a H).
  pose proof (read_lines_gap before ([], [])) as H1. fold st in H1.
  pose proof (read_lines_gap after (fst st ++ [a], snd st)) as H2.
  cbn [fst snd length] in H1, H2. rewrite length_app in H2. cbn [length] in H2.
  lia.
Qed.

Lemma existsb_rev (f : char -> bool) (s : list char) :
  existsb f (rev s) = existsb f s.
Proof.
  induction s as [|c s IH]; [reflexivity|]. cbn [rev existsb].
  rewrite existsb_app, IH. cbn [existsb]. rewrite orb_false_r. apply orb_comm.
Qed.

Lemma existsb_lstrip (s : list char) :
  (forall c, isalpha c = true -> isspace c = false) ->
  existsb isalpha (lstrip isspace s) = existsb isalpha s.
Proof.
  intro Hc. induction s as [|c s IH]; [reflexivity|]. cbn [lstrip existsb].
  destruct (isspace c) eqn:Es; [|reflexivity].
  destruct (isalpha c) eqn:Ea.
  - rewrite (Hc c Ea) in Es. discriminate.
  - now rewrite IH.
Qed.

Lemma existsb_strip (s : list char) :
  (forall c, isalpha c = true -> isspace c = false) ->
  existsb isalpha (strip isspace s) = existsb isalpha s.
Proof.
  intro Hc. unfold strip.
  now rewrite existsb_rev, existsb_lstrip, existsb_rev, existsb_lstrip.
Qed.

Lemma read_line_letter (xy : list float * list float) (line : list char) :
  existsb isalpha (strip isspace line) = true -> read_line isalpha isspace float_of_str xy line = xy.
Proof.
  intro H. unfold read_line. destruct (strip isspace line); [reflexivity|].
  now rewrite H.
Qed.

(** X23.  A line that contains a letter anywhere (a title, but also a number
    in exponent notation such as 1.0e-3) contributes nothing:
    read_airfoil_dat returns the same arrays as for the file without that
    line. Assumes, as in Python, that no letter is white space. *)
Theorem read_airfoil_dat_skips_letters (before after : list (list char))
    (line : list char) :
  (forall c, isalpha c = true -> isspace c = false) ->
  existsb isalpha line = true ->
  read_airfoil_dat isalpha isspace float_of_str (Some (before ++ line :: after))
  = read_airfoil_dat isalpha isspace float_of_str (Some (before ++ after)).
Proof.
  intros Hc H. cbn [read_airfoil_dat]. rewrite !fold_left_app.
  cbn [fold_left]. rewrite read_line_letter; [reflexivity|].
  now rewrite existsb_strip.
Qed.

Lemma read_line_coordinates (xy : list float * list float)
    (line : list char) (a b : float) :
  coordinate_line isalpha isspace float_of_str line a b ->
  read_line isalpha isspace float_of_str xy line = (fst xy ++ [a], snd xy ++ [b]).
Proof.
  intros [Ha [p0 [p1 [rest [Hs [H0 H1]]]]]]. unfold read_line.
  destruct (strip isspace line) as [|c s] eqn:E.
  - cbn in Hs. discriminate.
  - now rewrite Ha, Hs, H0, H1.
Qed.

Lemma read_lines_coordinates (rows : list (list char * (float * float))) :
  Forall (fun r => coordinate_line isalpha isspace float_of_str
                     (fst r) (fst (snd r)) (snd (snd r))) rows ->
  forall xy : list float * list float,
    fold_left (read_line isalpha isspace float_of_str) (map fst rows) xy
    = (fst xy ++ map (fun r => fst (snd r)) rows,
       snd xy ++ map (fun r => snd (snd r)) rows).
Proof.
  induction rows as [|r rows IH]; intros HF xy; cbn [map fold_left].
  - rewrite !app_nil_r. now destruct xy.
  - inversion HF as [|? ? Hr HF']; subst.
    rewrite (read_line_coordinates xy _ _ _ Hr), (IH HF'). cbn [fst snd].
    now rewrite <- !app_assoc.
Qed.

(** X24.  On a file in which every line is free of letters and starts with two
    fields that float reads, read_airfoil_dat returns all first values in
    x and all second values in y, in the order of the lines; further
    fields are ignored. *)
Theorem read_airfoil_dat_coordinates
    (rows : list (list char * (float * float))) :
  Forall (fun r => coordinate_line isalpha isspace float_of_str
                     (fst r) (fst (snd r)) (snd (snd r))) rows ->
  read_airfoil_dat isalpha isspace float_of_str (Some (map fst rows))
  = (map (fun r => fst (snd r)) rows, map (fun r => snd (snd r)) rows).
Proof.
  intro H. cbn [read_airfoil_dat].
  now rewrite (read_lines_coordinates rows H ([], [])).
Qed.

End ReadAirfoilDatProperties.

Lemma ascii_alpha_not_space (c : ascii) :
  ascii_isalpha c = true -> ascii_isspace c = false.
Proof.
  destruct c as [[] [] [] [] [] [] [] []]; vm_compute; congruence.
Qed.

Lemma abscissa_only_example :
  abscissa_only_line ascii_isalpha ascii_isspace ascii_float
    (list_ascii_of_string "0.5 -") (fin (INR 0 + INR 5 / 10 ^ 1)).
Proof.
  split; [reflexivity|].
  exists (list_ascii_of_string "0.5"), (list_ascii_of_string "-"), [].
  repeat split; reflexivity.
Qed.

Lemma read_airfoil_dat_unpaired_witness :
  abscissa_only_line ascii_isalpha ascii_isspace ascii_float
    (list_ascii_of_string "0.5 -") (fin (INR 0 + INR 5 / 10 ^ 1))
  /\ (length (snd (read_airfoil_dat ascii_isalpha ascii_isspace ascii_float
                     (Some ([list_ascii_of_string "1.0 0.0"]
                            ++ list_ascii_of_string "0.5 -"
                            :: [list_ascii_of_string "0.0 0.0"]))))
      < length (fst (read_airfoil_dat ascii_isalpha ascii_isspace ascii_float
                       (Some ([list_ascii_of_string "1.0 0.0"]
                              ++ list_ascii_of_string "0.5 -"
                              :: [list_ascii_of_string "0.0 0.0"])))))%nat.
Proof.
  split; [exact abscissa_only_example|].
  exact (read_airfoil_dat_unpaired ascii ascii_isalpha ascii_isspace ascii_float
           [list_ascii_of_string "1.0 0.0"] [list_ascii_of_string "0.0 0.0"]
           (list_ascii_of_string "0.5 -") _ abscissa_only_example).
Defined.

Lemma read_airfoil_dat_skips_letters_witness :
  existsb ascii_isalpha (list_ascii_of_string "1.0e-3 0.0") = true
  /\ read_airfoil_dat ascii_isalpha ascii_isspace ascii_float
       (Some ([list_ascii_of_string "1.0 0.0"]
              ++ list_ascii_of_string "1.0e-3 0.0"
              :: [list_ascii_of_string "0.0 0.0"]))
     = read_airfoil_dat ascii_isalpha ascii_isspace ascii_float
         (Some ([list_ascii_of_string "1.0 0.0"]
                ++ [list_ascii_of_string "0.0 0.0"])).
Proof.
  split; [reflexivity|].
  exact (read_airfoil_dat_skips_letters ascii ascii_isalpha ascii_isspace
           ascii_float [list_ascii_of_string "1.0 0.0"]
           [list_ascii_of_string "0.0 0.0"]
           (list_ascii_of_string "1.0e-3 0.0") ascii_alpha_not_space eq_refl).
Defined.

Lemma coordinate_example_1 :
  coordinate_line ascii_isalpha ascii_isspace ascii_float
    (list_ascii_of_string "  1.0  0.25 ")
    (fin (INR 1 + INR 0 / 10 ^ 1)) (fin (INR 0 + INR 25 / 10 ^ 2)).
Proof.
  split; [reflexivity|].
  exists (list_ascii_of_string "1.0"), (list_ascii_of_string "0.25"), [].
  repeat split; reflexivity.
Qed.

Lemma coordinate_example_2 :
  coordinate_line ascii_isalpha ascii_isspace ascii_float
    (list_ascii_of_string "0.5 -0.1 7")
    (fin (INR 0 + INR 5 / 10 ^ 1)) (fin (- (INR 0 + INR 1 / 10 ^ 1))).
Proof.
  split; [reflexivity|].
  exists (list_ascii_of_string "0.5"), (list_ascii_of_string "-0.1"),
         [list_ascii_of_string "7"].
  repeat split; reflexivity.
Qed.

Lemma read_airfoil_dat_coordinates_witness :
  read_airfoil_dat ascii_isalpha ascii_isspace ascii_float
    (Some [list_ascii_of_string "  1.0  0.25 ";
           list_ascii_of_string "0.5 -0.1 7"])
  = ([fin (INR 1 + INR 0 / 10 ^ 1); fin (INR 0 + INR 5 / 10 ^ 1)],
     [fin (INR 0 + INR 25 / 10 ^ 2); fin (- (INR 0 + INR 1 / 10 ^ 1))]).
Proof.
  apply (read_airfoil_dat_coordinates ascii ascii_isalpha ascii_isspace
           ascii_float
           [(list_ascii_of_string "  1.0  0.25 ",
             (fin (INR 1 + INR 0 / 10 ^ 1), fin (INR 0 + INR 25 / 10 ^ 2)));
            (list_ascii_of_string "0.5 -0.1 7",
             (fin (INR 0 + INR 5 / 10 ^ 1), fin (- (INR 0 + INR 1 / 10 ^ 1))))]).
  apply Forall_cons; [exact coordinate_example_1|].
  apply Forall_cons; [exact coordinate_example_2|]. apply Forall_nil.
Defined.

(** ** The plotting methods of [AirfoilComparator] *)

(** A loop that reaches a failing element fails. *)
Lemma mapM_fails {A B : Type} (f : A -> outcome B) (l : list A) (a : A) (e : exn) :
  In a l -> f a = Raised e -> exists e' : exn, mapM f l = Raised e'.
Proof.
  induction l as [|b l IH]; intros Hin Ha; [contradiction|]. cbn [mapM].
  destruct (f b) as [v|e'] eqn:Eb; cbn [bind]; [|now exists e'].
  destruct Hin as [->|Hin]; [congruence|].
  destruct (IH Hin Ha) as [e' He']. rewrite He'. now exists e'.
Qed.

Lemma solve_flow_one_panel (p : Panel) (b alpha_deg V_inf : R) :
  beta p = Some b ->
  exists state : dict,
    solve_flow ref_linalg_solve [p] alpha_deg V_inf = Returned (Some state).
Proof.
  intro Hb. eexists.
  eapply (solve_flow_returns ref_linalg_solve [p] alpha_deg V_inf).
  - rewrite assemble_A_one, rhs_entries.
    cbn [enumerate length seq combine map fst snd]. rewrite Hb. float_cbn.
    unfold fin. apply ref_linalg_solve_1x1. lra.
  - cbn [length]. apply Nat.le_refl.
Qed.

Section ComparatorProperties.

Variable interp1d : list float -> list R -> outcome (R -> outcome float).
Variable linalg_solve : list (list float) -> list float -> outcome (list float).
Variable num_panels : nat.

(** X25.  For a geometry on which create_panels returns panels and solve_flow
    returns a state, the curve that plot_overlapped_cp plots (lines
    237-238) pairs the abscissae of the panel midpoints with the Cp of the
    state, and both lists have exactly num_panels entries. *)
Theorem cp_curve_one_point_per_panel (x y : list R) (alpha : R)
    (panels : list Panel) (state : dict) :
  create_panels interp1d num_panels x y = Returned panels ->
  solve_flow linalg_solve panels alpha 1 = Returned (Some state) ->
  exists Cp : list float,
    cp_curve interp1d linalg_solve num_panels x y alpha
    = Returned (Some (map xc panels, Cp))
    /\ get_vec state "Cp" = Returned Cp
    /\ length (map xc panels) = num_panels
    /\ length Cp = num_panels.
Proof.
  intros Hc Hs. unfold cp_curve. rewrite Hc. cbn [bind]. rewrite Hs. cbn [bind].
  destruct (solve_flow_Some _ _ _ _ _ Hs) as [sigma [_ [_ ->]]].
  destruct (create_panels_Returned interp1d num_panels x y panels Hc)
    as [x_p [y_p [_ Hb]]].
  apply build_panels_Returned in Hb. destruct Hb as [Hlen _].
  eexists. split; [reflexivity|]. split; [reflexivity|].
  now rewrite !length_map, enumerate_length.
Qed.

(** X26.  For num_panels >= 1 and a geometry on which create_panels returns
    panels and solve_flow returns a state, the following steps of
    plot_field_grid (lines 263-265) raise nothing: they give the field of
    compute_flow_field at resolution 60 and the resampled points as
    outline. *)
Theorem field_data_after_solve (x y : list R) (alpha : R)
    (panels : list Panel) (state : dict) :
  (0 < num_panels)%nat ->
  create_panels interp1d num_panels x y = Returned panels ->
  solve_flow linalg_solve panels alpha 1 = Returned (Some state) ->
  exists (ff : dict) (x_p y_p : list float),
    field_data interp1d linalg_solve num_panels x y alpha
    = Returned (Some (ff, (x_p, y_p)))
    /\ compute_flow_field state alpha 60 = Returned ff
    /\ resample interp1d num_panels x y = Returned (x_p, y_p).
Proof.
  intros HN Hc Hs. unfold field_data. rewrite Hc. cbn [bind]. rewrite Hs.
  cbn [bind].
  destruct (solve_flow_Some _ _ _ _ _ Hs) as [sigma [_ [Hl ->]]].
  destruct (create_panels_Returned interp1d num_panels x y panels Hc)
    as [x_p [y_p [Hr Hb]]].
  destruct (resample_lengths interp1d num_panels x y x_p y_p Hr) as [Lx Ly].
  match goal with
  | |- context [compute_flow_field ?st alpha 60] =>
      rewrite (compute_flow_field_returns st panels sigma alpha 60
                 eq_refl eq_refl Hl)
  end.
  cbn [bind].
  rewrite (outline_of_built_panels num_panels x_p y_p panels HN Lx Ly Hb).
  cbn [bind]. eexists _, x_p, y_p. split; [reflexivity|]. split; [reflexivity|].
  exact Hr.
Qed.

(** X27.  If read_airfoil_dat read no abscissa from a file (for instance
    because the file could not be opened, line 33) and the resulting pair
    of arrays is one of the loaded geometries, plot_overlapped_cp raises:
    create_panels fails on it and the loop has no handler. *)
Theorem plot_overlapped_cp_unread_file
    (char : Type) (isalpha isspace : char -> bool)
    (float_of_str : list char -> option float)
    (file : option (list (list char)))
    (before after : geometries) (name : string) (x y : list R) (alpha : R) :
  read_airfoil_dat isalpha isspace float_of_str file = (map fin x, map fin y) ->
  fst (read_airfoil_dat isalpha isspace float_of_str file) = [] ->
  exists e : exn,
    plot_overlapped_cp interp1d linalg_solve num_panels
      (before ++ (name, (x, y)) :: after) alpha = Raised e.
Proof.
  intros Hr He. rewrite Hr in He. cbn [fst] in He.
  apply map_eq_nil in He. subst x. unfold plot_overlapped_cp.
  apply (mapM_fails _ _ (name, ([], y)) IndexError).
  - apply in_elt.
  - cbn [fst snd]. unfold cp_curve.
    rewrite (create_panels_empty interp1d num_panels [] y) by (now left).
    reflexivity.
Qed.

End ComparatorProperties.

Lemma cp_curve_one_point_per_panel_witness :
  create_panels ref_interp1d 1 tri_x tri_y = Returned [panel_te]
  /\ exists state : dict,
       solve_flow ref_linalg_solve [panel_te] 4 1 = Returned (Some state)
       /\ exists Cp : list float,
            cp_curve ref_interp1d ref_linalg_solve 1 tri_x tri_y 4
            = Returned (Some (map xc [panel_te], Cp))
            /\ get_vec state "Cp" = Returned Cp
            /\ length (map xc [panel_te]) = 1%nat
            /\ length Cp = 1%nat.
Proof.
  split; [exact create_panels_tri_1|].
  destruct (solve_flow_one_panel panel_te (PI / 2) 4 1 eq_refl) as [state Hs].
  exists state. split; [exact Hs|].
  exact (cp_curve_one_point_per_panel ref_interp1d ref_linalg_solve 1
           tri_x tri_y 4 [panel_te] state create_panels_tri_1 Hs).
Defined.

Lemma field_data_after_solve_witness :
  (0 < 1)%nat
  /\ create_panels ref_interp1d 1 tri_x tri_y = Returned [panel_te]
  /\ exists state : dict,
       solve_flow ref_linalg_solve [panel_te] 4 1 = Returned (Some state)
       /\ exists (ff : dict) (x_p y_p : list float),
            field_data ref_interp1d ref_linalg_solve 1 tri_x tri_y 4
            = Returned (Some (ff, (x_p, y_p)))
            /\ compute_flow_field state 4 60 = Returned ff
            /\ resample ref_interp1d 1 tri_x tri_y = Returned (x_p, y_p).
Proof.
  split; [lia|]. split; [exact create_panels_tri_1|].
  destruct (solve_flow_one_panel panel_te (PI / 2) 4 1 eq_refl) as [state Hs].
  exists state. split; [exact Hs|].
  exact (field_data_after_solve ref_interp1d ref_linalg_solve 1
           tri_x tri_y 4 [panel_te] state (Nat.lt_0_succ 0)
           create_panels_tri_1 Hs).
Defined.

Lemma plot_overlapped_cp_unread_file_witness :
  read_airfoil_dat ascii_isalpha ascii_isspace ascii_float None
  = (map fin [], map fin [])
  /\ fst (read_airfoil_dat ascii_isalpha ascii_isspace ascii_float None) = []
  /\ exists e : exn,
       plot_overlapped_cp ref_interp1d ref_linalg_solve 160
         ([] ++ ("naca0012"%string, ([], [])) :: []) 4 = Raised e.
Proof.
  split; [reflexivity|]. split; [reflexivity|].
  exact (plot_overlapped_cp_unread_file ref_interp1d ref_linalg_solve 160
           ascii ascii_isalpha ascii_isspace ascii_float None
           [] [] "naca0012"%string [] [] 4 eq_refl eq_refl).
Defined.

(** ** The grids of eight axes *)

Lemma axes_flat_ninth (i : nat) :
  (8 <= i)%nat -> getitem axes_flat i = Raised IndexError.
Proof.
  intro H. unfold getitem.
  destruct (nth_error axes_flat i) eqn:E; [|reflexivity].
  assert (i < length axes_flat)%nat by (apply nth_error_Some; congruence).
  cbn in H0. lia.
Qed.

Lemma In_enumerate {A : Type} (l : list A) (i : nat) (a : A) :
  nth_error l i = Some a -> In (i, a) (enumerate l).
Proof.
  intro H. apply (nth_error_In _ i). now rewrite nth_error_enumerate, H.
Qed.

Lemma enumerate_In {A : Type} (l : list A) (i : nat) (a : A) :
  In (i, a) (enumerate l) -> nth_error l i = Some a.
Proof.
  intro H. apply In_nth_error in H. destruct H as [n Hn].
  rewrite nth_error_enumerate in Hn.
  destruct (nth_error l n) as [a'|] eqn:E; [|discriminate].
  cbn in Hn. injection Hn as <- <-. exact E.
Qed.

Lemma axes_flat_first (i : nat) (ax : unit) :
  getitem axes_flat i = Returned ax -> (i < 8)%nat.
Proof.
  unfold getitem. destruct (nth_error axes_flat i) eqn:E; [|discriminate].
  intros _. assert (H : (i < length axes_flat)%nat)
    by (apply nth_error_Some; congruence).
  exact H.
Qed.

(** An exception of the loop of [plot_geometry_comparison_grid] is the
    [IndexError] of [axes_flat[i]], or what a drawing call raised on one of
    the first eight axes. *)
Lemma plot_geometry_comparison_grid_Raised
    (ax_fill ax_plot : list R -> list R -> outcome unit)
    (airfoils : list string) (loaded : geometries) (e : exn) :
  plot_geometry_comparison_grid ax_fill ax_plot airfoils loaded = Raised e ->
  e = IndexError
  \/ exists (j : nat) (nm : string) (g : list R * list R),
       (j < 8)%nat /\ nth_error airfoils j = Some nm
       /\ geometry_get loaded nm = Some g
       /\ (ax_fill (fst g) (snd g) = Raised e
           \/ ax_plot (fst g) (snd g) = Raised e).
Proof.
  unfold plot_geometry_comparison_grid. intro He.
  apply mapM_Raised in He. destruct He as [[k nm] [Hin He]].
  cbn [fst snd] in He. apply enumerate_In in Hin.
  destruct (geometry_get loaded nm) as [g|] eqn:Eg; [|discriminate].
  destruct (getitem axes_flat k) as [ax|e'] eqn:Ek; cbn [bind] in He.
  - apply axes_flat_first in Ek. right. exists k, nm, g.
    split; [exact Ek|]. split; [exact Hin|]. split; [exact Eg|].
    destruct (ax_fill (fst g) (snd g)) as [u|e'] eqn:Ef; cbn [bind] in He.
    + destruct (ax_plot (fst g) (snd g)) as [u'|e'] eqn:Ep; cbn [bind] in He;
        [discriminate|]. right. congruence.
    + left. congruence.
  - apply getitem_Raised in Ek. left. congruence.
Qed.

(** X28.  The figures of plot_geometry_comparison_grid and plot_field_grid
    have eight axes.  If an airfoil at index 8 or later in the airfoil list
    has a loaded geometry, both methods raise.  What the first one raises is
    IndexError, unless ax.fill or ax.plot raised before on one of the first
    eight axes (matplotlib raises ValueError on coordinate arrays of
    different lengths), and then it is that exception; it is IndexError
    whenever the two drawing calls return on every loaded geometry. *)
Theorem grid_plots_hold_eight_airfoils
    (interp1d : list float -> list R -> outcome (R -> outcome float))
    (linalg_solve : list (list float) -> list float -> outcome (list float))
    (num_panels : nat) (ax_fill ax_plot : list R -> list R -> outcome unit)
    (airfoils : list string) (loaded : geometries)
    (alpha : R) (i : nat) (name : string) (xy : list R * list R) :
  nth_error airfoils i = Some name -> (8 <= i)%nat ->
  geometry_get loaded name = Some xy ->
  (exists e : exn,
      plot_geometry_comparison_grid ax_fill ax_plot airfoils loaded = Raised e
      /\ (e = IndexError
          \/ exists (j : nat) (nm : string) (g : list R * list R),
               (j < 8)%nat /\ nth_error airfoils j = Some nm
               /\ geometry_get loaded nm = Some g
               /\ (ax_fill (fst g) (snd g) = Raised e
                   \/ ax_plot (fst g) (snd g) = Raised e)))
  /\ ((forall (nm : string) (g : list R * list R),
          geometry_get loaded nm = Some g ->
          ax_fill (fst g) (snd g) = Returned tt
          /\ ax_plot (fst g) (snd g) = Returned tt) ->
      plot_geometry_comparison_grid ax_fill ax_plot airfoils loaded
      = Raised IndexError)
  /\ exists e : exn,
       plot_field_grid interp1d linalg_solve num_panels airfoils loaded alpha
       = Raised e.
Proof.
  intros Hi H8 Hg. pose proof (In_enumerate airfoils i name Hi) as Hin.
  assert (H : exists e : exn,
             plot_geometry_comparison_grid ax_fill ax_plot airfoils loaded
             = Raised e).
  { unfold plot_geometry_comparison_grid.
    match goal with
    | |- exists e, mapM ?f _ = _ =>
        apply (mapM_fails f (enumerate airfoils) (i, name) IndexError Hin)
    end.
    cbn [fst snd]. now rewrite Hg, axes_flat_ninth. }
  destruct H as [e He].
  pose proof (plot_geometry_comparison_grid_Raised _ _ _ _ _ He) as Hcases.
  split; [|split].
  - exists e. split; [exact He | exact Hcases].
  - intro Hdraw. rewrite He. apply f_equal.
    destruct Hcases as [->|[j [nm [g [_ [_ [Eg [Hf|Hp]]]]]]]]; [reflexivity| |].
    + destruct (Hdraw nm g Eg) as [Hf' _]. congruence.
    + destruct (Hdraw nm g Eg) as [_ Hp']. congruence.
  - unfold plot_field_grid.
    apply (mapM_fails _ (enumerate airfoils) (i, name) IndexError Hin).
    cbn [fst snd]. now rewrite Hg, axes_flat_ninth.
Qed.

(** Nine airfoils, of which the last one has a geometry; the drawing calls
    are those of [ref_draw]. *)
Lemma grid_plots_hold_eight_airfoils_witness :
  nth_error ["a"; "b"; "c"; "d"; "e"; "f"; "g"; "h"; "i"]%string 8
  = Some "i"%string
  /\ (8 <= 8)%nat
  /\ geometry_get [("i"%string, (tri_x, tri_y))] "i" = Some (tri_x, tri_y)
  /\ (exists e : exn,
         plot_geometry_comparison_grid ref_draw ref_draw
           ["a"; "b"; "c"; "d"; "e"; "f"; "g"; "h"; "i"]%string
           [("i"%string, (tri_x, tri_y))] = Raised e
         /\ (e = IndexError
             \/ exists (j : nat) (nm : string) (g : list R * list R),
                  (j < 8)%nat
                  /\ nth_error ["a"; "b"; "c"; "d"; "e"; "f"; "g"; "h"; "i"]%string j
                     = Some nm
                  /\ geometry_get [("i"%string, (tri_x, tri_y))] nm = Some g
                  /\ (ref_draw (fst g) (snd g) = Raised e
                      \/ ref_draw (fst g) (snd g) = Raised e)))
  /\ ((forall (nm : string) (g : list R * list R),
          geometry_get [("i"%string, (tri_x, tri_y))] nm = Some g ->
          ref_draw (fst g) (snd g) = Returned tt
          /\ ref_draw (fst g) (snd g) = Returned tt) ->
      plot_geometry_comparison_grid ref_draw ref_draw
        ["a"; "b"; "c"; "d"; "e"; "f"; "g"; "h"; "i"]%string
        [("i"%string, (tri_x, tri_y))] = Raised IndexError)
  /\ exists e : exn,
       plot_field_grid ref_interp1d ref_linalg_solve 160
         ["a"; "b"; "c"; "d"; "e"; "f"; "g"; "h"; "i"]%string
         [("i"%string, (tri_x, tri_y))] 4 = Raised e.
Proof.
  split; [reflexivity|]. split; [apply Nat.le_refl|]. split; [reflexivity|].
  exact (grid_plots_hold_eight_airfoils ref_interp1d ref_linalg_solve 160
           ref_draw ref_draw
           ["a"; "b"; "c"; "d"; "e"; "f"; "g"; "h"; "i"]%string
           [("i"%string, (tri_x, tri_y))] 4 8 "i"%string (tri_x, tri_y)
           eq_refl (Nat.le_refl 8) eq_refl).
Defined.

(** The two outcomes on nine airfoils: with a geometry for the ninth only,
    [IndexError]; with, in addition, a geometry of two abscissae and one
    ordinate for the first (as [read_airfoil_dat] can return), the
    [ValueError] of the first drawing call. *)
Lemma plot_geometry_comparison_grid_nine :
  plot_geometry_comparison_grid ref_draw ref_draw
    ["a"; "b"; "c"; "d"; "e"; "f"; "g"; "h"; "i"]%string
    [("i"%string, (tri_x, tri_y))] = Raised IndexError
  /\ plot_geometry_comparison_grid ref_draw ref_draw
       ["a"; "b"; "c"; "d"; "e"; "f"; "g"; "h"; "i"]%string
       [("a"%string, ([0; 1], [0])); ("i"%string, (tri_x, tri_y))]
     = Raised ValueError.
Proof. split; reflexivity. Qed.

(** ** [load_xfoil_polar] *)

Section LoadXfoilPolarProperties.

Variable char : Type.
Variable isspace : char -> bool.
Variable is_hyphen : char -> bool.
Variable float_of_str : list char -> option float.
Variable sort_values : list PolarRow -> list PolarRow.

Lemma polar_row_LD (p : list (list char)) (r : PolarRow) :
  polar_row float_of_str p = Some r ->
  p_LD r = lift_to_drag (p_CL r) (p_CD r).
Proof.
  unfold polar_row.
  destruct p as [|p0 [|p1 [|p2 [|p3 [|p4 rest]]]]]; try discriminate.
  destruct (float_of_str p0); [|discriminate].
  destruct (float_of_str p1); [|discriminate].
  destruct (float_of_str p2); [|discriminate].
  destruct (float_of_str p4); [|discriminate].
  intro H. injection H as <-. reflexivity.
Qed.

Lemma polar_line_LD (st : bool * list PolarRow) (line : list char) :
  Forall (fun r => p_LD r = lift_to_drag (p_CL r) (p_CD r)) (snd st) ->
  Forall (fun r => p_LD r = lift_to_drag (p_CL r) (p_CD r))
         (snd (polar_line isspace is_hyphen float_of_str st line)).
Proof.
  intro H. unfold polar_line.
  destruct (contains_rule is_hyphen line); [exact H|].
  destruct (fst st); [|exact H].
  destruct (strip isspace line); [exact H|].
  destruct (polar_row float_of_str _) as [r|] eqn:Er; [|exact H].
  cbn [snd]. apply Forall_app. split; [exact H|].
  constructor; [|constructor]. now apply polar_row_LD in Er.
Qed.

Lemma polar_lines_LD (lines : list (list char)) :
  forall st : bool * list PolarRow,
    Forall (fun r => p_LD r = lift_to_drag (p_CL r) (p_CD r)) (snd st) ->
    Forall (fun r => p_LD r = lift_to_drag (p_CL r) (p_CD r))
           (snd (fold_left (polar_line isspace is_hyphen float_of_str) lines st)).
Proof.
  induction lines as [|l lines IH]; intros st H; cbn [fold_left]; [exact H|].
  apply IH. now apply polar_line_LD.
Qed.

(** X29.  Assuming sort_values returns a permutation of the rows: in every row
    of the frame that load_xfoil_polar returns, if CL and CD are finite,
    L/D is CL/CD when CD is not 0 and is 0 when CD is 0, so it is never a
    division by zero. *)
Theorem load_xfoil_polar_lift_to_drag (file : option (list (list char)))
    (frame : list PolarRow) (r : PolarRow) (cl cd : R) :
  (forall data, Permutation (sort_values data) data) ->
  load_xfoil_polar isspace is_hyphen float_of_str sort_values file = Some frame ->
  In r frame -> p_CL r = Some cl -> p_CD r = Some cd ->
  p_LD r = Some (if Req_dec_T cd 0 then 0 else cl / cd).
Proof.
  intros Hsort Hload Hin Hcl Hcd. unfold load_xfoil_polar in Hload.
  destruct file as [lines|]; [|discriminate].
  pose proof (polar_lines_LD lines (false, []) (Forall_nil _)) as HF.
  destruct (snd (fold_left _ lines (false, []))) as [|r0 data] eqn:Ed;
    [discriminate|].
  injection Hload as <-.
  apply (Permutation_in _ (Hsort (r0 :: data))) in Hin.
  rewrite Forall_forall in HF. rewrite (HF r Hin), Hcl, Hcd.
  unfold lift_to_drag. destruct (Req_dec_T cd 0) as [E|E]; [reflexivity|].
  now apply fdiv_nonzero.
Qed.

Lemma polar_header (header : list (list char)) :
  Forall (fun l => contains_rule is_hyphen l = false) header ->
  fold_left (polar_line isspace is_hyphen float_of_str) header (false, [])
  = (false, []).
Proof.
  induction header as [|l header IH]; intro H; [reflexivity|].
  inversion H as [|? ? Hl H']; subst. cbn [fold_left].
  unfold polar_line at 2. rewrite Hl. cbn [fst]. now apply IH.
Qed.

(** X30.  Lines before the first line that contains --- contribute nothing to
    load_xfoil_polar: for a header without such a line, the file header +
    body gives the same result as the file body alone. *)
Theorem load_xfoil_polar_header_ignored (header body : list (list char)) :
  Forall (fun l => contains_rule is_hyphen l = false) header ->
  load_xfoil_polar isspace is_hyphen float_of_str sort_values
    (Some (header ++ body))
  = load_xfoil_polar isspace is_hyphen float_of_str sort_values (Some body).
Proof.
  intro H. unfold load_xfoil_polar.
  now rewrite fold_left_app, (polar_header header H).
Qed.

End LoadXfoilPolarProperties.

Lemma load_xfoil_polar_example :
  load_xfoil_polar ascii_isspace ascii_is_hyphen ascii_float (fun data => data)
    (Some [list_ascii_of_string "  alpha  CL  CD  CDp  CM";
           list_ascii_of_string " ------ ------";
           list_ascii_of_string "  2.0  0.5  0.01  0.005  -0.05"])
  = Some [{| p_alpha := fin (INR 2 + INR 0 / 10 ^ 1);
             p_CL := fin (INR 0 + INR 5 / 10 ^ 1);
             p_CD := fin (INR 0 + INR 1 / 10 ^ 2);
             p_CM := fin (- (INR 0 + INR 5 / 10 ^ 2));
             p_LD := lift_to_drag (fin (INR 0 + INR 5 / 10 ^ 1))
                                  (fin (INR 0 + INR 1 / 10 ^ 2)) |}].
Proof. reflexivity. Qed.

Lemma load_xfoil_polar_lift_to_drag_witness :
  p_LD {| p_alpha := fin (INR 2 + INR 0 / 10 ^ 1);
          p_CL := fin (INR 0 + INR 5 / 10 ^ 1);
          p_CD := fin (INR 0 + INR 1 / 10 ^ 2);
          p_CM := fin (- (INR 0 + INR 5 / 10 ^ 2));
          p_LD := lift_to_drag (fin (INR 0 + INR 5 / 10 ^ 1))
                               (fin (INR 0 + INR 1 / 10 ^ 2)) |}
  = Some (if Req_dec_T (INR 0 + INR 1 / 10 ^ 2) 0 then 0
          else (INR 0 + INR 5 / 10 ^ 1) / (INR 0 + INR 1 / 10 ^ 2)).
Proof.
  apply (load_xfoil_polar_lift_to_drag ascii ascii_isspace ascii_is_hyphen
           ascii_float (fun data => data) _ _ _ _ _
           (fun data => Permutation_refl data)
           load_xfoil_polar_example (or_introl eq_refl) eq_refl eq_refl).
Defined.

Lemma load_xfoil_polar_header_ignored_witness :
  Forall (fun l => contains_rule ascii_is_hyphen l = false)
         [list_ascii_of_string "XFOIL  Version 6.99";
          list_ascii_of_string "  alpha  CL  CD -- CDp  CM"]
  /\ load_xfoil_polar ascii_isspace ascii_is_hyphen ascii_float (fun data => data)
       (Some ([list_ascii_of_string "XFOIL  Version 6.99";
               list_ascii_of_string "  alpha  CL  CD -- CDp  CM"]
              ++ [list_ascii_of_string " ------ ------";
                  list_ascii_of_string "  2.0  0.5  0.01  0.005  -0.05"]))
     = load_xfoil_polar ascii_isspace ascii_is_hyphen ascii_float (fun data => data)
         (Some [list_ascii_of_string " ------ ------";
                list_ascii_of_string "  2.0  0.5  0.01  0.005  -0.05"]).
Proof.
  assert (H : Forall (fun l => contains_rule ascii_is_hyphen l = false)
                [list_ascii_of_string "XFOIL  Version 6.99";
                 list_ascii_of_string "  alpha  CL  CD -- CDp  CM"]).
  { apply Forall_cons; [reflexivity|]. apply Forall_cons; [reflexivity|].
    apply Forall_nil. }
  split; [exact H|].
  exact (load_xfoil_polar_header_ignored ascii ascii_isspace ascii_is_hyphen
           ascii_float (fun data => data) _ _ H).
Defined.
